(** * ImageProgram: retry, concurrency limiting, image enrichment and merge import

    A shallow embedding of the TypeScript sources of the import/enrichment
    back end, with the properties of its specification stated and settled
    against it.

    Layout: the first half embeds the program (JavaScript strings and the
    regular expressions the sources use, [withRetry], [createLimiter],
    the SSRF check, the image downloader and [enrichProductImages], the
    title cleaners, the merge step of [runImportService], the lock handling
    of the products route, [simpleHash], the [/apply] route); the second
    half holds the lemmas. *)

From Stdlib Require Import ZArith QArith Qround Qminmax Qpower List String Ascii.
From Stdlib Require Import Bool Lia.
From stdpp Require Import gmap strings list fin_maps pretty.
Import ListNotations.

Set Default Proof Using "Type".

(* ===================================================================== *)
(** * Part I. The program                                                 *)
(* ===================================================================== *)

(** ** JavaScript strings

    A JavaScript string is a sequence of UTF-16 code units; [indexOf],
    [substring], [length] and the regular expressions of the sources
    (none carries the [u] flag) all count code units. *)

Definition jsstring : Type := list Z.

(** Literals are written as Rocq strings (UTF-8 bytes) and decoded. *)
Definition bytes_of (s : string) : list Z :=
  map (fun a => Z.of_N (N_of_ascii a)) (list_ascii_of_string s).

Definition surrogates (cp : Z) : list Z :=
  if (cp <? 65536)%Z then [cp]
  else [(55296 + (cp - 65536) / 1024)%Z; (56320 + (cp - 65536) mod 1024)%Z].

Fixpoint utf16_of_bytes (bs : list Z) : jsstring :=
  match bs with
  | [] => []
  | b0 :: t0 =>
    if (b0 <? 128)%Z then b0 :: utf16_of_bytes t0
    else match t0 with
    | [] => []
    | b1 :: t1 =>
      if (b0 <? 224)%Z then ((b0 mod 32) * 64 + b1 mod 64)%Z :: utf16_of_bytes t1
      else match t1 with
      | [] => []
      | b2 :: t2 =>
        if (b0 <? 240)%Z
        then ((b0 mod 16) * 4096 + (b1 mod 64) * 64 + b2 mod 64)%Z :: utf16_of_bytes t2
        else match t2 with
        | [] => []
        | b3 :: t3 =>
          surrogates ((b0 mod 8) * 262144 + (b1 mod 64) * 4096
                      + (b2 mod 64) * 64 + b3 mod 64)%Z ++ utf16_of_bytes t3
        end
      end
    end
  end.

Definition js (s : string) : jsstring := utf16_of_bytes (bytes_of s).

Definition jsstring_eqb (a b : jsstring) : bool := bool_decide (a = b).

(** [WhiteSpace] and [LineTerminator] of ECMAScript: the set of [\s] and of
    [String.prototype.trim]. *)
Definition isWhiteSpace (c : Z) : bool :=
  ((9 <=? c) && (c <=? 13) || (c =? 32) || (c =? 160) || (c =? 5760)
   || (8192 <=? c) && (c <=? 8202) || (c =? 8232) || (c =? 8233)
   || (c =? 8239) || (c =? 8287) || (c =? 12288) || (c =? 65279))%Z.

Fixpoint trimStart (s : jsstring) : jsstring :=
  match s with
  | c :: s' => if isWhiteSpace c then trimStart s' else s
  | [] => []
  end.

Definition trimEnd (s : jsstring) : jsstring := rev (trimStart (rev s)).

Definition trim (s : jsstring) : jsstring := trimEnd (trimStart s).

Fixpoint startsWith (s p : jsstring) {struct p} : bool :=
  match p, s with
  | [], _ => true
  | a :: p', b :: s' => (a =? b)%Z && startsWith s' p'
  | _ :: _, [] => false
  end.

(** [s.indexOf(t)]: the first position at which [t] occurs, [-1] if none. *)
Fixpoint indexOf_from (i : Z) (s t : jsstring) : Z :=
  if startsWith s t then i
  else match s with
       | [] => (-1)%Z
       | _ :: s' => indexOf_from (i + 1)%Z s' t
       end.

Definition indexOf (s t : jsstring) : Z := indexOf_from 0%Z s t.

Definition includes (s t : jsstring) : bool := negb (indexOf s t =? -1)%Z.

(** [s.substring(0, n)] for [0 <= n]. *)
Definition substring0 (s : jsstring) (n : Z) : jsstring := take (Z.to_nat n) s.

(** [s.split(d)[0]] for a one-unit delimiter: the text before its first
    occurrence, the whole string if there is none. *)
Fixpoint split_first (d : Z) (s : jsstring) : jsstring :=
  match s with
  | [] => []
  | c :: s' => if (c =? d)%Z then [] else c :: split_first d s'
  end.

(** ** Regular expressions

    A backtracking matcher in the order ECMAScript prescribes: alternatives
    left to right, greedy quantifiers longest first, lazy ones shortest
    first, an iteration of a quantifier that consumes nothing is refused.
    The continuation receives the rest of the input and the capture
    groups matched so far, by number. *)

Abbreviation Captures := (gmap nat jsstring).

Inductive regex : Type :=
| RSet (p : Z -> bool)
| REmpty
| RCat (r1 r2 : regex)
| RAlt (r1 r2 : regex)
| RStar (greedy : bool) (r : regex)
| RGroup (i : nat) (r : regex)
| REnd.

Definition orElse {A} (x : option A) (y : unit -> option A) : option A :=
  match x with Some v => Some v | None => y tt end.

(** The iterations of a quantifier whose body is matched by [body]: at most
    [n] of them, each consuming at least one code unit. *)
Fixpoint starLoop {A}
    (body : jsstring -> Captures -> (jsstring -> Captures -> option A) -> option A)
    (greedy : bool) (k : jsstring -> Captures -> option A)
    (n : nat) (s : jsstring) (cap : Captures) : option A :=
  match n with
  | O => k s cap
  | S n' =>
      let more := fun _ : unit =>
        body s cap (fun s1 c1 =>
          if (length s1 <? length s)%nat then starLoop body greedy k n' s1 c1
          else None) in
      if greedy then orElse (more tt) (fun _ => k s cap)
      else orElse (k s cap) more
  end.

Fixpoint rmatch {A} (r : regex) (s : jsstring) (cap : Captures)
    (k : jsstring -> Captures -> option A) : option A :=
  match r with
  | RSet p =>
      match s with
      | c :: s' => if p c then k s' cap else None
      | [] => None
      end
  | REmpty => k s cap
  | RCat r1 r2 => rmatch r1 s cap (fun s1 c1 => rmatch r2 s1 c1 k)
  | RAlt r1 r2 => orElse (rmatch r1 s cap k) (fun _ => rmatch r2 s cap k)
  | RStar g r1 => starLoop (rmatch r1) g k (length s) s cap
  | RGroup i r1 =>
      rmatch r1 s cap (fun s1 c1 =>
        k s1 (<[i := take (length s - length s1) s]> c1))
  | REnd => match s with [] => k s cap | _ :: _ => None end
  end.

Definition RPlus (g : bool) (r : regex) : regex := RCat r (RStar g r).
Definition ROpt (r : regex) : regex := RAlt r REmpty.

Fixpoint RLit (t : jsstring) : regex :=
  match t with
  | [] => REmpty
  | c :: t' => RCat (RSet (Z.eqb c)) (RLit t')
  end.

(** A literal under the [i] flag, for ASCII letters (the only ones the
    sources write under that flag that have a case). *)
Definition eqb_ci (c d : Z) : bool :=
  let up x := if ((97 <=? x) && (x <=? 122))%Z then (x - 32)%Z else x in
  (up c =? up d)%Z.

Fixpoint RLit_ci (t : jsstring) : regex :=
  match t with
  | [] => REmpty
  | c :: t' => RCat (RSet (eqb_ci c)) (RLit_ci t')
  end.

Definition isDigit (c : Z) : bool := ((48 <=? c) && (c <=? 57))%Z.
Definition isLineTerminator (c : Z) : bool :=
  ((c =? 10) || (c =? 13) || (c =? 8232) || (c =? 8233))%Z.
Definition RDigit : regex := RSet isDigit.
Definition RSpace : regex := RSet isWhiteSpace.
Definition RDot : regex := RSet (fun c => negb (isLineTerminator c)).
Definition RNot (cs : jsstring) : regex :=
  RSet (fun c => negb (existsb (Z.eqb c) cs)).
Definition ROneOf (cs : jsstring) : regex := RSet (fun c => existsb (Z.eqb c) cs).

(** A match attempt at the start of [s]: the rest after the match and the
    captured groups. *)
Definition matchEnd (rest : jsstring) (cap : Captures)
  : option (jsstring * Captures) := Some (rest, cap).

Definition rexec (r : regex) (s : jsstring) : option (jsstring * Captures) :=
  rmatch r s ∅ matchEnd.

(** [s.match(r)] for a regex without the [g] flag and without [^]: the
    first position at which [r] matches, as (text before, rest after,
    groups). *)
Fixpoint rsearch (r : regex) (pre s : jsstring)
  : option (jsstring * jsstring * Captures) :=
  match rexec r s with
  | Some (rest, cap) => Some (rev pre, rest, cap)
  | None => match s with
            | [] => None
            | c :: s' => rsearch r (c :: pre) s'
            end
  end.

(** [s.replace(r, repl)] for [r] with the [g] flag; [repl] receives the
    groups (the replacement strings of the sources are ["$1"] and
    constants). *)
Fixpoint replace_g (fuel : nat) (r : regex) (repl : Captures -> jsstring)
    (s : jsstring) : jsstring :=
  match fuel with
  | O => s
  | S fuel' =>
    match rexec r s with
    | Some (rest, cap) =>
        if (length rest <? length s)%nat
        then repl cap ++ replace_g fuel' r repl rest
        else match s with
             | [] => repl cap
             | c :: s' => repl cap ++ c :: replace_g fuel' r repl s'
             end
    | None => match s with
              | [] => []
              | c :: s' => c :: replace_g fuel' r repl s'
              end
    end
  end.

Definition replaceAll (r : regex) (repl : Captures -> jsstring)
    (s : jsstring) : jsstring :=
  replace_g (S (length s)) r repl s.

(** [s.replace(r, "")] for [r] without the [g] flag: the first match only. *)
Definition replaceFirst_empty (r : regex) (s : jsstring) : jsstring :=
  match rsearch r [] s with
  | Some (pre, rest, _) => pre ++ rest
  | None => s
  end.

Definition group (i : nat) (cap : Captures) : jsstring := default [] (cap !! i).
Definition group1 : Captures -> jsstring := group 1.

Definition RSeq (rs : list regex) : regex := fold_right RCat REmpty rs.
Definition RAlts (rs : list regex) : regex :=
  match rs with
  | [] => RSet (fun _ => false)
  | r :: rs' => fold_left RAlt rs' r
  end.

(** ** packages/core/src/utils/searchQuery.ts *)

(** [s.replace(/\s+/g, " ").trim()], after the guard [!s]. *)
Definition normalizeWhitespace (s : jsstring) : jsstring :=
  match s with
  | [] => []
  | _ => trim (replaceAll (RPlus true RSpace) (fun _ => js " ") s)
  end.

Definition promoTokens : list jsstring :=
  map js [ "더블"; "기획"; "증정"; "세트"; "세트구성"; "구성"; "1+1"; "2+1";
           "대용량"; "리필"; "본품"; "한정"; "특가"; "할인"; "사은품"; "선물";
           "mini"; "미니"; "기획세트" ]%string.

(** [(?:ml|g|매|개|장)] under the [i] flag. *)
Definition unitRe : regex :=
  RAlts (map (fun t => RLit_ci (js t)) ["ml"; "g"; "매"; "개"; "장"]%string).

(** [(\d+\s*(?:ml|g|매|개|장))] *)
Definition sizeGroupRe : regex :=
  RGroup 1 (RSeq [RPlus true RDigit; RStar true RSpace; unitRe]).

(** [/(\d+\s*(?:ml|g|매|개|장))\s*\+\s*\d+\s*(?:ml|g|매|개|장)/gi] *)
Definition volumePlusRe : regex :=
  RSeq [sizeGroupRe; RStar true RSpace; RLit (js "+"); RStar true RSpace;
        RPlus true RDigit; RStar true RSpace; unitRe].

(** [/(\d+\s*(?:ml|g|매|개|장))\s*[x*×]\s*\d+/gi] *)
Definition volumeTimesRe : regex :=
  RSeq [sizeGroupRe; RStar true RSpace;
        RSet (fun c => existsb (eqb_ci c) (js "x*×"));
        RStar true RSpace; RPlus true RDigit].

(** [/[\[\(]([^\])]+)[\]\)]\s*$/] *)
Definition bracketPattern : regex :=
  RSeq [ROneOf (js "[("); RGroup 1 (RPlus true (RNot (js "])")));
        ROneOf (js "])"); RStar true RSpace; REnd].

(** The loop over [promoTokens] that keeps the smallest [indexOf]. *)
Definition earliestPromoIndex (result : jsstring) : Z :=
  fold_left (fun earliestIndex token =>
               let index := indexOf result token in
               if (negb (index =? -1) && (index <? earliestIndex))%Z
               then index else earliestIndex)
            promoTokens (Z.of_nat (length result)).

Section CaseMapping.

(** [String.prototype.toLowerCase], a primitive of the platform (the
    Unicode case tables). *)
Variable toLowerCase : jsstring -> jsstring.

Definition shortenKoreanProductTitle (title : jsstring) : jsstring :=
  match title with
  | [] => []
  | _ =>
    let result := trim title in
    match result with
    | [] => []
    | _ =>
      let result := replaceAll volumePlusRe group1 result in
      let result := replaceAll volumeTimesRe group1 result in
      let earliestIndex := earliestPromoIndex result in
      let result :=
        if (earliestIndex <? Z.of_nat (length result))%Z
        then trim (substring0 result earliestIndex) else result in
      let result :=
        match rsearch bracketPattern [] result with
        | Some (_, _, cap) =>
            let bracketContent := toLowerCase (group1 cap) in
            let hasPromoKeyword :=
              existsb (fun token => includes bracketContent (toLowerCase token))
                      promoTokens in
            if hasPromoKeyword
            then trim (replaceFirst_empty bracketPattern result) else result
        | None => result
        end in
      normalizeWhitespace result
    end
  end.

(** The guard [brand && typeof brand === "string" && brand.trim()]. *)
Definition usableBrand (brand : option jsstring) : option jsstring :=
  match brand with
  | Some b => match trim b with [] => None | bt => Some bt end
  | None => None
  end.

Definition buildImageSearchQuery (title : jsstring) (brand : option jsstring)
  : jsstring :=
  match title with
  | [] => []
  | _ =>
    let shortTitle := shortenKoreanProductTitle title in
    match shortTitle with
    | [] => []
    | _ =>
      match usableBrand brand with
      | Some brandTrimmed =>
          if startsWith (toLowerCase shortTitle) (toLowerCase brandTrimmed)
          then normalizeWhitespace shortTitle
          else normalizeWhitespace (brandTrimmed ++ js " " ++ shortTitle)
      | None => shortTitle
      end
    end
  end.

(** ** apps/api/src/services/titleCleanerAI.ts *)

Definition buildFallbackQuery (title : jsstring) (brand : option jsstring)
  : jsstring :=
  match title with
  | [] => []
  | _ =>
    let trimmedTitle := normalizeWhitespace title in
    match trimmedTitle with
    | [] => []
    | _ =>
      match usableBrand brand with
      | Some brandTrimmed =>
          if startsWith (toLowerCase trimmedTitle) (toLowerCase brandTrimmed)
          then trimmedTitle
          else normalizeWhitespace (brandTrimmed ++ js " " ++ trimmedTitle)
      | None => trimmedTitle
      end
    end
  end.

Inductive CleanMethod : Type := MethodAi | MethodFallback.

Record CleanResult : Type := mkCleanResult {
  cr_query : jsstring;
  cr_method : CleanMethod;
  cr_rawTitle : jsstring
}.

Record CleanerConfig : Type := mkCleanerConfig {
  aiTitleCleaningEnabled : bool;
  geminiApiKeySet : bool;
  aiTitleCleaningCacheMax : Z
}.

(** What the guarded Gemini call produced: the [query] field of the JSON
    it answered, or a failure of any kind (time-out, HTTP error after the
    retries, empty or unparsable payload, missing field). *)
Inductive AiOutcome : Type :=
| AiAnswered (query : jsstring)
| AiFailed.

(** The module-level [Map]: insertion-ordered, so an association list. *)
Definition QueryCache : Type := list (jsstring * CleanResult).

Definition getCacheKey (title : jsstring) (brand store : option jsstring)
  : jsstring :=
  default [] store ++ js "::" ++ default [] brand ++ js "::" ++ title.

Fixpoint cache_get (cache : QueryCache) (key : jsstring) : option CleanResult :=
  match cache with
  | [] => None
  | (k, v) :: rest => if jsstring_eqb k key then Some v else cache_get rest key
  end.

Fixpoint cache_update (cache : QueryCache) (key : jsstring) (v : CleanResult)
  : option QueryCache :=
  match cache with
  | [] => None
  | (k, v0) :: rest =>
      if jsstring_eqb k key then Some ((k, v) :: rest)
      else option_map (cons (k, v0)) (cache_update rest key v)
  end.

(** [cache.set(key, v)]: in place for a key already there, at the end
    otherwise. *)
Definition cache_set (cache : QueryCache) (key : jsstring) (v : CleanResult)
  : QueryCache :=
  match cache_update cache key v with
  | Some c => c
  | None => cache ++ [(key, v)]
  end.

(** The eviction before each [cache.set]: drop the oldest key once the
    size has reached the maximum (an empty first key is falsy and stays). *)
Definition cache_evict (max : Z) (cache : QueryCache) : QueryCache :=
  if (Z.of_nat (length cache) >=? max)%Z
  then match cache with
       | (k, _) :: rest => match k with [] => cache | _ => rest end
       | [] => cache
       end
  else cache.

Definition cleanImageSearchQuery (cfg : CleanerConfig) (cache : QueryCache)
    (ai : AiOutcome) (title : jsstring) (brand store : option jsstring)
  : CleanResult * QueryCache :=
  if negb (aiTitleCleaningEnabled cfg) || negb (geminiApiKeySet cfg)
  then (mkCleanResult (buildFallbackQuery title brand) MethodFallback title, cache)
  else match trim title with
  | [] => (mkCleanResult [] MethodFallback title, cache)
  | _ =>
    let cacheKey := getCacheKey title brand store in
    match cache_get cache cacheKey with
    | Some cached => (cached, cache)
    | None =>
      let fallback _ :=
        let result :=
          mkCleanResult (buildFallbackQuery title brand) MethodFallback title in
        (result, cache_set (cache_evict (aiTitleCleaningCacheMax cfg) cache)
                           cacheKey result) in
      match ai with
      | AiFailed => fallback tt
      | AiAnswered q =>
        match normalizeWhitespace q with
        | [] => fallback tt
        | cleanedQuery =>
          let result := mkCleanResult cleanedQuery MethodAi title in
          (result, cache_set (cache_evict (aiTitleCleaningCacheMax cfg) cache)
                             cacheKey result)
        end
      end
    end
  end.

End CaseMapping.

(** On strings whose letters with a case are all ASCII (Hangul has none),
    [toLowerCase] is this function. *)
Definition asciiLower (s : jsstring) : jsstring :=
  map (fun c => if ((65 <=? c) && (c <=? 90))%Z then (c + 32)%Z else c) s.

Definition promoTitle : jsstring := js "브랜드 [증정] 제품명 30ml 기획".

(** ** apps/api/src/utils/withRetry.ts *)

Abbreviation Headers := (gmap string jsstring).

Record Response : Type := mkResponse {
  resp_status : option Z;
  resp_headers : option Headers
}.

(** The shapes of a thrown value that [getStatus] and [getHeaders] look at:
    [err.response.status], [err.status], [err.response.headers],
    [err.headers]. *)
Record Err : Type := mkErr {
  err_response : option Response;
  err_status : option Z;
  err_headers : option Headers
}.

Record RetryOptions : Type := mkRetryOptions {
  retryMax : Z;
  backoffMinMs : Z;
  backoffMaxMs : Z
}.

(** [a ?? b] *)
Definition nullish {A} (a b : option A) : option A :=
  match a with Some x => Some x | None => b end.

Definition getStatus (err : Err) : option Z :=
  nullish (err_response err ≫= resp_status) (err_status err).

Definition getHeaders (err : Err) : option Headers :=
  nullish (err_response err ≫= resp_headers) (err_headers err).

Definition isRetryable (err : Err) : bool :=
  match getStatus err with
  | None => true
  | Some status =>
      if (status =? 429)%Z then true
      else if ((status >=? 500) && (status <=? 599))%Z then true
      else if ((status >=? 400) && (status <=? 499))%Z then false
      else false
  end.

(** [Math.floor] and the numbers of [backoffMs], over the rationals. *)
Definition backoffBase (attempt minMs maxMs : Z) : Q :=
  let exp := (inject_Z minMs * Qpower 2 (attempt - 1))%Q in
  Qmin (inject_Z maxMs) (Qmax (inject_Z minMs) exp).

(** [random] is the value [Math.random()] returned, in [0, 1). *)
Definition backoffMs (random : Q) (attempt minMs maxMs : Z) : Z :=
  let base := backoffBase attempt minMs maxMs in
  let jitter := (random * base * (2 # 10))%Q in
  let wait := (base + jitter)%Q in
  Z.max minMs (Z.min maxMs (Qfloor wait)).

Inductive Outcome (T : Type) : Type :=
| Returned (v : T)
| Threw (e : option Err).   (* [None]: the value [undefined] *)
Arguments Returned {T} v.
Arguments Threw {T} e.

Inductive LogLine : Type :=
| LogRetry (attempt : Z) (status : option Z) (waitMs : Q)
| LogFinalFail (attempt : Z) (status : option Z).

Record RetryRun (T : Type) : Type := mkRetryRun {
  outcome : Outcome T;
  attempts : nat;          (* calls of [fn] *)
  waits : list Q;          (* arguments of [sleep], in order *)
  logs : list LogLine
}.
Arguments mkRetryRun {T}.
Arguments outcome {T}.
Arguments attempts {T}.
Arguments waits {T}.
Arguments logs {T}.

Section WithRetry.

(** Primitives of the platform: [Number(s)] ([None] when the result is
    not finite), [Date.parse(s)] in milliseconds ([None] for [NaN]),
    and what [Date.now()] and [Math.random()] return when read during
    attempt [n]. *)
Variable Number : jsstring -> option Q.
Variable DateParse : jsstring -> option Z.
Variable now : Z -> Z.
Variable random : Z -> Q.

(** The two readings of a non-empty header value: seconds, then an HTTP
    date.  [nowMs] is the value of [Date.now()] inside the call. *)
Definition retryAfterValueMs (nowMs : Z) (ra : jsstring) : option Q :=
  let fromDate :=
    match DateParse ra with
    | Some dateMs =>
        let diff := (dateMs - nowMs)%Z in
        if (diff >? 0)%Z then Some (inject_Z diff) else None
    | None => None
    end in
  match Number ra with
  | Some seconds =>
      if Qle_bool 0 seconds then Some (seconds * 1000)%Q else fromDate
  | None => fromDate
  end.

Definition parseRetryAfterMs (nowMs : Z) (headers : option Headers) : option Q :=
  match headers with
  | None => None
  | Some h =>
    match nullish (h !! "retry-after"%string) (h !! "Retry-After"%string) with
    | None => None
    | Some [] => None
    | Some ra => retryAfterValueMs nowMs ra
    end
  end.

Context {T : Type}.
Variable fn : Z -> T + Err.
Variable opts : RetryOptions.

(** The wait chosen after the failure [err] of attempt [attempt]:
    [raMs ?? backoffMs(attempt, backoffMinMs, backoffMaxMs)]. *)
Definition waitAfter (attempt : Z) (err : Err) : Q :=
  let headers := getHeaders err in
  let raMs := parseRetryAfterMs (now attempt) headers in
  match raMs with
  | Some ms => ms
  | None => inject_Z (backoffMs (random attempt) attempt
                                (backoffMinMs opts) (backoffMaxMs opts))
  end.

(** The [for] loop from [attempt] on; one unit of [fuel] per iteration. *)
Fixpoint retryLoop (fuel : nat) (attempt : Z) (lastErr : option Err)
  : RetryRun T :=
  match fuel with
  | O => mkRetryRun (Threw lastErr) 0 [] []
  | S fuel' =>
    if (attempt <=? retryMax opts)%Z then
      match fn attempt with
      | inl v => mkRetryRun (Returned v) 1 [] []
      | inr err =>
        let status := getStatus err in
        let retryable := isRetryable err in
        if negb retryable then mkRetryRun (Threw (Some err)) 1 [] []
        else if (attempt >=? retryMax opts)%Z
        then mkRetryRun (Threw (Some err)) 1 [] [LogFinalFail attempt status]
        else
          let waitMs := waitAfter attempt err in
          let rest := retryLoop fuel' (attempt + 1)%Z (Some err) in
          mkRetryRun (outcome rest) (S (attempts rest)) (waitMs :: waits rest)
                     (LogRetry attempt status waitMs :: logs rest)
      end
    else mkRetryRun (Threw lastErr) 0 [] []
  end.

Definition withRetry : RetryRun T :=
  retryLoop (S (Z.to_nat (retryMax opts))) 1%Z None.

End WithRetry.

(** ** apps/api/src/utils/limitConcurrency.ts *)

(** [cap = Math.max(1, Math.floor(concurrency || 1))], for a [concurrency]
    that is a number (the configuration parses it as an integer): zero is
    falsy. *)
Definition limiterCap (concurrency : Q) : Z :=
  Z.max 1 (Qfloor (if Qeq_bool concurrency 0 then 1 else concurrency)).

(** The closure state of one limiter: the counter [active] and the queue of
    pending [run] thunks, each named by the task it starts.  Two ghost
    fields record what the thunks did: the tasks whose promise is pending
    ([running]) and the order in which tasks were started ([started]). *)
Record Limiter : Type := mkLimiter {
  active : Z;
  queue : list nat;
  running : list nat;
  started : list nat
}.

Definition newLimiter : Limiter := mkLimiter 0 [] [] [].

(** [createLimiter(concurrency)]: the cap and the fresh closure state that
    the returned [limit] works on. *)
Definition createLimiter (concurrency : Q) : Z * Limiter :=
  (limiterCap concurrency, newLimiter).

(** [run()]: [active++; task()...] *)
Definition runTask (st : Limiter) (id : nat) : Limiter :=
  mkLimiter (active st + 1) (queue st) (running st ++ [id]) (started st ++ [id]).

Definition next (cap : Z) (st : Limiter) : Limiter :=
  if (active st >=? cap)%Z then st
  else match queue st with
       | [] => st
       | run :: rest =>
           runTask (mkLimiter (active st) rest (running st) (started st)) run
       end.

(** [limit(task)]: [queue.push(run); next()] *)
Definition limit (cap : Z) (st : Limiter) (id : nat) : Limiter :=
  next cap (mkLimiter (active st) (queue st ++ [id]) (running st) (started st)).

Fixpoint remove_first (id : nat) (l : list nat) : list nat :=
  match l with
  | [] => []
  | x :: l' => if (x =? id)%nat then l' else x :: remove_first id l'
  end.

(** The [finally] callback of task [id]: [active--; next()] *)
Definition settle (cap : Z) (st : Limiter) (id : nat) : Limiter :=
  next cap (mkLimiter (active st - 1) (queue st)
                      (remove_first id (running st)) (started st)).

(** What can happen to a limiter: a caller submits a task, or the promise
    of a task settles (fulfilled or rejected alike). *)
Inductive LimiterEvent : Type :=
| Submit (id : nat)
| Settle (id : nat).

(** Only a task that is running can settle; any other [Settle] is not an
    event of the program and leaves the state alone. *)
Definition limiterStep (cap : Z) (st : Limiter) (ev : LimiterEvent) : Limiter :=
  match ev with
  | Submit id => limit cap st id
  | Settle id =>
      if existsb (Nat.eqb id) (running st) then settle cap st id else st
  end.

Definition limiterRun (cap : Z) (evs : list LimiterEvent) : Limiter :=
  fold_left (limiterStep cap) evs newLimiter.

(** The largest number of tasks running together along a run. *)
Fixpoint peakFrom (cap : Z) (st : Limiter) (evs : list LimiterEvent) : nat :=
  match evs with
  | [] => length (running st)
  | ev :: evs' =>
      Nat.max (length (running st)) (peakFrom cap (limiterStep cap st ev) evs')
  end.

Definition peakConcurrency (concurrency : Q) (evs : list LimiterEvent) : nat :=
  let '(cap, st) := createLimiter concurrency in peakFrom cap st evs.

Definition submissions (evs : list LimiterEvent) : list nat :=
  omap (fun ev => match ev with Submit id => Some id | Settle _ => None end) evs.

(** ** apps/api/src/utils/ssrfProtection.ts *)

Fixpoint digitsValue (acc : Z) (s : jsstring) : Z :=
  match s with
  | [] => acc
  | c :: s' => digitsValue (acc * 10 + (c - 48))%Z s'
  end.

(** [\d{1,3}] *)
Definition digits1to3 : regex :=
  RCat RDigit (ROpt (RCat RDigit (ROpt RDigit))).

(** [/^(\d{1,3})\.(\d{1,3})\.(\d{1,3})\.(\d{1,3})$/] *)
Definition ipRegex : regex :=
  RSeq [RGroup 1 digits1to3; RLit (js "."); RGroup 2 digits1to3; RLit (js ".");
        RGroup 3 digits1to3; RLit (js "."); RGroup 4 digits1to3; REnd].

Record URL : Type := mkURL {
  protocol : jsstring;
  hostname : jsstring
}.

Section Ssrf.

Variable toLowerCase : jsstring -> jsstring.
(** [new URL(url)], [None] when it throws. *)
Variable parseURL : jsstring -> option URL.

Definition isPrivateIP (host : jsstring) : bool :=
  match host with
  | [] => true
  | _ =>
    let hostname := toLowerCase (split_first 58 host) in
    if jsstring_eqb hostname (js "localhost")
       || jsstring_eqb hostname (js "127.0.0.1")
       || jsstring_eqb hostname (js "::1")
       || jsstring_eqb hostname (js "0.0.0.0")
    then true
    else if jsstring_eqb hostname (js "169.254.169.254") then true
    else match rexec ipRegex hostname with
    | None => false
    | Some (_, m) =>
      let parts := map (fun i => digitsValue 0 (group i m)) [1; 2; 3; 4] in
      let part i := nth i parts 0%Z in
      if existsb (fun p => (p >? 255)%Z) parts then true
      else if (part 0%nat =? 10)%Z then true
      else if ((part 0%nat =? 172) && (part 1%nat >=? 16) && (part 1%nat <=? 31))%Z then true
      else if ((part 0%nat =? 192) && (part 1%nat =? 168))%Z then true
      else if ((part 0%nat =? 169) && (part 1%nat =? 254))%Z then true
      else false
    end
  end.

Definition isUrlSafe (url : jsstring) : bool :=
  match parseURL url with
  | None => false
  | Some parsed =>
    if negb (jsstring_eqb (protocol parsed) (js "http:"))
       && negb (jsstring_eqb (protocol parsed) (js "https:"))
    then false
    else if isPrivateIP (hostname parsed) then false
    else true
  end.

End Ssrf.

(** ** packages/core/src/utils/normalizeUrl.ts *)

Definition isHttpUrl (s : jsstring) : bool :=
  startsWith s (js "http://") || startsWith s (js "https://").

Definition normalizeHttpUrl (input : jsstring) : option jsstring :=
  match input with
  | [] => None
  | _ =>
    let s := trim input in
    match s with
    | [] => None
    | _ =>
      if startsWith s (js "//") then Some (js "https:" ++ s)
      else if isHttpUrl s then Some s
      else None
    end
  end.

Definition endsWith (s p : jsstring) : bool := startsWith (rev s) (rev p).

Definition normalizeHttpUrlWithBase (input : jsstring) (baseUrl : jsstring)
  : option jsstring :=
  match input with
  | [] => None
  | _ =>
    let s := trim input in
    match s with
    | [] => None
    | _ =>
      if startsWith s (js "//") then Some (js "https:" ++ s)
      else if isHttpUrl s then Some s
      else if startsWith s (js "/") && negb (jsstring_eqb baseUrl [])
      then Some ((if endsWith baseUrl (js "/")
                  then take (length baseUrl - 1) baseUrl else baseUrl) ++ s)
      else match baseUrl with
           | [] => None
           | _ => Some ((if endsWith baseUrl (js "/")
                         then baseUrl else baseUrl ++ js "/") ++ s)
           end
    end
  end.

(** [https?:\/\/[^)]+] *)
Definition httpUrlRe : regex :=
  RSeq [RLit (js "http"); ROpt (RLit (js "s")); RLit (js "://");
        RPlus true (RNot (js ")"))].

(** [/^\[.*?\]\((https?:\/\/[^)]+)\)$/] *)
Definition standardMarkdownRe : regex :=
  RSeq [RLit (js "["); RStar false RDot; RLit (js "]("); RGroup 1 httpUrlRe;
        RLit (js ")"); REnd].

(** [/^\((https?:\/\/[^)]+)\)$/] *)
Definition parenMarkdownRe : regex :=
  RSeq [RLit (js "("); RGroup 1 httpUrlRe; RLit (js ")"); REnd].

(** [/^\[.*?\]\(([^)]+)\)$/] *)
Definition noHttpMarkdownRe : regex :=
  RSeq [RLit (js "["); RStar false RDot; RLit (js "](");
        RGroup 1 (RPlus true (RNot (js ")"))); RLit (js ")"); REnd].

Definition extractUrlFromMarkdown (markdownLink : jsstring) : jsstring :=
  match markdownLink with
  | [] => []
  | _ =>
    let trimmed := trim markdownLink in
    match rexec standardMarkdownRe trimmed with
    | Some (_, m) => group1 m
    | None =>
      match rexec parenMarkdownRe trimmed with
      | Some (_, m) => group1 m
      | None =>
        match rexec noHttpMarkdownRe trimmed with
        | Some (_, m) =>
            let url := group1 m in
            if startsWith url (js "//") || startsWith url (js "/")
               || includes url (js ".")
            then url else trimmed
        | None => trimmed
        end
      end
    end
  end.

(** Insertion into a [Set<string>], which keeps the first occurrence. *)
Fixpoint set_add_all (seen : list jsstring) (l : list jsstring) : list jsstring :=
  match l with
  | [] => seen
  | u :: l' =>
      set_add_all (if existsb (jsstring_eqb u) seen then seen else seen ++ [u]) l'
  end.

(** [Array.from(new Set(l))] *)
Definition arrayFromSet (l : list jsstring) : list jsstring := set_add_all [] l.

Definition dedupeUrls (urls : list jsstring) : list jsstring :=
  arrayFromSet
    (omap (fun u => match u with
                    | [] => None
                    | _ => match trim u with [] => None | t => Some t end
                    end) urls).

Definition normalizeOneImageUrl (baseUrl : option jsstring) (url : jsstring)
  : option jsstring :=
  match url with
  | [] => None
  | _ =>
    let processed := trim url in
    match processed with
    | [] => None
    | _ =>
      let processed := extractUrlFromMarkdown processed in
      let processed :=
        if startsWith processed (js "//") then js "https:" ++ processed
        else processed in
      let normalizedUrl :=
        match baseUrl with
        | Some ((_ :: _) as b) => normalizeHttpUrlWithBase processed b
        | _ => normalizeHttpUrl processed
        end in
      match normalizedUrl with
      | Some ((_ :: _) as n) => if isHttpUrl n then Some n else None
      | _ => None
      end
    end
  end.

Definition normalizeImageUrls (urls : list jsstring) (baseUrl : option jsstring)
    (maxUrls : nat) : list jsstring :=
  take maxUrls (dedupeUrls (omap (normalizeOneImageUrl baseUrl) urls)).

(** ** apps/api/src/services/imageDownloader.ts *)

(** What the network answers.  A [HEAD] either yields headers (the
    [content-type], and the [content-length] as [parseInt] reads it, absent
    when missing or not a number) or fails with an optional status; a [GET]
    yields a [content-type] and a body that the resize-and-write pipeline
    either finishes or rejects, or fails. *)
Inductive HeadResult : Type :=
| HeadOk (contentType : jsstring) (contentLength : option Z)
| HeadFailed (status : option Z).

Inductive GetResult : Type :=
| GetOk (contentType : jsstring) (pipelineFinishes : bool)
| GetFailed.

Record Network : Type := mkNetwork {
  net_head : jsstring -> HeadResult;
  net_get : jsstring -> GetResult
}.

Inductive Request : Type :=
| ReqHead (url : jsstring)
| ReqGet (url : jsstring).

Inductive DownloadError : Type :=
| InvalidImageUrl
| NotAnImage
| ImageTooLarge
| RequestFailed
| PipelineFailed.

Record Download : Type := mkDownload {
  dl_result : DownloadError + jsstring;   (* thrown, or the public URL *)
  dl_requests : list Request              (* requests sent, in order *)
}.

Record DownloaderConfig : Type := mkDownloaderConfig {
  imageMaxBytes : Z;
  publicImageBaseUrl : jsstring
}.

Definition decimal (n : Z) : jsstring := js (pretty n).

Definition downloadImage (cfg : DownloaderConfig) (net : Network)
    (imageUrl productId : jsstring) (index : Z) : Download :=
  if negb (isHttpUrl imageUrl) then mkDownload (inl InvalidImageUrl) []
  else
    let afterHead (reqs : list Request) : Download :=
      match net_get net imageUrl with
      | GetFailed => mkDownload (inl RequestFailed) (reqs ++ [ReqGet imageUrl])
      | GetOk contentType finishes =>
        if negb (startsWith contentType (js "image/"))
        then mkDownload (inl NotAnImage) (reqs ++ [ReqGet imageUrl])
        else if negb finishes
        then mkDownload (inl PipelineFailed) (reqs ++ [ReqGet imageUrl])
        else
          let filename := decimal index ++ js ".jpg" in
          mkDownload (inr (publicImageBaseUrl cfg ++ js "/" ++ productId
                           ++ js "/" ++ filename))
                     (reqs ++ [ReqGet imageUrl])
      end in
    match net_head net imageUrl with
    | HeadOk contentType contentLength =>
      if negb (startsWith contentType (js "image/"))
      then mkDownload (inl NotAnImage) [ReqHead imageUrl]
      else match contentLength with
           | Some n =>
               if (n >? imageMaxBytes cfg)%Z
               then mkDownload (inl ImageTooLarge) [ReqHead imageUrl]
               else afterHead [ReqHead imageUrl]
           | None => afterHead [ReqHead imageUrl]
           end
    | HeadFailed status =>
      match status with
      | Some 405%Z => afterHead [ReqHead imageUrl]
      | _ => mkDownload (inl RequestFailed) [ReqHead imageUrl]
      end
    end.

(** ** apps/api/src/services/imageEnrichmentService.ts

    The store is taken to answer: the outer [try]/[catch], which turns a
    failing [findById] or [save] into an error result, is not entered. *)

Record Product : Type := mkProduct {
  p_title : jsstring;
  p_imagesOriginal : list jsstring;
  p_imagesProcessed : list jsstring;
  p_notes : jsstring                     (* [""] for a missing note *)
}.

Record EnrichResult : Type := mkEnrichResult {
  er_success : bool;
  er_downloaded : nat;
  er_finalCount : nat;
  er_skipped : bool;
  er_error : option jsstring
}.

(** The collaborators of one call: the product [findById] answers, the
    query [cleanImageSearchQuery] answers for it, the image search (by
    [start], [None] when it throws) and the network. *)
Record EnrichEnv : Type := mkEnrichEnv {
  env_product : option Product;
  env_query : jsstring;
  env_searchImages : Z -> option (list jsstring);
  env_net : Network;
  env_cfg : DownloaderConfig
}.

Definition candidatesPerPage : nat := 10.
Definition maxCandidates : nat := 30.
(** [Math.ceil(maxCandidates / candidatesPerPage)] *)
Definition maxPages : nat :=
  (maxCandidates + candidatesPerPage - 1) / candidatesPerPage.

(** The page loop from [page] on, [pages] iterations left. *)
Fixpoint fetchCandidatePages (search : Z -> option (list jsstring))
    (pages : nat) (page : Z) (allCandidateUrls : list jsstring)
  : list jsstring :=
  match pages with
  | O => allCandidateUrls
  | S pages' =>
    let start := (page * Z.of_nat candidatesPerPage + 1)%Z in
    match search start with
    | Some pageResults =>
        let all := allCandidateUrls ++ pageResults in
        if (length pageResults <? candidatesPerPage)%nat then all
        else fetchCandidatePages search pages' (page + 1)%Z all
    | None => allCandidateUrls
    end
  end.

(** The state of the download loop: the two arrays, the counter, and what
    the loop did to the outside (files written by index, requests sent). *)
Record DownloadLoop : Type := mkDownloadLoop {
  downloadedUrls : list jsstring;
  errors : list DownloadError;
  attemptIndex : nat;
  storedIndices : list Z;
  requestsSent : list Request
}.

Fixpoint downloadCandidates (cfg : DownloaderConfig) (net : Network)
    (productId : jsstring) (currentProcessedCount : nat) (needed : Z)
    (newUrls : list jsstring) (st : DownloadLoop) : DownloadLoop :=
  match newUrls with
  | [] => st
  | url :: rest =>
    if (Z.of_nat (length (downloadedUrls st)) >=? needed)%Z then st
    else
      let fileIndex :=
        Z.of_nat (currentProcessedCount + length (downloadedUrls st)) in
      let d := downloadImage cfg net url productId fileIndex in
      let st' :=
        match dl_result d with
        | inr localUrl =>
            mkDownloadLoop (downloadedUrls st ++ [localUrl]) (errors st)
                           (S (attemptIndex st))
                           (storedIndices st ++ [fileIndex])
                           (requestsSent st ++ dl_requests d)
        | inl e =>
            mkDownloadLoop (downloadedUrls st) (errors st ++ [e])
                           (S (attemptIndex st)) (storedIndices st)
                           (requestsSent st ++ dl_requests d)
        end in
      downloadCandidates cfg net productId currentProcessedCount needed rest st'
  end.

Record EnrichRun : Type := mkEnrichRun {
  run_result : EnrichResult;
  run_saved : option Product;      (* the product as [save()] wrote it *)
  run_loop : DownloadLoop
}.

Definition emptyLoop : DownloadLoop := mkDownloadLoop [] [] 0 [] [].

Definition enrichProductImages (env : EnrichEnv) (productId : jsstring)
    (desiredCount : Z) (force : bool) : EnrichRun :=
  match env_product env with
  | None =>
      mkEnrichRun (mkEnrichResult false 0 0 false (Some (js "Product not found")))
                  None emptyLoop
  | Some product =>
    let existingImages := p_imagesProcessed product ++ p_imagesOriginal product in
    let normalizedExisting := normalizeImageUrls existingImages None 10 in
    let totalExistingCount := length normalizedExisting in
    if negb force && (Z.of_nat totalExistingCount >=? desiredCount)%Z
    then mkEnrichRun (mkEnrichResult true 0 totalExistingCount true None)
                     None emptyLoop
    else match env_query env with
    | [] =>
        mkEnrichRun
          (mkEnrichResult false 0 totalExistingCount false
             (Some (js "No search query available (missing title)")))
          None emptyLoop
    | _ =>
      let allCandidateUrls :=
        fetchCandidatePages (env_searchImages env) maxPages 0 [] in
      let uniqueCandidates := arrayFromSet allCandidateUrls in
      let newUrls :=
        filter (fun url =>
                  Is_true (isHttpUrl url
                           && negb (existsb (jsstring_eqb url) normalizedExisting)))
               uniqueCandidates in
      let currentProcessedCount := length (p_imagesProcessed product) in
      let needed := Z.max 0 (desiredCount - Z.of_nat totalExistingCount) in
      if (needed =? 0)%Z
      then mkEnrichRun (mkEnrichResult true 0 totalExistingCount false None)
                       None emptyLoop
      else
        let st := downloadCandidates (env_cfg env) (env_net env) productId
                    currentProcessedCount needed newUrls emptyLoop in
        let updatedImagesProcessed :=
          p_imagesProcessed product ++ downloadedUrls st in
        let n := length (downloadedUrls st) in
        let tag := js "images_enriched_local(" ++ decimal (Z.of_nat n) ++ js ")" in
        let notesUpdate :=
          if (0 <? n)%nat
          then match p_notes product with
               | [] => tag
               | existingNotes => existingNotes ++ js "; " ++ tag
               end
          else p_notes product in
        mkEnrichRun
          (mkEnrichResult true n (length updatedImagesProcessed) false None)
          (Some (mkProduct (p_title product) (p_imagesOriginal product)
                           updatedImagesProcessed notesUpdate))
          st
    end
  end.

(** The routes/images.ts [/apply] handler screens its URLs before it calls
    the same downloader. *)
Definition applyRouteSafeUrls (isUrlSafe : jsstring -> bool)
    (urls : list jsstring) : list jsstring :=
  filter (fun url => Is_true (isUrlSafe url)) urls.

(** ** apps/api/src/services/runImportService.ts: the merge step *)

(** Field values of a stored document and of a [$set]. *)
Inductive Value : Type :=
| VStr (s : jsstring)
| VNum (n : Z)
| VList (l : list jsstring)
| VUndefined.

#[global] Instance Value_eq_dec : EqDecision Value.
Proof. solve_decision. Defined.

(** A document of the products collection, and an update object
    ([Record<string, unknown>]): finite maps from field names. *)
Abbreviation Doc := (gmap string Value).

(** The collection, in insertion order; the position of a document stands
    for its [_id]. *)
Abbreviation Collection := (list (gmap string Value)).

Record ProcessedProduct : Type := mkProcessedProduct {
  pp_store : jsstring;
  pp_categoryKey : jsstring;
  pp_sourceUrl : jsstring;
  pp_title : jsstring;
  pp_price : Z;
  pp_currency : jsstring;
  pp_imagesOriginal : list jsstring;
  pp_descriptionOriginal : jsstring;
  pp_langOriginal : jsstring;
  pp_descriptionTranslated : jsstring;
  pp_langTranslated : jsstring;
  pp_imagesProcessed : list jsstring;
  pp_status : jsstring;
  pp_notes : option jsstring;
  pp_titleMn : option jsstring       (* [(p as any).titleMn] *)
}.

(** LOCKABLE_PRODUCT_FIELDS of packages/shared/src/types.ts *)
Definition LOCKABLE_PRODUCT_FIELDS : list string :=
  ["title"; "price"; "descriptionTranslated"; "imagesProcessed"; "status";
   "notes"]%string.

(** The fields the [$set] always carries. *)
Definition alwaysSetFields : list string :=
  ["store"; "categoryKey"; "sourceUrl"; "currency"; "imagesOriginal";
   "descriptionOriginal"; "langOriginal"; "langTranslated"]%string.

(** One [updateOne] of the bulk write, always with [upsert: true]. *)
Record UpdateOne : Type := mkUpdateOne {
  filter_store : jsstring;
  filter_sourceUrl : jsstring;
  op_set : gmap string Value;
  op_setOnInsert : gmap string Value
}.

Record BulkResult : Type := mkBulkResult {
  matchedCount : nat;
  upsertedCount : nat;
  modifiedCount : nat;
  upsertedIds : list nat
}.

Definition docStore (d : Doc) : option Value := d !! "store"%string.
Definition docSourceUrl (d : Doc) : option Value := d !! "sourceUrl"%string.

Definition matchesFilter (store sourceUrl : jsstring) (d : Doc) : bool :=
  bool_decide (docStore d = Some (VStr store))
  && bool_decide (docSourceUrl d = Some (VStr sourceUrl)).

(** The document store, by the documented behaviour of [updateOne] with
    [upsert: true]: the first document the filter matches receives the
    [$set]; when none matches, a document made of the filter's equality
    fields, the [$set] and the [$setOnInsert] is inserted.  (The
    [createdAt]/[updatedAt] stamps Mongoose adds are left out.) *)
Fixpoint updateFirst (store sourceUrl : jsstring) (toSet : gmap string Value)
    (db : Collection) : option (Collection * bool) :=
  match db with
  | [] => None
  | d :: rest =>
      if matchesFilter store sourceUrl d
      then let d' := toSet ∪ d in Some (d' :: rest, negb (bool_decide (d' = d)))
      else match updateFirst store sourceUrl toSet rest with
           | Some (rest', modified) => Some (d :: rest', modified)
           | None => None
           end
  end.

Definition insertedDoc (op : UpdateOne) : Doc :=
  op_set op ∪ op_setOnInsert op
    ∪ {[ "store"%string := VStr (filter_store op);
         "sourceUrl"%string := VStr (filter_sourceUrl op) ]}.

Definition applyUpdateOne (acc : Collection * BulkResult) (op : UpdateOne)
  : Collection * BulkResult :=
  let '(db, r) := acc in
  match updateFirst (filter_store op) (filter_sourceUrl op) (op_set op) db with
  | Some (db', modified) =>
      (db', mkBulkResult (S (matchedCount r)) (upsertedCount r)
                         (if modified then S (modifiedCount r) else modifiedCount r)
                         (upsertedIds r))
  | None =>
      (db ++ [insertedDoc op],
       mkBulkResult (matchedCount r) (S (upsertedCount r)) (modifiedCount r)
                    (upsertedIds r ++ [length db]))
  end.

Definition bulkWrite (ops : list UpdateOne) (db : Collection)
  : Collection * BulkResult :=
  fold_left applyUpdateOne ops (db, mkBulkResult 0 0 0 []).

(** [Product.find({ store, sourceUrl: { $in: sourceUrls } })] *)
Definition findExisting (store : jsstring) (sourceUrls : list jsstring)
    (db : Collection) : Collection :=
  filter (fun d => Is_true
            (bool_decide (docStore d = Some (VStr store))
             && existsb (fun u => bool_decide (docSourceUrl d = Some (VStr u)))
                        sourceUrls)) db.

Definition docLockedFields (d : Doc) : list jsstring :=
  match d !! "lockedFields"%string with
  | Some (VList l) => l
  | _ => []
  end.

Definition docSourceUrlString (d : Doc) : jsstring :=
  match docSourceUrl d with Some (VStr u) => u | _ => [] end.

(** [lockedFieldsMap]: one [Map.set] per existing product, later entries
    replacing earlier ones. *)
Definition buildLockedFieldsMap (existingProducts : Collection)
  : gmap jsstring (list jsstring) :=
  fold_left (fun m prod => <[docSourceUrlString prod := docLockedFields prod]> m)
            existingProducts ∅.

Definition lockedHas (lockedFields : list jsstring) (field : string) : bool :=
  existsb (jsstring_eqb (js field)) lockedFields.

Definition optValue (o : option jsstring) : Value :=
  match o with Some s => VStr s | None => VUndefined end.

Definition setUnlessLocked (lockedFields : list jsstring) (field : string)
    (v : Value) (toSet : gmap string Value) : gmap string Value :=
  if negb (lockedHas lockedFields field) then <[field := v]> toSet else toSet.

(** The body of [processedProducts.map((p) => ...)] that builds one
    operation. *)
Definition buildUpdateOne (lockedFieldsMap : gmap jsstring (list jsstring))
    (p : ProcessedProduct) : UpdateOne :=
  let lockedFields := default [] (lockedFieldsMap !! pp_sourceUrl p) in
  let toSet : gmap string Value :=
    list_to_map
      [ ("store", VStr (pp_store p));
        ("categoryKey", VStr (pp_categoryKey p));
        ("sourceUrl", VStr (pp_sourceUrl p));
        ("currency", VStr (pp_currency p));
        ("imagesOriginal", VList (pp_imagesOriginal p));
        ("descriptionOriginal", VStr (pp_descriptionOriginal p));
        ("langOriginal", VStr (pp_langOriginal p));
        ("langTranslated", VStr (pp_langTranslated p)) ]%string in
  let toSet :=
    match pp_titleMn p with
    | Some ((_ :: _) as t) => <["titleMn"%string := VStr t]> toSet
    | _ => toSet
    end in
  let toSet := setUnlessLocked lockedFields "title" (VStr (pp_title p)) toSet in
  let toSet := setUnlessLocked lockedFields "price" (VNum (pp_price p)) toSet in
  let toSet := setUnlessLocked lockedFields "imagesProcessed"
                 (VList (pp_imagesProcessed p)) toSet in
  let toSet := setUnlessLocked lockedFields "descriptionTranslated"
                 (VStr (pp_descriptionTranslated p)) toSet in
  let toSet := setUnlessLocked lockedFields "status" (VStr (pp_status p)) toSet in
  let toSet := setUnlessLocked lockedFields "notes" (optValue (pp_notes p)) toSet in
  mkUpdateOne (pp_store p) (pp_sourceUrl p) toSet
              {[ "lockedFields"%string := VList [] ]}.

Definition docTitleMnBlank (d : option Doc) : bool :=
  match d with
  | Some d => match d !! "titleMn"%string with
              | Some (VStr t) => bool_decide (trim t = [])
              | _ => true
              end
  | None => true
  end.

(** The auto-translation pass: a product whose stored [titleMn] is missing
    or blank gets the translation when the translator answers. *)
Definition autoTranslate (enabled : bool)
    (translateTitleToMn : ProcessedProduct -> option jsstring)
    (existingProducts : Collection) (p : ProcessedProduct) : ProcessedProduct :=
  if enabled
     && docTitleMnBlank
          (List.find (fun ep => bool_decide (docSourceUrlString ep = pp_sourceUrl p))
                     existingProducts)
  then match translateTitleToMn p with
       | Some t =>
           mkProcessedProduct (pp_store p) (pp_categoryKey p) (pp_sourceUrl p)
             (pp_title p) (pp_price p) (pp_currency p) (pp_imagesOriginal p)
             (pp_descriptionOriginal p) (pp_langOriginal p)
             (pp_descriptionTranslated p) (pp_langTranslated p)
             (pp_imagesProcessed p) (pp_status p) (pp_notes p) (Some t)
       | None => p
       end
  else p.

Record ImportStats : Type := mkImportStats {
  matched : nat;
  inserted : nat;
  updated : nat;
  stats_upsertedIds : list nat
}.

Record MergeConfig : Type := mkMergeConfig {
  params_store : jsstring;                 (* [params.store] *)
  autoTranslateTitleMn : bool;
  translateTitleToMn : ProcessedProduct -> option jsstring
}.

Definition mergeOps (cfg : MergeConfig) (processedProducts : list ProcessedProduct)
    (db : Collection) : list UpdateOne :=
  let sourceUrls := map pp_sourceUrl processedProducts in
  let existingProducts := findExisting (params_store cfg) sourceUrls db in
  let lockedFieldsMap := buildLockedFieldsMap existingProducts in
  let processedProducts :=
    map (autoTranslate (autoTranslateTitleMn cfg) (translateTitleToMn cfg)
                       existingProducts) processedProducts in
  map (buildUpdateOne lockedFieldsMap) processedProducts.

(** From the preload of the existing products to the statistics. *)
Definition mergeImport (cfg : MergeConfig)
    (processedProducts : list ProcessedProduct) (db : Collection)
  : Collection * ImportStats :=
  let bulkOps := mergeOps cfg processedProducts db in
  let '(db', bulkResult) := bulkWrite bulkOps db in
  (db', mkImportStats (matchedCount bulkResult) (upsertedCount bulkResult)
                      (modifiedCount bulkResult) (upsertedIds bulkResult)).

(** The identity of a stored document and of an incoming product. *)
Definition docIdentity (d : Doc) : option Value * option Value :=
  (docStore d, docSourceUrl d).

Definition productIdentity (p : ProcessedProduct) : option Value * option Value :=
  (Some (VStr (pp_store p)), Some (VStr (pp_sourceUrl p))).

(** The incoming value of each field. *)
Definition incomingValue (p : ProcessedProduct) (field : string) : option Value :=
  list_to_map (M := gmap string Value)
    [ ("store", VStr (pp_store p));
      ("categoryKey", VStr (pp_categoryKey p));
      ("sourceUrl", VStr (pp_sourceUrl p));
      ("currency", VStr (pp_currency p));
      ("imagesOriginal", VList (pp_imagesOriginal p));
      ("descriptionOriginal", VStr (pp_descriptionOriginal p));
      ("langOriginal", VStr (pp_langOriginal p));
      ("langTranslated", VStr (pp_langTranslated p));
      ("title", VStr (pp_title p));
      ("price", VNum (pp_price p));
      ("imagesProcessed", VList (pp_imagesProcessed p));
      ("descriptionTranslated", VStr (pp_descriptionTranslated p));
      ("status", VStr (pp_status p));
      ("notes", optValue (pp_notes p)) ]%string !! field.

(** ** Concrete collaborators used to run the program on examples *)

Definition exampleDownloaderConfig : DownloaderConfig :=
  mkDownloaderConfig 5000000 (js "/uploads/products").

(** A network on which every URL is a small JPEG, except those of
    [badUrls], whose [HEAD] answers [text/html]. *)
Definition exampleNetwork (badUrls : list jsstring) : Network :=
  mkNetwork
    (fun url => if existsb (jsstring_eqb url) badUrls
                then HeadOk (js "text/html") None
                else HeadOk (js "image/jpeg") (Some 1000%Z))
    (fun url => GetOk (js "image/jpeg") true).

Definition fourCandidates : list jsstring :=
  map js ["https://cdn.example.com/a.jpg"; "https://cdn.example.com/b.jpg";
          "https://cdn.example.com/c.jpg"; "https://cdn.example.com/d.jpg"]%string.

(** A search that answers the four candidates on its first page. *)
Definition exampleSearch (start : Z) : option (list jsstring) :=
  if (start =? 1)%Z then Some fourCandidates else Some [].

Definition twoOriginals : Product :=
  mkProduct (js "제품명 30ml")
            (map js ["https://shop.example.com/o1.jpg";
                     "https://shop.example.com/o2.jpg"]%string)
            [] [].

Definition twoProcessed : Product :=
  mkProduct (js "제품명 30ml") []
            (map js ["/uploads/products/p1/0.jpg";
                     "/uploads/products/p1/1.jpg"]%string)
            [].

Definition exampleEnv (product : Product) : EnrichEnv :=
  mkEnrichEnv (Some product) (js "제품명 30ml") exampleSearch
              (exampleNetwork [js "https://cdn.example.com/b.jpg"])
              exampleDownloaderConfig.

Definition metadataUrl : jsstring := js "http://169.254.169.254/latest/meta-data/".

Definition metadataSearch (start : Z) : option (list jsstring) :=
  if (start =? 1)%Z then Some [metadataUrl] else Some [].

(** [new URL] on the few URLs of the examples. *)
Definition exampleParseURL (url : jsstring) : option URL :=
  if jsstring_eqb url metadataUrl
  then Some (mkURL (js "http:") (js "169.254.169.254"))
  else if jsstring_eqb url (js "http://[::1]/")
  then Some (mkURL (js "http:") (js "[::1]"))
  else if jsstring_eqb url (js "https://cdn.example.com/a.jpg")
  then Some (mkURL (js "https:") (js "cdn.example.com"))
  else None.


(** The errors of the examples: a rejected request ([400]), and a rate
    limit ([429]) with a [Retry-After] header. *)
Definition err400 : Err := mkErr (Some (mkResponse (Some 400%Z) None)) None None.


Definition httpDate : jsstring := js "Wed, 21 Oct 2015 07:28:00 GMT".
Definition httpDateMs : Z := 1445412480000.

(** [Number] and [Date.parse] on the header values of the examples; on any
    other string these stand-ins answer [NaN]. *)
Definition exampleNumber (s : jsstring) : option Q :=
  if jsstring_eqb s (js "120") then Some 120%Q else None.

Definition exampleDateParse (s : jsstring) : option Z :=
  if jsstring_eqb s httpDate then Some httpDateMs else None.

Definition exampleRetryOptions : RetryOptions := mkRetryOptions 6 500 20000.

(** An operation that fails once with [err] and then answers [42]. *)
Definition failsOnce (err : Err) (attempt : Z) : Z + Err :=
  if (attempt =? 1)%Z then inr err else inl 42%Z.



(** ** Invariants *)

(** The download loop: the files written so far are numbered from [S0]
    without a gap, one per downloaded URL. *)
Definition contiguousFrom (S0 : nat) (st : DownloadLoop) : Prop :=
  storedIndices st = map Z.of_nat (seq S0 (length (downloadedUrls st))).

(** The limiter: the counter counts the running tasks and stays within the
    cap. *)
Definition limiterInv (cap : Z) (st : Limiter) : Prop :=
  active st = Z.of_nat (length (running st)) /\ (active st <= cap)%Z.

(** A stored product whose price an editor has locked, and the same
    product as a later import delivers it. *)
Definition lockedDoc : Doc :=
  list_to_map
    [ ("store", VStr (js "oliveyoung"));
      ("sourceUrl", VStr (js "https://shop.example.com/p/1"));
      ("categoryKey", VStr (js "ranking_all"));
      ("title", VStr (js "old title"));
      ("price", VNum 1000);
      ("imagesOriginal", VList []);
      ("imagesProcessed", VList []);
      ("lockedFields", VList [js "price"]) ]%string.

Definition incomingProduct : ProcessedProduct :=
  mkProcessedProduct (js "oliveyoung") (js "skincare")
    (js "https://shop.example.com/p/1") (js "new title") 2000 (js "KRW")
    [js "https://shop.example.com/i/1.jpg"] (js "desc") (js "ko") (js "orch")
    (js "mn") [] (js "translated") None None.

Definition exampleMergeConfig : MergeConfig :=
  mkMergeConfig (js "oliveyoung") false (fun _ => None).

(** The identity an operation filters on, and the condition under which it
    leaves the identity of the document it updates alone: its [$set]
    rewrites [store] and [sourceUrl] with the values of its filter. *)
Definition opIdentity (op : UpdateOne) : option Value * option Value :=
  (Some (VStr (filter_store op)), Some (VStr (filter_sourceUrl op))).

Definition opKeepsIdentity (op : UpdateOne) : Prop :=
  op_set op !! "store"%string = Some (VStr (filter_store op))
  /\ op_set op !! "sourceUrl"%string = Some (VStr (filter_sourceUrl op)).

(** What an operation does to a document of identity [id0]. *)
Definition applyTo (id0 : option Value * option Value) (d : Doc) (op : UpdateOne)
  : Doc :=
  if bool_decide (opIdentity op = id0) then op_set op ∪ d else d.

Definition identities (db : Collection) : list (option Value * option Value) :=
  map docIdentity db.

(** A text without whitespace. *)
Definition wsFree (t : jsstring) : Prop :=
  Forall (fun c => isWhiteSpace c = false) t.

(** A text in which no promotional token occurs. *)
Definition tokenFree (s : jsstring) : Prop :=
  Forall (fun token => includes s token = false) promoTokens.

(** ** The products route: the lock handling of [PATCH /api/products/:id] *)

(** The fields of the request body that the handler looks at for locking:
    which lockable fields are present (not [undefined]), and the two
    optional arrays. *)
Record PatchBody : Type := mkPatchBody {
  patch_title : bool;
  patch_price : bool;
  patch_descriptionTranslated : bool;
  patch_imagesProcessed : bool;
  patch_status : bool;
  patch_notes : bool;
  patch_lockFields : option (list jsstring);
  patch_unlockFields : option (list jsstring)
}.

(** [editedFields]: one [push] per field present, in the order of the
    [if]s. *)
Definition editedFields (body : PatchBody) : list jsstring :=
  (if patch_title body then [js "title"] else [])
  ++ (if patch_price body then [js "price"] else [])
  ++ (if patch_descriptionTranslated body then [js "descriptionTranslated"] else [])
  ++ (if patch_imagesProcessed body then [js "imagesProcessed"] else [])
  ++ (if patch_status body then [js "status"] else [])
  ++ (if patch_notes body then [js "notes"] else []).

(** [set.delete(x)] on a [Set<string>] kept as the list of its members in
    insertion order. *)
Definition set_delete (x : jsstring) (s : list jsstring) : list jsstring :=
  filter (fun y => y <> x) s.

(** From [new Set(product.lockedFields || [])] to
    [Array.from(currentLockedFields)]. *)
Definition patchLockedFields (lockedFields : list jsstring) (body : PatchBody)
  : list jsstring :=
  let currentLockedFields := arrayFromSet lockedFields in
  let currentLockedFields :=
    match patch_unlockFields body with
    | Some unlockFields =>
        fold_left (fun s field => set_delete field s) unlockFields
                  currentLockedFields
    | None => currentLockedFields
    end in
  let fieldsToLock :=
    match patch_lockFields body with
    | Some lockFields =>
        set_add_all []
          (filter (fun field =>
                     Is_true (existsb (jsstring_eqb field)
                                      (map js LOCKABLE_PRODUCT_FIELDS)))
                  lockFields)
    | None => []
    end in
  let fieldsToLock :=
    set_add_all fieldsToLock
      (filter (fun field =>
                 Is_true
                   match patch_unlockFields body with
                   | Some unlockFields =>
                       negb (existsb (jsstring_eqb field) unlockFields)
                   | None => true
                   end)
              (editedFields body)) in
  set_add_all currentLockedFields fieldsToLock.

(** ** packages/core/src/utils/hash.ts *)

(** [ToInt32]: the 32-bit two's-complement value of an integer. *)
Definition toInt32 (x : Z) : Z := ((x + 2 ^ 31) mod 2 ^ 32 - 2 ^ 31)%Z.

(** [a << n] and [a & b] on numbers that hold integers: the operands go
    through [ToInt32], the result is a 32-bit integer. *)
Definition jsShiftLeft (a n : Z) : Z := toInt32 (Z.shiftl (toInt32 a) n).
Definition jsBitAnd (a b : Z) : Z := Z.land (toInt32 a) (toInt32 b).

(** One turn of the loop of [simpleHash]; [+] is the addition of numbers,
    exact on integers of this size. *)
Definition hashStep (hash c : Z) : Z :=
  let hash := (jsShiftLeft hash 5 + hash + c)%Z in
  jsBitAnd hash hash.

Definition hashLoop (str : jsstring) : Z := fold_left hashStep str 5381%Z.

(** [n.toString(16)] for an integer [n >= 0]: lower-case digits, most
    significant first, no leading zero. *)
Definition hexDigit (d : Z) : Z := if (d <? 10)%Z then (48 + d)%Z else (87 + d)%Z.

Fixpoint toHexFrom (fuel : nat) (n : Z) (acc : jsstring) : jsstring :=
  match fuel with
  | O => acc
  | S fuel' =>
      let acc' := hexDigit (n mod 16) :: acc in
      if (n / 16 =? 0)%Z then acc' else toHexFrom fuel' (n / 16) acc'
  end.

Definition toString16 (n : Z) : jsstring :=
  toHexFrom (S (Z.to_nat (Z.log2 n))) n [].

Definition simpleHash (str : jsstring) : jsstring :=
  toString16 (Z.abs (hashLoop str)).

(** ** apps/api/src/routes/images.ts: [POST /apply] *)

Inductive ApplyResponse : Type :=
| ApplyBadRequest (message : jsstring)              (* 400 *)
| ApplyNoSafeUrl (unsafeUrls : list jsstring)       (* 400 *)
| ApplyNotFound                                     (* 404 *)
| ApplyAllDuplicates (product : Product)            (* 200, nothing downloaded *)
| ApplyDone (downloaded failed : nat) (errors : list DownloadError)
            (product : Product).                    (* 200 *)

Record ApplyRun : Type := mkApplyRun {
  apply_response : ApplyResponse;
  apply_saved : option Product;        (* the product as [save()] wrote it *)
  apply_loop : DownloadLoop
}.

(** The [urls] of the request body.  An entry is given by the string that
    [typeof u === "string" ? u : u?.url] yields, [None] when that is not
    a string; [rawUrls] is [None] when the body holds no array. *)
Definition applyUrls (rawUrls : option (list (option jsstring))) : list jsstring :=
  match rawUrls with
  | Some raw =>
      filter (fun u => Is_true (0 <? length u)%nat)
        (map trim
           (omap (fun u => match u with
                           | Some ((_ :: _) as s) => Some s
                           | _ => None
                           end) raw))
  | None => []
  end.

(** The sequential download loop of the route: no early exit, the index
    is [startIndex + downloaded].  ([attemptIndex] is not used here.) *)
Fixpoint applyDownloads (cfg : DownloaderConfig) (net : Network)
    (productId : jsstring) (startIndex : nat) (newUrls : list jsstring)
    (st : DownloadLoop) : DownloadLoop :=
  match newUrls with
  | [] => st
  | url :: rest =>
      let fileIndex := Z.of_nat (startIndex + length (downloadedUrls st)) in
      let d := downloadImage cfg net url productId fileIndex in
      let st' :=
        match dl_result d with
        | inr localUrl =>
            mkDownloadLoop (downloadedUrls st ++ [localUrl]) (errors st)
                           (attemptIndex st)
                           (storedIndices st ++ [fileIndex])
                           (requestsSent st ++ dl_requests d)
        | inl e =>
            mkDownloadLoop (downloadedUrls st) (errors st ++ [e])
                           (attemptIndex st) (storedIndices st)
                           (requestsSent st ++ dl_requests d)
        end in
      applyDownloads cfg net productId startIndex rest st'
  end.

(** The URLs the route goes on to download: the safe ones, normalized,
    without those the product has. *)
Definition applyNewUrls (isUrlSafe : jsstring -> bool) (product : Product)
    (urls : list jsstring) : list jsstring :=
  let safeUrls := applyRouteSafeUrls isUrlSafe urls in
  let existingImages := p_imagesProcessed product ++ p_imagesOriginal product in
  let normalizedExisting := normalizeImageUrls existingImages None 10 in
  let normalizedNew := normalizeImageUrls safeUrls None 10 in
  let uniqueNewUrls := arrayFromSet normalizedNew in
  filter (fun url => Is_true (negb (existsb (jsstring_eqb url) normalizedExisting)))
         uniqueNewUrls.

Definition applyImages (isUrlSafe : jsstring -> bool) (cfg : DownloaderConfig)
    (net : Network) (findById : option Product) (productId : jsstring)
    (rawUrls : option (list (option jsstring))) : ApplyRun :=
  match productId with
  | [] => mkApplyRun (ApplyBadRequest (js "productId is required")) None emptyLoop
  | _ =>
    let urls := applyUrls rawUrls in
    if (length urls =? 0)%nat
    then mkApplyRun
           (ApplyBadRequest (js "urls must be a non-empty array of strings"))
           None emptyLoop
    else if (30 <? length urls)%nat
    then mkApplyRun (ApplyBadRequest (js "Maximum 30 URLs allowed per request"))
                    None emptyLoop
    else match findById with
    | None => mkApplyRun ApplyNotFound None emptyLoop
    | Some product =>
      let safeUrls := applyRouteSafeUrls isUrlSafe urls in
      let unsafeUrls := filter (fun url => Is_true (negb (isUrlSafe url))) urls in
      if (length safeUrls =? 0)%nat
      then mkApplyRun (ApplyNoSafeUrl unsafeUrls) None emptyLoop
      else
        let newUrls := applyNewUrls isUrlSafe product urls in
        if (length newUrls =? 0)%nat
        then mkApplyRun (ApplyAllDuplicates product) None emptyLoop
        else
          let startIndex := length (p_imagesProcessed product) in
          let st := applyDownloads cfg net productId startIndex newUrls
                                   emptyLoop in
          let updatedImagesProcessed :=
            p_imagesProcessed product ++ downloadedUrls st in
          let saved := mkProduct (p_title product) (p_imagesOriginal product)
                                 updatedImagesProcessed (p_notes product) in
          mkApplyRun (ApplyDone (length (downloadedUrls st)) (length (errors st))
                                (errors st) saved)
                     (Some saved) st
    end
  end.

(** ** Further notions used in the statements *)

(** A server error ([503]) without any header. *)
Definition err503 : Err := mkErr None (Some 503%Z) None.

(** One part of a dotted address as [ipRegex] reads it: one to three
    decimal digits; and the host made of four of them. *)
Definition isOctetText (d : jsstring) : bool :=
  forallb isDigit d && (1 <=? length d)%nat && (length d <=? 3)%nat.

Definition dottedQuad (d1 d2 d3 d4 : jsstring) : jsstring :=
  d1 ++ js "." ++ d2 ++ js "." ++ d3 ++ js "." ++ d4.

(** The public URL under which [downloadImage] stores file [index] of a
    product. *)
Definition storedImageUrl (cfg : DownloaderConfig) (productId : jsstring)
    (index : Z) : jsstring :=
  publicImageBaseUrl cfg ++ js "/" ++ productId ++ js "/" ++ decimal index
    ++ js ".jpg".


(** The candidates [enrichProductImages] may download for a product: the
    distinct search results that are http(s) URLs and not among the
    (normalized) images the product has. *)
Definition newCandidateUrls (env : EnrichEnv) (product : Product)
  : list jsstring :=
  filter (fun url =>
            Is_true (isHttpUrl url
                     && negb (existsb (jsstring_eqb url)
                                (normalizeImageUrls
                                   (p_imagesProcessed product
                                    ++ p_imagesOriginal product) None 10))))
         (arrayFromSet (fetchCandidatePages (env_searchImages env) maxPages 0 [])).

(** The query cache within its bound: at most [max] entries, none under
    the empty key (every key [getCacheKey] makes holds the two separators). *)
Definition cacheWithin (max : Z) (cache : QueryCache) : Prop :=
  (Z.of_nat (length cache) <= max)%Z /\ Forall (fun e => fst e <> []) cache.

(** A second incoming product, of another identity than [lockedDoc]. *)
Definition otherProduct : ProcessedProduct :=
  mkProcessedProduct (js "oliveyoung") (js "skincare")
    (js "https://shop.example.com/p/2") (js "other") 3000 (js "KRW")
    [] (js "desc") (js "ko") (js "orch") (js "mn") [] (js "translated")
    None None.

(** The hash as the usual description of djb2 has it: [h * 33 + c] from
    5381 on, over the integers. *)
Definition djb2 (str : jsstring) : Z :=
  fold_left (fun h c => (h * 33 + c)%Z) str 5381%Z.

(** The value of a string of hexadecimal digits. *)
Definition hexDigitValue (c : Z) : Z :=
  if ((48 <=? c) && (c <=? 57))%Z then (c - 48)%Z else (c - 87)%Z.

Definition hexValue (s : jsstring) : Z :=
  fold_left (fun v c => (v * 16 + hexDigitValue c)%Z) s 0%Z.

Definition isHexDigit (c : Z) : bool :=
  ((48 <=? c) && (c <=? 57) || (97 <=? c) && (c <=? 102))%Z.


(** A request to [/apply] for the product [twoOriginals] with one public
    URL and the metadata address. *)
Definition exampleApplyBody : option (list (option jsstring)) :=
  Some [Some (js "https://cdn.example.com/a.jpg"); Some metadataUrl].

Definition exampleApplySaved : Product :=
  mkProduct (p_title twoOriginals) (p_imagesOriginal twoOriginals)
            [js "/uploads/products/p1/0.jpg"] [].

(** A text in which whitespace is normal: every whitespace unit is a
    space, no two are adjacent, and none stands at either end. *)
Fixpoint spacesCollapsed (s : jsstring) : bool :=
  match s with
  | [] => true
  | c :: s' =>
      (if isWhiteSpace c
       then (c =? 32)%Z
            && match s' with d :: _ => negb (isWhiteSpace d) | [] => true end
       else true)
      && spacesCollapsed s'
  end.

Definition whitespaceNormal (s : jsstring) : Prop :=
  spacesCollapsed s = true /\ trim s = s.

(* ===================================================================== *)
(** * Part II. Properties                                                 *)
(* ===================================================================== *)

(** ** The download allocator *)

Section DownloadLoopFacts.

Variables (cfg : DownloaderConfig) (net : Network) (productId : jsstring).
Variables (S0 : nat) (needed : Z).

Lemma contiguousFrom_empty : contiguousFrom S0 emptyLoop.
Proof. reflexivity. Qed.

Lemma downloadCandidates_contiguous newUrls :
  forall st, contiguousFrom S0 st ->
    contiguousFrom S0 (downloadCandidates cfg net productId S0 needed newUrls st).
Proof.
  induction newUrls as [|url rest IH]; intros st Hst; simpl; [exact Hst|].
  destruct (Z.of_nat (length (downloadedUrls st)) >=? needed)%Z; [exact Hst|].
  apply IH. unfold contiguousFrom in *.
  destruct (dl_result _) as [e|localUrl]; simpl; [exact Hst|].
  rewrite length_app, Hst. simpl.
  rewrite Nat.add_1_r, seq_S, map_app. reflexivity.
Qed.


End DownloadLoopFacts.

Lemma seq_Z_NoDup (S0 n : nat) : NoDup (map Z.of_nat (seq S0 n)).
Proof.
  apply NoDup_fmap_2; [intros a b; lia|]. apply NoDup_ListNoDup, List.seq_NoDup.
Qed.

(** What [finalCount] is on the path that downloads: the number of
    processed images after the run, not the number of all images. *)
Lemma enrich_result_shape env productId desiredCount force :
  let run := enrichProductImages env productId desiredCount force in
  er_downloaded (run_result run) = length (downloadedUrls (run_loop run))
  /\ match run_saved run, env_product env with
     | Some saved, Some product =>
         p_imagesProcessed saved
           = p_imagesProcessed product ++ downloadedUrls (run_loop run)
         /\ er_finalCount (run_result run)
            = length (p_imagesProcessed product) + er_downloaded (run_result run)
         /\ p_imagesOriginal saved = p_imagesOriginal product
     | Some _, None => False
     | None, _ => downloadedUrls (run_loop run) = []
     end.
Proof.
  unfold enrichProductImages.
  destruct (env_product env) as [product|]; simpl; [|auto].
  destruct (negb force && _); simpl; [auto|].
  destruct (env_query env); simpl; [auto|].
  destruct (_ =? 0)%Z; simpl; [auto|].
  rewrite length_app. auto.
Qed.

(** C1.  Whatever the candidates and whichever of them fail, the files
    [enrichProductImages] saves are numbered [S, S+1, ..., S+downloaded-1]
    where [S] is the number of processed images the product had when the
    batch began: contiguous, and no index is used twice. *)
Theorem enrich_indices_contiguous (env : EnrichEnv) (productId : jsstring)
    (desiredCount : Z) (force : bool) :
  let run := enrichProductImages env productId desiredCount force in
  let S := from_option (fun p => length (p_imagesProcessed p)) 0 (env_product env) in
  storedIndices (run_loop run)
    = map Z.of_nat (seq S (er_downloaded (run_result run)))
  /\ NoDup (storedIndices (run_loop run)).
Proof.
  intros run S.
  assert (H : storedIndices (run_loop run)
              = map Z.of_nat (seq S (er_downloaded (run_result run)))).
  { subst run S. unfold enrichProductImages.
    destruct (env_product env) as [product|]; simpl; [|reflexivity].
    destruct (negb force && _); simpl; [reflexivity|].
    destruct (env_query env); simpl; [reflexivity|].
    destruct (_ =? 0)%Z; simpl; [reflexivity|].
    apply downloadCandidates_contiguous, contiguousFrom_empty. }
  split; [exact H|]. rewrite H. apply seq_Z_NoDup.
Qed.

(** Stored files have site-relative URLs ([/uploads/products/...]), which
    [normalizeImageUrls] drops: such images do not count as existing ones,
    and the run below is asked for five downloads. *)
Example enrich_two_processed_local :
  let run := enrichProductImages (exampleEnv twoProcessed) (js "p1") 5 false in
  normalizeImageUrls (p_imagesProcessed twoProcessed) None 10 = []
  /\ er_downloaded (run_result run) = 3 /\ er_finalCount (run_result run) = 5
  /\ storedIndices (run_loop run) = [2; 3; 4]%Z.
Proof. vm_compute. auto. Qed.

(** The example of the specification on a product whose two images are
    processed ones with absolute URLs. *)
Example enrich_two_processed_http :
  let product := mkProduct (js "제품명 30ml") []
                   (map js ["https://img.example.com/0.jpg";
                            "https://img.example.com/1.jpg"]%string) [] in
  let run := enrichProductImages (exampleEnv product) (js "p1") 5 false in
  er_downloaded (run_result run) = 3 /\ er_finalCount (run_result run) = 5
  /\ storedIndices (run_loop run) = [2; 3; 4]%Z.
Proof. vm_compute. auto. Qed.

(** C10.  On a product whose two existing images are original ones, with
    [desiredCount = 5] and four new candidates of which the second fails
    validation, [enrichProductImages] downloads 3 images and reports
    [finalCount = 3]: the count of processed images, while the product then
    has 5 images in all. *)
Theorem enrich_finalCount_two_originals :
  let run := enrichProductImages (exampleEnv twoOriginals) (js "p1") 5 false in
  er_downloaded (run_result run) = 3
  /\ er_finalCount (run_result run) = 3
  /\ errors (run_loop run) = [NotAnImage]
  /\ from_option (fun p => length (p_imagesProcessed p ++ p_imagesOriginal p)) 0
       (run_saved run) = 5.
Proof. vm_compute. auto. Qed.

(** The early returns of the same function report the combined count. *)
Lemma enrich_skipped_reports_total (env : EnrichEnv) productId desiredCount product :
  env_product env = Some product ->
  let total := length (normalizeImageUrls
                 (p_imagesProcessed product ++ p_imagesOriginal product) None 10) in
  (Z.of_nat total >= desiredCount)%Z ->
  run_result (enrichProductImages env productId desiredCount false)
    = mkEnrichResult true 0 total true None.
Proof.
  intros Hp total Hge. unfold enrichProductImages. rewrite Hp. simpl.
  fold total. destruct (Z.geb_spec (Z.of_nat total) desiredCount); [reflexivity|lia].
Qed.

(** ** The SSRF screen *)

(** [downloadImage] sends its [HEAD] to any http(s) URL: the host is not
    looked at. *)
Lemma downloadImage_requests_any_http cfg net imageUrl productId index :
  isHttpUrl imageUrl = true ->
  head (dl_requests (downloadImage cfg net imageUrl productId index))
    = Some (ReqHead imageUrl).
Proof.
  intros Hhttp. unfold downloadImage. rewrite Hhttp. cbn [negb].
  assert (Hget : forall reqs,
    head (dl_requests
      match net_get net imageUrl with
      | GetOk contentType finishes =>
          if negb (startsWith contentType (js "image/"))
          then mkDownload (inl NotAnImage) ((ReqHead imageUrl :: reqs) ++ [ReqGet imageUrl])
          else if negb finishes
          then mkDownload (inl PipelineFailed) ((ReqHead imageUrl :: reqs) ++ [ReqGet imageUrl])
          else mkDownload
                 (inr (publicImageBaseUrl cfg ++ js "/" ++ productId ++ js "/"
                       ++ decimal index ++ js ".jpg"))
                 ((ReqHead imageUrl :: reqs) ++ [ReqGet imageUrl])
      | GetFailed =>
          mkDownload (inl RequestFailed) ((ReqHead imageUrl :: reqs) ++ [ReqGet imageUrl])
      end) = Some (ReqHead imageUrl)).
  { intros reqs. destruct (net_get net imageUrl) as [ct' fin|]; [|reflexivity].
    destruct (negb (startsWith ct' (js "image/"))); [reflexivity|].
    destruct (negb fin); reflexivity. }
  destruct (net_head net imageUrl) as [ct cl|status].
  - destruct (negb (startsWith ct (js "image/"))); [reflexivity|].
    destruct cl as [n|]; [|exact (Hget [])].
    destruct (n >? imageMaxBytes cfg)%Z; [reflexivity|exact (Hget [])].
  - destruct status as [status|]; [|reflexivity].
    destruct (decide (status = 405%Z)) as [->|Hne]; [exact (Hget [])|].
    destruct status as [|q|q]; try reflexivity.
    repeat (destruct q as [q|q|]; try reflexivity). contradiction.
Qed.

(** The policy itself rejects the metadata address, and the [/apply] route
    drops it before downloading. *)
Lemma isUrlSafe_rejects_metadata :
  isUrlSafe asciiLower exampleParseURL metadataUrl = false
  /\ applyRouteSafeUrls (isUrlSafe asciiLower exampleParseURL)
       [metadataUrl; js "https://cdn.example.com/a.jpg"]
     = [js "https://cdn.example.com/a.jpg"].
Proof. vm_compute. auto. Qed.

(** C4.  A candidate that the image search returns reaches the network
    unscreened: with the cloud metadata address as the only candidate,
    [enrichProductImages] sends a [HEAD] request to it, on every network,
    although [isUrlSafe] rejects that URL. *)
Theorem enrich_requests_metadata_address (net : Network) (cfg : DownloaderConfig) :
  let env := mkEnrichEnv (Some twoOriginals) (js "q") metadataSearch net cfg in
  let run := enrichProductImages env (js "p1") 5 false in
  head (requestsSent (run_loop run)) = Some (ReqHead metadataUrl)
  /\ isUrlSafe asciiLower exampleParseURL metadataUrl = false.
Proof.
  intros env run. split; [|vm_compute; reflexivity].
  subst run env. unfold enrichProductImages. simpl env_product. cbv iota beta.
  set (existing := normalizeImageUrls _ None 10).
  assert (Hex : existing = p_imagesOriginal twoOriginals) by (vm_compute; reflexivity).
  rewrite Hex.
  change (negb false && _) with false. cbv iota.
  simpl env_query. change (js "q") with [113%Z]. cbv iota.
  assert (Hnew :
    filter (fun url => Is_true (isHttpUrl url
              && negb (existsb (jsstring_eqb url) (p_imagesOriginal twoOriginals))))
           (arrayFromSet (fetchCandidatePages metadataSearch maxPages 0 []))
    = [metadataUrl]) by (vm_compute; reflexivity).
  simpl env_searchImages. rewrite Hnew.
  change (Z.max 0 (5 - Z.of_nat (length (p_imagesOriginal twoOriginals))))
    with 3%Z.
  change (3 =? 0)%Z with false. cbv iota.
  simpl run_loop. simpl env_cfg. simpl env_net.
  cbn [downloadCandidates emptyLoop downloadedUrls length].
  change (Z.of_nat 0 >=? 3)%Z with false. cbv iota.
  pose proof (downloadImage_requests_any_http cfg net metadataUrl (js "p1")
                (Z.of_nat (length (p_imagesProcessed twoOriginals) + 0))
                eq_refl) as Hhead.
  destruct (downloadImage cfg net metadataUrl (js "p1") _) as [res reqs].
  simpl in Hhead. destruct res; simpl; exact Hhead.
Qed.

(** The literal [::1] never matches: [split(":")[0]] of an IPv6 host is
    empty (or ["["] for a bracketed one) before the comparison is made. *)
Lemma isPrivateIP_misses_ipv6_loopback :
  isPrivateIP asciiLower (js "::1") = false
  /\ isPrivateIP asciiLower (js "[::1]") = false
  /\ isUrlSafe asciiLower exampleParseURL (js "http://[::1]/") = true.
Proof. vm_compute. auto. Qed.

(** ** The retry controller *)

Local Open Scope Q_scope.

Lemma inject_Z_max (a b : Z) : Qmax (inject_Z a) (inject_Z b) == inject_Z (Z.max a b).
Proof.
  destruct (Z.max_spec a b) as [[Hlt ->]|[Hle ->]].
  - apply Q.max_r. rewrite <- Zle_Qle. lia.
  - apply Q.max_l. rewrite <- Zle_Qle. lia.
Qed.





(** C6.  When every attempt fails with a status in 400-499 other than 429,
    [withRetry] (asked for at least one attempt) calls the operation exactly
    once and rethrows the error of that call at once: no wait, no retry, no
    log line. *)
Theorem withRetry_bails_on_4xx
    (Number : jsstring -> option Q) (DateParse : jsstring -> option Z)
    (now : Z -> Z) (random : Z -> Q) (T : Type) (fn : Z -> T + Err)
    (opts : RetryOptions) :
  (1 <= retryMax opts)%Z ->
  (forall attempt, exists err status,
      fn attempt = inr err /\ getStatus err = Some status
      /\ (400 <= status <= 499)%Z /\ status <> 429%Z) ->
  exists err,
    fn 1%Z = inr err
    /\ withRetry Number DateParse now random fn opts
       = mkRetryRun (Threw (Some err)) 1 [] [].
Proof.
  intros Hmax Hfail.
  destruct (Hfail 1%Z) as (err & status & Hfn & Hst & Hrange & Hne).
  exists err. split; [exact Hfn|].
  unfold withRetry. cbn [retryLoop].
  destruct (Z.leb_spec 1 (retryMax opts)); [|lia].
  rewrite Hfn. unfold isRetryable. rewrite Hst.
  destruct (Z.eqb_spec status 429); [contradiction|].
  destruct (Z.geb_spec status 500); [lia|]. simpl.
  destruct (Z.geb_spec status 400); [|lia]. simpl.
  destruct (Z.leb_spec status 499); [|lia]. reflexivity.
Qed.

Lemma withRetry_bails_on_4xx_witness :
  exists err,
    (fun _ : Z => inr err400 : Z + Err) 1%Z = inr err
    /\ withRetry exampleNumber exampleDateParse (fun _ => 0%Z) (fun _ => 0%Q)
         (fun _ : Z => inr err400 : Z + Err) exampleRetryOptions
       = mkRetryRun (Threw (Some err)) 1 [] [].
Proof.
  apply (withRetry_bails_on_4xx exampleNumber exampleDateParse
           (fun _ => 0%Z) (fun _ => 0%Q) Z (fun _ => inr err400)
           exampleRetryOptions).
  - vm_compute. discriminate.
  - intros attempt. exists err400, 400%Z.
    repeat split; try reflexivity; try lia.
Defined.

(** With no attempt allowed the operation is never called. *)
Lemma withRetry_zero_attempts
    (Number : jsstring -> option Q) (DateParse : jsstring -> option Z)
    (now : Z -> Z) (random : Z -> Q) (T : Type) (fn : Z -> T + Err) :
  withRetry Number DateParse now random fn (mkRetryOptions 0 500 20000)
  = mkRetryRun (Threw None) 0 [] [].
Proof. reflexivity. Qed.




Section RetryAfter.

Variable Number : jsstring -> option Q.
Variable DateParse : jsstring -> option Z.
Variable now : Z -> Z.
Variable random : Z -> Q.
Variable opts : RetryOptions.






End RetryAfter.




Local Close Scope Q_scope.

(** ** The concurrency limiter *)

Lemma limiterCap_ge_1 (c : Q) : (1 <= limiterCap c)%Z.
Proof. unfold limiterCap. lia. Qed.

(** The cap never exceeds [max(1, concurrency)]. *)
Lemma limiterCap_le (c : Q) : (inject_Z (limiterCap c) <= Qmax 1 c)%Q.
Proof.
  unfold limiterCap.
  destruct (Qeq_bool c 0) eqn:Hc.
  - apply Qeq_bool_iff in Hc. change (Qfloor 1) with 1%Z.
    change (inject_Z (Z.max 1 1)) with 1%Q. apply Q.le_max_l.
  - rewrite <- inject_Z_max. apply Q.max_le_compat_l, Qfloor_le.
Qed.

Lemma next_inv cap st : limiterInv cap st -> limiterInv cap (next cap st).
Proof.
  intros [Hact Hle]. unfold next.
  destruct (Z.geb_spec (active st) cap); [split; assumption|].
  destruct (queue st) as [|run rest]; [split; assumption|].
  unfold runTask, limiterInv; simpl. rewrite length_app; simpl. lia.
Qed.

Lemma next_order cap st :
  started (next cap st) ++ queue (next cap st) = started st ++ queue st.
Proof.
  unfold next. destruct (active st >=? cap)%Z; [reflexivity|].
  destruct (queue st) as [|run rest] eqn:Hq; [rewrite Hq; reflexivity|].
  simpl. rewrite <- app_assoc. reflexivity.
Qed.

Lemma remove_first_length id l :
  existsb (Nat.eqb id) l = true ->
  S (length (remove_first id l)) = length l.
Proof.
  induction l as [|x l IH]; simpl; [discriminate|].
  rewrite (Nat.eqb_sym id x).
  destruct (x =? id)%nat; simpl; [reflexivity|].
  intros H. rewrite (IH H). reflexivity.
Qed.

Lemma limiterStep_inv cap st ev :
  limiterInv cap st -> limiterInv cap (limiterStep cap st ev).
Proof.
  intros [Hact Hle]. destruct ev as [id|id]; simpl.
  - apply next_inv. split; assumption.
  - destruct (existsb (Nat.eqb id) (running st)) eqn:Hrun; [|split; assumption].
    apply next_inv. pose proof (remove_first_length id _ Hrun).
    unfold limiterInv; simpl. lia.
Qed.

Lemma limiterStep_order cap st ev :
  started (limiterStep cap st ev) ++ queue (limiterStep cap st ev)
  = (started st ++ queue st)
      ++ match ev with Submit id => [id] | Settle _ => [] end.
Proof.
  destruct ev as [id|id]; simpl.
  - unfold limit. rewrite next_order. simpl. apply app_assoc.
  - rewrite app_nil_r.
    destruct (existsb _ _); [|reflexivity].
    unfold settle. rewrite next_order. reflexivity.
Qed.

Lemma peakFrom_le cap evs :
  forall st, limiterInv cap st -> (Z.of_nat (peakFrom cap st evs) <= cap)%Z.
Proof.
  induction evs as [|ev evs IH]; intros st Hinv; simpl.
  - destruct Hinv. lia.
  - specialize (IH _ (limiterStep_inv cap st ev Hinv)). destruct Hinv. lia.
Qed.

Lemma fold_limiterStep_order cap evs :
  forall st,
    let st' := fold_left (limiterStep cap) evs st in
    started st' ++ queue st' = (started st ++ queue st) ++ submissions evs.
Proof.
  induction evs as [|ev evs IH]; intros st; simpl.
  - rewrite app_nil_r. reflexivity.
  - rewrite IH, limiterStep_order, <- app_assoc.
    destruct ev; reflexivity.
Qed.

Lemma limiter_peak_le_cap (c : Q) (evs : list LimiterEvent) :
  (Z.of_nat (peakConcurrency c evs) <= limiterCap c)%Z.
Proof.
  apply peakFrom_le. split; [reflexivity|].
  pose proof (limiterCap_ge_1 c). simpl. lia.
Qed.

Lemma limiterCap_floor (c : Q) : (limiterCap c <= Z.max 1 (Qfloor c))%Z.
Proof.
  unfold limiterCap. destruct (Qeq_bool c 0); [|lia].
  change (Qfloor 1) with 1%Z. lia.
Qed.

(** C5.  Along every run of a limiter made by [createLimiter(c)], whatever
    is submitted and in whatever order tasks settle, the number of tasks
    running together never exceeds [max(1, c)] (so it is at most [c] for
    [c >= 1] and at most 1 for [c <= 0]), and the tasks started so far are
    exactly the first submissions, in submission order, the others waiting
    in the queue in that order. *)
Theorem limiter_bounded_fifo (c : Q) (evs : list LimiterEvent) :
  let st := limiterRun (limiterCap c) evs in
  (inject_Z (Z.of_nat (peakConcurrency c evs)) <= Qmax 1 c)%Q
  /\ (Z.of_nat (peakConcurrency c evs) <= Z.max 1 (Qfloor c))%Z
  /\ started st ++ queue st = submissions evs.
Proof.
  intros st. pose proof (limiter_peak_le_cap c evs) as Hpeak.
  split; [|split].
  - eapply Qle_trans; [|apply limiterCap_le].
    rewrite <- Zle_Qle. exact Hpeak.
  - pose proof (limiterCap_floor c). lia.
  - subst st. unfold limiterRun.
    rewrite (fold_limiterStep_order (limiterCap c) evs newLimiter).
    reflexivity.
Qed.

(** The two cases of the specification. *)
Corollary limiter_peak_at_most_c (c : Q) (evs : list LimiterEvent) :
  (1 <= c)%Q -> (inject_Z (Z.of_nat (peakConcurrency c evs)) <= c)%Q.
Proof.
  intros Hc. pose proof (limiterCap_le c) as H.
  rewrite (Q.max_r 1 c Hc) in H. eapply Qle_trans; [|exact H].
  rewrite <- Zle_Qle. apply limiter_peak_le_cap.
Qed.

Corollary limiter_peak_clamped (c : Q) (evs : list LimiterEvent) :
  (c <= 0)%Q -> (peakConcurrency c evs <= 1)%nat.
Proof.
  intros Hc. pose proof (limiter_peak_le_cap c evs).
  pose proof (limiterCap_floor c).
  assert (Hf : (Qfloor c <= 0)%Z).
  { change 0%Z with (Qfloor 0). apply Qfloor_resp_le. exact Hc. }
  lia.
Qed.

(** The test of the repository: five tasks on a limiter of 2. *)
Example limiter_five_tasks :
  let evs := [Submit 0; Submit 1; Submit 2; Submit 3; Submit 4;
              Settle 1; Settle 0; Settle 3; Settle 2; Settle 4] in
  peakConcurrency 2 evs = 2
  /\ started (limiterRun (limiterCap 2) evs) = [0; 1; 2; 3; 4]
  /\ peakConcurrency 0 evs = 1.
Proof. vm_compute. auto. Qed.

(** ** The merge step: the document store *)

Lemma matchesFilter_true store sourceUrl (d : Doc) :
  matchesFilter store sourceUrl d = true
  <-> docIdentity d = (Some (VStr store), Some (VStr sourceUrl)).
Proof.
  unfold matchesFilter, docIdentity.
  rewrite andb_true_iff, !bool_decide_eq_true.
  split; [intros [-> ->]; reflexivity | intros [= -> ->]; auto].
Qed.

Lemma matchesFilter_false store sourceUrl (d : Doc) :
  matchesFilter store sourceUrl d = false
  <-> docIdentity d <> (Some (VStr store), Some (VStr sourceUrl)).
Proof.
  rewrite <- matchesFilter_true. destruct (matchesFilter _ _ _); split; auto;
    try discriminate. intros H; exfalso; apply H; reflexivity.
Qed.

Lemma union_keeps_identity store sourceUrl (toSet d : Doc) :
  toSet !! "store"%string = Some (VStr store) ->
  toSet !! "sourceUrl"%string = Some (VStr sourceUrl) ->
  docIdentity (toSet ∪ d) = (Some (VStr store), Some (VStr sourceUrl)).
Proof.
  intros Hs Hu. unfold docIdentity, docStore, docSourceUrl.
  rewrite (lookup_union_Some_l _ _ _ _ Hs), (lookup_union_Some_l _ _ _ _ Hu).
  reflexivity.
Qed.

Lemma updateFirst_None store sourceUrl toSet (db : Collection) :
  updateFirst store sourceUrl toSet db = None
  <-> ~ In (Some (VStr store), Some (VStr sourceUrl)) (identities db).
Proof.
  induction db as [|d rest IH]; simpl; [tauto|].
  destruct (matchesFilter store sourceUrl d) eqn:Hm.
  - apply matchesFilter_true in Hm. split; [discriminate|].
    intros H. exfalso. apply H. left. exact Hm.
  - apply matchesFilter_false in Hm.
    destruct (updateFirst store sourceUrl toSet rest) as [[rest' m]|].
    + split; [discriminate|]. intros H. exfalso. destruct IH as [_ IH].
      assert (Hnin : ~ In (Some (VStr store), Some (VStr sourceUrl))
                        (identities rest))
        by (intros Hin; apply H; right; exact Hin).
      specialize (IH Hnin). discriminate IH.
    + split; [|reflexivity]. intros _ [Heq|Hin]; [contradiction|].
      destruct IH as [IH _]. exact (IH eq_refl Hin).
Qed.

Lemma updateFirst_identities store sourceUrl toSet (db db' : Collection) m :
  toSet !! "store"%string = Some (VStr store) ->
  toSet !! "sourceUrl"%string = Some (VStr sourceUrl) ->
  updateFirst store sourceUrl toSet db = Some (db', m) ->
  identities db' = identities db /\ length db' = length db.
Proof.
  intros Hs Hu. revert db' m.
  induction db as [|d rest IH]; intros db' m; simpl; [discriminate|].
  destruct (matchesFilter store sourceUrl d) eqn:Hm.
  - intros [= <- <-]. simpl. apply matchesFilter_true in Hm.
    rewrite (union_keeps_identity store sourceUrl toSet d Hs Hu), Hm. auto.
  - destruct (updateFirst store sourceUrl toSet rest) as [[rest' m']|];
      [|discriminate].
    intros [= <- <-]. destruct (IH rest' m' eq_refl) as [Hi Hl]. simpl.
    rewrite Hi, Hl. auto.
Qed.

Lemma identities_lookup (db : Collection) i d :
  db !! i = Some d -> In (docIdentity d) (identities db).
Proof.
  revert i. induction db as [|x rest IH]; intros [|i]; simpl; try discriminate.
  - intros [= ->]. left. reflexivity.
  - intros H. right. exact (IH i H).
Qed.

(** Under unique identities, an update reaches the document at position [i]
    exactly when it filters on that document's identity. *)
Lemma updateFirst_lookup store sourceUrl toSet (db : Collection) :
  forall db' m i d0,
    NoDup (identities db) ->
    updateFirst store sourceUrl toSet db = Some (db', m) ->
    db !! i = Some d0 ->
    db' !! i
    = Some (if bool_decide ((Some (VStr store), Some (VStr sourceUrl))
                            = docIdentity d0)
            then toSet ∪ d0 else d0).
Proof.
  induction db as [|d rest IH]; intros db' m i d0 Hnd; simpl; [discriminate|].
  apply NoDup_cons in Hnd as [Hnotin Hnd].
  destruct (matchesFilter store sourceUrl d) eqn:Hm.
  - apply matchesFilter_true in Hm. intros [= <- <-].
    destruct i as [|i]; simpl.
    + intros [= ->]. rewrite bool_decide_eq_true_2 by (symmetry; exact Hm).
      reflexivity.
    + intros Hi. rewrite bool_decide_eq_false_2; [exact Hi|].
      intros Heq. apply Hnotin. apply list_elem_of_In.
      rewrite Hm, Heq. exact (identities_lookup rest i d0 Hi).
  - apply matchesFilter_false in Hm.
    destruct (updateFirst store sourceUrl toSet rest) as [[rest' m']|] eqn:Hu;
      [|discriminate].
    intros [= <- <-]. destruct i as [|i]; simpl.
    + intros [= ->]. rewrite bool_decide_eq_false_2; [reflexivity|].
      intros Heq. apply Hm. symmetry. exact Heq.
    + intros Hi. exact (IH rest' m' i d0 Hnd eq_refl Hi).
Qed.

Lemma insertedDoc_identity op :
  opKeepsIdentity op -> docIdentity (insertedDoc op) = opIdentity op.
Proof.
  intros [Hs Hu]. unfold insertedDoc. rewrite <- (assoc_L (∪)).
  exact (union_keeps_identity _ _ _ _ Hs Hu).
Qed.

Lemma identities_app (db1 db2 : Collection) :
  identities (db1 ++ db2) = identities db1 ++ identities db2.
Proof. unfold identities. apply map_app. Qed.

(** One operation either updates in place, when its identity is stored, or
    appends one document of a new identity. *)
Lemma applyUpdateOne_present (db : Collection) r op :
  opKeepsIdentity op -> In (opIdentity op) (identities db) ->
  let '(db', r') := applyUpdateOne (db, r) op in
  identities db' = identities db /\ length db' = length db
  /\ upsertedCount r' = upsertedCount r /\ upsertedIds r' = upsertedIds r
  /\ matchedCount r' = S (matchedCount r).
Proof.
  intros [Hs Hu] Hin. unfold applyUpdateOne.
  destruct (updateFirst _ _ _ db) as [[db' m]|] eqn:Hup.
  - destruct (updateFirst_identities _ _ _ _ _ _ Hs Hu Hup) as [Hi Hl].
    simpl. auto.
  - apply updateFirst_None in Hup. contradiction.
Qed.

Lemma applyUpdateOne_absent (db : Collection) r op :
  opKeepsIdentity op -> ~ In (opIdentity op) (identities db) ->
  let '(db', r') := applyUpdateOne (db, r) op in
  identities db' = identities db ++ [opIdentity op]
  /\ upsertedCount r' = S (upsertedCount r)
  /\ matchedCount r' = matchedCount r.
Proof.
  intros Hk Hnin. unfold applyUpdateOne.
  destruct (updateFirst _ _ _ db) as [[db' m]|] eqn:Hup.
  - assert (Hnone : updateFirst (filter_store op) (filter_sourceUrl op)
                      (op_set op) db = None) by (apply updateFirst_None; exact Hnin).
    rewrite Hnone in Hup. discriminate.
  - simpl. rewrite identities_app. simpl. rewrite (insertedDoc_identity op Hk).
    auto.
Qed.

(** The whole bulk write: the identities stored before are kept in place,
    the new ones are appended, each once; every operation's identity is
    stored afterwards. *)
Lemma bulkWrite_identities ops :
  Forall opKeepsIdentity ops ->
  forall (db : Collection) r,
    let '(db', r') := fold_left applyUpdateOne ops (db, r) in
    exists new,
      identities db' = identities db ++ new
      /\ NoDup new
      /\ Forall (fun x => ~ In x (identities db)) new
      /\ upsertedCount r' = upsertedCount r + length new
      /\ Forall (fun op => In (opIdentity op) (identities db')) ops.
Proof.
  induction 1 as [|op ops Hk Hks IH]; intros db r; cbn [fold_left].
  - exists []. rewrite app_nil_r. repeat split; auto; constructor.
  - destruct (in_dec (decide_rel eq) (opIdentity op) (identities db)) as [Hin|Hnin].
    + pose proof (applyUpdateOne_present db r op Hk Hin) as Hstep.
      revert Hstep. destruct (applyUpdateOne (db, r) op) as [db1 r1].
      intros (Hi & _ & Hc & _ & _).
      specialize (IH db1 r1). revert IH.
      destruct (fold_left applyUpdateOne ops (db1, r1)) as [db' r'].
      intros (new & Hids & Hnd & Hfresh & Hcount & Hall).
      cbv beta iota. exists new. rewrite Hi in Hids, Hfresh. rewrite Hc in Hcount.
      repeat split; auto. constructor; [|exact Hall].
      rewrite Hids. apply in_or_app. left. exact Hin.
    + pose proof (applyUpdateOne_absent db r op Hk Hnin) as Hstep.
      revert Hstep. destruct (applyUpdateOne (db, r) op) as [db1 r1].
      intros (Hi & Hc & _).
      specialize (IH db1 r1). revert IH.
      destruct (fold_left applyUpdateOne ops (db1, r1)) as [db' r'].
      intros (new & Hids & Hnd & Hfresh & Hcount & Hall).
      cbv beta iota. exists (opIdentity op :: new).
      rewrite Hi, <- app_assoc in Hids. simpl in Hids. rewrite Hi in Hfresh.
      split; [exact Hids|]. split; [|split; [|split]].
      * apply NoDup_cons. split; [|exact Hnd].
        intros Hin%list_elem_of_In.
        rewrite Forall_forall in Hfresh.
        apply (Hfresh _ (proj2 (list_elem_of_In _ _) Hin)).
        apply in_or_app. right. left. reflexivity.
      * constructor; [exact Hnin|].
        eapply Forall_impl; [exact Hfresh|].
        intros x Hx Hin. apply Hx. apply in_or_app. left. exact Hin.
      * rewrite Hcount, Hc. simpl. lia.
      * constructor; [|exact Hall].
        rewrite Hids. apply in_or_app. right. left. reflexivity.
Qed.

(** When every operation's identity is stored already, nothing is inserted. *)
Lemma bulkWrite_all_present ops :
  Forall opKeepsIdentity ops ->
  forall (db : Collection) r,
    Forall (fun op => In (opIdentity op) (identities db)) ops ->
    let '(db', r') := fold_left applyUpdateOne ops (db, r) in
    identities db' = identities db /\ length db' = length db
    /\ upsertedCount r' = upsertedCount r /\ upsertedIds r' = upsertedIds r
    /\ matchedCount r' = matchedCount r + length ops.
Proof.
  induction 1 as [|op ops Hk Hks IH]; intros db r Hall; cbn [fold_left].
  - repeat split; auto.
  - apply Forall_cons in Hall as [Hin Hall].
    pose proof (applyUpdateOne_present db r op Hk Hin) as Hstep.
    revert Hstep. destruct (applyUpdateOne (db, r) op) as [db1 r1].
    intros (Hi & Hl & Hc & Hu & Hm).
    specialize (IH db1 r1). rewrite Hi in IH. specialize (IH Hall). revert IH.
    destruct (fold_left applyUpdateOne ops (db1, r1)) as [db' r'].
    intros (Hi' & Hl' & Hc' & Hu' & Hm'). cbv beta iota.
    rewrite Hi', Hl', Hc', Hu', Hm', Hm. simpl. repeat split; auto; lia.
Qed.

(** ** The merge step: the operations built from the incoming records *)

Lemma setUnlessLocked_lookup L g v (m : gmap string Value) f :
  setUnlessLocked L g v m !! f
  = if decide (g = f) then (if lockedHas L g then m !! f else Some v) else m !! f.
Proof.
  unfold setUnlessLocked. destruct (lockedHas L g); simpl.
  - destruct (decide (g = f)); reflexivity.
  - rewrite lookup_insert. destruct (decide (g = f)); reflexivity.
Qed.

Ltac decide_strings :=
  repeat (first [rewrite decide_False by discriminate
                | rewrite decide_True by reflexivity]).

(** Reads one named field of the [$set] of [buildUpdateOne]. *)
Ltac solve_toSet_lookup :=
  unfold buildUpdateOne, incomingValue; cbn [op_set];
  rewrite !setUnlessLocked_lookup; decide_strings;
  repeat match goal with
         | |- context [lockedHas ?L ?g] => destruct (lockedHas L g)
         end;
  decide_strings;
  try match goal with
      | |- context [pp_titleMn ?p] =>
          destruct (pp_titleMn p) as [[|? ?]|];
          try rewrite lookup_insert_ne by discriminate
      end;
  reflexivity.

(** Every non-lockable field is in the [$set], with the incoming value. *)
Lemma buildUpdateOne_always lm p f :
  In f alwaysSetFields ->
  op_set (buildUpdateOne lm p) !! f = incomingValue p f.
Proof.
  intros Hf. simpl in Hf.
  repeat (destruct Hf as [<-|Hf]; [solve_toSet_lookup|]). contradiction.
Qed.

(** A lockable field is in the [$set] exactly when it is not locked. *)
Lemma buildUpdateOne_lockable lm p f :
  In f LOCKABLE_PRODUCT_FIELDS ->
  op_set (buildUpdateOne lm p) !! f
  = if lockedHas (default [] (lm !! pp_sourceUrl p)) f then None
    else incomingValue p f.
Proof.
  intros Hf. simpl in Hf.
  repeat (destruct Hf as [<-|Hf]; [solve_toSet_lookup|]). contradiction.
Qed.

Lemma buildUpdateOne_lockedFields lm p :
  op_set (buildUpdateOne lm p) !! "lockedFields"%string = None.
Proof. solve_toSet_lookup. Qed.

Lemma incomingValue_is_Some p f :
  In f (alwaysSetFields ++ LOCKABLE_PRODUCT_FIELDS) -> is_Some (incomingValue p f).
Proof.
  intros Hf. simpl in Hf.
  repeat (destruct Hf as [<-|Hf]; [eexists; reflexivity|]). contradiction.
Qed.

Lemma buildUpdateOne_keeps_identity lm p : opKeepsIdentity (buildUpdateOne lm p).
Proof.
  split.
  - rewrite (buildUpdateOne_always lm p "store"); [reflexivity|]. simpl. auto.
  - rewrite (buildUpdateOne_always lm p "sourceUrl"); [reflexivity|]. simpl. auto.
Qed.

Lemma buildUpdateOne_identity lm p :
  opIdentity (buildUpdateOne lm p) = productIdentity p.
Proof. reflexivity. Qed.

Lemma autoTranslate_keeps enabled tr existing p :
  let p' := autoTranslate enabled tr existing p in
  productIdentity p' = productIdentity p
  /\ pp_sourceUrl p' = pp_sourceUrl p
  /\ forall f, incomingValue p' f = incomingValue p f.
Proof.
  unfold autoTranslate. destruct (enabled && _); [|auto].
  destruct (tr p); auto.
Qed.

Lemma mergeOps_keep_identity cfg batch (db : Collection) :
  Forall opKeepsIdentity (mergeOps cfg batch db).
Proof.
  unfold mergeOps. apply Forall_forall. intros op Hin%list_elem_of_In.
  apply in_map_iff in Hin as (p & <- & _). apply buildUpdateOne_keeps_identity.
Qed.

Lemma mergeOps_identities cfg batch (db : Collection) :
  map opIdentity (mergeOps cfg batch db) = map productIdentity batch.
Proof.
  unfold mergeOps. rewrite !map_map. apply map_ext. intros p.
  rewrite buildUpdateOne_identity. apply autoTranslate_keeps.
Qed.

(** C3.  Merging a batch and then merging the same batch again (whatever
    the translator answers on either run) inserts nothing the second time:
    the first run keeps the stored identities in place and appends new
    ones, each once and none that was stored; the second run finds every
    identity and leaves the list of identities as it is. *)
Theorem merge_twice_inserts_nothing (cfg1 cfg2 : MergeConfig)
    (batch : list ProcessedProduct) (db : Collection) :
  let '(db1, stats1) := mergeImport cfg1 batch db in
  let '(db2, stats2) := mergeImport cfg2 batch db1 in
  inserted stats2 = 0
  /\ stats_upsertedIds stats2 = []
  /\ matched stats2 = length batch
  /\ identities db2 = identities db1
  /\ exists new,
       identities db1 = identities db ++ new
       /\ NoDup new
       /\ Forall (fun id => ~ In id (identities db)) new
       /\ inserted stats1 = length new.
Proof.
  unfold mergeImport, bulkWrite.
  pose proof (bulkWrite_identities (mergeOps cfg1 batch db)
                (mergeOps_keep_identity cfg1 batch db) db
                (mkBulkResult 0 0 0 [])) as H1.
  revert H1.
  destruct (fold_left applyUpdateOne (mergeOps cfg1 batch db) _) as [db1 r1].
  intros (new & Hids & Hnd & Hfresh & Hcount & Hall).
  assert (Hpresent : Forall (fun op => In (opIdentity op) (identities db1))
                            (mergeOps cfg2 batch db1)).
  { apply Forall_forall. intros op Hop%list_elem_of_In.
    assert (Hid : In (opIdentity op) (map productIdentity batch)).
    { rewrite <- (mergeOps_identities cfg2 batch db1). apply in_map. exact Hop. }
    rewrite <- (mergeOps_identities cfg1 batch db) in Hid.
    apply in_map_iff in Hid as (op1 & Heq & Hop1). rewrite <- Heq.
    rewrite Forall_forall in Hall. apply Hall, list_elem_of_In, Hop1. }
  pose proof (bulkWrite_all_present (mergeOps cfg2 batch db1)
                (mergeOps_keep_identity cfg2 batch db1) db1
                (mkBulkResult 0 0 0 []) Hpresent) as H2.
  revert H2.
  destruct (fold_left applyUpdateOne (mergeOps cfg2 batch db1) _) as [db2 r2].
  intros (Hi2 & Hl2 & Hc2 & Hu2 & Hm2). cbn.
  split; [exact Hc2|]. split; [exact Hu2|]. split.
  - rewrite Hm2. simpl. unfold mergeOps. rewrite !length_map. reflexivity.
  - split; [exact Hi2|]. exists new. auto.
Qed.

(** Hence no identity is ever stored twice. *)
Corollary merge_keeps_identities_unique cfg batch (db : Collection) :
  NoDup (identities db) -> NoDup (identities (mergeImport cfg batch db).1).
Proof.
  intros Hnd. unfold mergeImport, bulkWrite.
  pose proof (bulkWrite_identities (mergeOps cfg batch db)
                (mergeOps_keep_identity cfg batch db) db
                (mkBulkResult 0 0 0 [])) as H1.
  revert H1.
  destruct (fold_left applyUpdateOne (mergeOps cfg batch db) _) as [db1 r1].
  intros (new & Hids & Hnew & Hfresh & _). cbn [fst]. rewrite Hids.
  apply NoDup_app. split; [exact Hnd|]. split; [|exact Hnew].
  intros x Hx%list_elem_of_In Hx'. rewrite Forall_forall in Hfresh.
  exact (Hfresh x Hx' Hx).
Qed.

(** ** The merge step: what happens to one stored document *)

Lemma applyTo_identity id0 (d : Doc) op :
  opKeepsIdentity op -> docIdentity d = id0 ->
  docIdentity (applyTo id0 d op) = id0.
Proof.
  intros [Hs Hu] Hd. unfold applyTo.
  destruct (bool_decide (opIdentity op = id0)) eqn:Hb; [|exact Hd].
  apply bool_decide_eq_true in Hb. rewrite <- Hb.
  exact (union_keeps_identity _ _ _ _ Hs Hu).
Qed.

Lemma applyUpdateOne_lookup (db : Collection) r op i d0 :
  opKeepsIdentity op -> NoDup (identities db) -> db !! i = Some d0 ->
  (applyUpdateOne (db, r) op).1 !! i = Some (applyTo (docIdentity d0) d0 op)
  /\ NoDup (identities (applyUpdateOne (db, r) op).1).
Proof.
  intros Hk Hnd Hi. unfold applyUpdateOne, applyTo.
  destruct (updateFirst _ _ _ db) as [[db' m]|] eqn:Hup; cbn [fst].
  - split.
    + rewrite (updateFirst_lookup _ _ _ db db' m i d0 Hnd Hup Hi). reflexivity.
    + destruct Hk as [Hs Hu].
      destruct (updateFirst_identities _ _ _ _ _ _ Hs Hu Hup) as [-> _].
      exact Hnd.
  - apply updateFirst_None in Hup. split.
    + rewrite lookup_app_l by (apply lookup_lt_Some in Hi; exact Hi).
      rewrite bool_decide_eq_false_2; [exact Hi|].
      intros Heq. apply Hup. unfold opIdentity in Heq. rewrite Heq.
      exact (identities_lookup db i d0 Hi).
    + rewrite identities_app. simpl. rewrite (insertedDoc_identity op Hk).
      apply NoDup_app. split; [exact Hnd|]. split; [|apply NoDup_singleton].
      intros x Hx%list_elem_of_In Hx'%list_elem_of_In.
      destruct Hx' as [<-|[]]. exact (Hup Hx).
Qed.

(** The document at position [i] goes through the operations that filter
    on its identity, and through no other. *)
Lemma bulkWrite_lookup ops :
  Forall opKeepsIdentity ops ->
  forall (db : Collection) r i d0,
    NoDup (identities db) -> db !! i = Some d0 ->
    (fold_left applyUpdateOne ops (db, r)).1 !! i
    = Some (fold_left (applyTo (docIdentity d0)) ops d0).
Proof.
  induction 1 as [|op ops Hk Hks IH]; intros db r i d0 Hnd Hi; cbn [fold_left].
  - exact Hi.
  - destruct (applyUpdateOne_lookup db r op i d0 Hk Hnd Hi) as [Hl Hnd'].
    destruct (applyUpdateOne (db, r) op) as [db1 r1]. cbn [fst] in Hl, Hnd'.
    rewrite (IH db1 r1 i _ Hnd' Hl).
    rewrite (applyTo_identity (docIdentity d0) d0 op Hk eq_refl). reflexivity.
Qed.

Lemma applyTo_fold_untouched id0 (f : string) ops :
  forall d : Doc,
    Forall (fun op => opIdentity op = id0 -> op_set op !! f = None) ops ->
    fold_left (applyTo id0) ops d !! f = d !! f.
Proof.
  induction ops as [|op ops IH]; intros d Hall; [reflexivity|].
  apply Forall_cons in Hall as [Hop Hall]. cbn [fold_left].
  rewrite (IH _ Hall). unfold applyTo.
  destruct (bool_decide (opIdentity op = id0)) eqn:Hb; [|reflexivity].
  apply bool_decide_eq_true in Hb.
  rewrite lookup_union_r; [reflexivity|]. exact (Hop Hb).
Qed.

Lemma applyTo_fold_others id0 ops :
  forall d : Doc,
    Forall (fun op => opIdentity op <> id0) ops ->
    fold_left (applyTo id0) ops d = d.
Proof.
  induction ops as [|op ops IH]; intros d Hall; [reflexivity|].
  apply Forall_cons in Hall as [Hop Hall]. cbn [fold_left].
  rewrite (IH _ Hall). unfold applyTo.
  rewrite bool_decide_eq_false_2 by exact Hop. reflexivity.
Qed.

Lemma applyTo_fold_last id0 (f : string) ops1 op ops2 (d : Doc) :
  opIdentity op = id0 -> is_Some (op_set op !! f) ->
  Forall (fun op' => opIdentity op' <> id0) ops2 ->
  fold_left (applyTo id0) (ops1 ++ op :: ops2) d !! f = op_set op !! f.
Proof.
  intros Hid [v Hv] Hothers. rewrite fold_left_app. cbn [fold_left].
  rewrite (applyTo_fold_others id0 ops2 _ Hothers). unfold applyTo.
  rewrite bool_decide_eq_true_2 by exact Hid.
  rewrite Hv. exact (lookup_union_Some_l _ _ _ _ Hv).
Qed.

Lemma NoDup_identities_inj (db : Collection) d d' :
  NoDup (identities db) -> In d db -> In d' db ->
  docIdentity d = docIdentity d' -> d = d'.
Proof.
  induction db as [|x rest IH]; simpl; [contradiction|].
  intros Hnd%NoDup_cons Hd Hd' Heq. destruct Hnd as [Hnotin Hnd].
  destruct Hd as [->|Hd], Hd' as [->|Hd']; auto.
  - exfalso. apply Hnotin, list_elem_of_In. rewrite Heq.
    apply in_map. exact Hd'.
  - exfalso. apply Hnotin, list_elem_of_In. rewrite <- Heq.
    apply in_map. exact Hd.
Qed.

Lemma fold_insert_lookup {A} (key : A -> jsstring) (val : A -> list jsstring)
    (k : jsstring) (v : list jsstring) (l : list A) :
  forall acc : gmap jsstring (list jsstring),
    (forall x, In x l -> key x = k -> val x = v) ->
    (exists x, In x l /\ key x = k) \/ acc !! k = Some v ->
    fold_left (fun m x => <[key x := val x]> m) l acc !! k = Some v.
Proof.
  induction l as [|x l IH]; intros acc Hval Hex; simpl.
  - destruct Hex as [(x & [] & _)|Hacc]. exact Hacc.
  - apply IH; [intros y Hy; apply Hval; right; exact Hy|].
    destruct (decide (key x = k)) as [Hk|Hk].
    + right. rewrite Hk, lookup_insert_eq. f_equal. apply Hval; [left|]; auto.
    + destruct Hex as [(y & [->|Hy] & Hyk)|Hacc].
      * contradiction.
      * left. exists y. auto.
      * right. rewrite lookup_insert_ne by exact Hk. exact Hacc.
Qed.

Lemma findExisting_In store sourceUrls (db : Collection) d :
  In d (findExisting store sourceUrls db)
  <-> In d db /\ docStore d = Some (VStr store)
      /\ exists u, In u sourceUrls /\ docSourceUrl d = Some (VStr u).
Proof.
  unfold findExisting. rewrite <- !list_elem_of_In, list_elem_of_filter.
  rewrite Is_true_true, andb_true_iff, bool_decide_eq_true, existsb_exists.
  split.
  - intros [[Hs (u & Hu & Hb)] Hd]. apply bool_decide_eq_true in Hb. eauto 6.
  - intros (Hd & Hs & u & Hu & Hb). split; [|exact Hd]. split; [exact Hs|].
    exists u. split; [exact Hu|]. apply bool_decide_eq_true. exact Hb.
Qed.

(** Under unique identities the preloaded map gives, for the sourceUrl of
    a stored document of the requested store, that document's LockSet. *)
Lemma lockedFieldsMap_lookup store sourceUrls (db : Collection) d0 u :
  NoDup (identities db) -> In d0 db -> In u sourceUrls ->
  docIdentity d0 = (Some (VStr store), Some (VStr u)) ->
  buildLockedFieldsMap (findExisting store sourceUrls db) !! u
  = Some (docLockedFields d0).
Proof.
  intros Hnd Hd0 Hu Hid. injection Hid as Hs0 Hu0.
  unfold buildLockedFieldsMap. apply fold_insert_lookup.
  - intros d Hd Hk. apply findExisting_In in Hd as (Hd & Hs & u' & _ & Hu').
    f_equal. apply (NoDup_identities_inj db d d0 Hnd Hd Hd0).
    unfold docIdentity. rewrite Hs, Hs0, Hu0, Hu'.
    unfold docSourceUrlString in Hk. rewrite Hu' in Hk. subst u'. reflexivity.
  - left. exists d0. split.
    + apply findExisting_In. eauto 6.
    + unfold docSourceUrlString. rewrite Hu0. reflexivity.
Qed.

(** C2.  Let a stored record have [price] in its LockSet, and let a batch
    of the requested store be merged in which [p] is the last incoming
    record with that record's identity.  The stored price is left as it
    was, every non-lockable field (store, categoryKey, sourceUrl, currency,
    imagesOriginal, descriptionOriginal, langOriginal, langTranslated) holds
    the incoming value, and every lockable field holds the incoming value
    when it is unlocked and its stored value when it is locked; the
    LockSet itself is not touched. *)
Theorem merge_respects_price_lock (cfg : MergeConfig)
    (before after : list ProcessedProduct) (p : ProcessedProduct)
    (db : Collection) (i : nat) (d0 : Doc) :
  NoDup (identities db) ->
  Forall (fun q => pp_store q = params_store cfg) (before ++ p :: after) ->
  Forall (fun q => pp_sourceUrl q <> pp_sourceUrl p) after ->
  db !! i = Some d0 ->
  docIdentity d0 = productIdentity p ->
  lockedHas (docLockedFields d0) "price" = true ->
  exists d1 : Doc,
    (mergeImport cfg (before ++ p :: after) db).1 !! i = Some d1
    /\ d1 !! "price"%string = d0 !! "price"%string
    /\ Forall (fun f => d1 !! f = incomingValue p f) alwaysSetFields
    /\ Forall (fun f => d1 !! f = if lockedHas (docLockedFields d0) f
                                  then d0 !! f else incomingValue p f)
              LOCKABLE_PRODUCT_FIELDS
    /\ docLockedFields d1 = docLockedFields d0.
Proof.
  intros Hnd Hstore Hafter Hi Hid Hlock.
  set (batch := before ++ p :: after) in *.
  assert (Hp : In p batch) by (apply in_or_app; right; left; reflexivity).
  assert (Hpstore : pp_store p = params_store cfg).
  { rewrite Forall_forall in Hstore. apply Hstore, list_elem_of_In, Hp. }
  pose proof (bulkWrite_lookup (mergeOps cfg batch db)
                (mergeOps_keep_identity cfg batch db) db
                (mkBulkResult 0 0 0 []) i d0 Hnd Hi) as Hl.
  unfold mergeImport, bulkWrite. revert Hl.
  destruct (fold_left applyUpdateOne (mergeOps cfg batch db) _) as [db' res].
  cbn [fst]. intros Hl. eexists. split; [exact Hl|]. clear Hl db' res.
  rewrite Hid.
  (* the operations, and the LockSet they were built with *)
  unfold mergeOps.
  set (existing := findExisting (params_store cfg) (map pp_sourceUrl batch) db).
  set (lm := buildLockedFieldsMap existing).
  set (tr := autoTranslate (autoTranslateTitleMn cfg) (translateTitleToMn cfg)
                           existing).
  assert (Hlm : lm !! pp_sourceUrl p = Some (docLockedFields d0)).
  { apply lockedFieldsMap_lookup; auto.
    - apply list_elem_of_In, list_elem_of_lookup. eauto.
    - apply in_map. exact Hp.
    - rewrite Hid, <- Hpstore. reflexivity. }
  assert (Hlocks : forall q, productIdentity q = productIdentity p ->
            default [] (lm !! pp_sourceUrl (tr q)) = docLockedFields d0).
  { intros q Hq. injection Hq as _ Hu.
    destruct (autoTranslate_keeps (autoTranslateTitleMn cfg)
                (translateTitleToMn cfg) existing q) as (_ & Hsrc & _).
    fold tr in Hsrc. rewrite Hsrc, Hu, Hlm. reflexivity. }
  assert (Huntouched : forall f,
            (In f LOCKABLE_PRODUCT_FIELDS
             /\ lockedHas (docLockedFields d0) f = true)
            \/ f = "lockedFields"%string ->
            fold_left (applyTo (productIdentity p))
              (map (buildUpdateOne lm) (map tr batch)) d0 !! f = d0 !! f).
  { intros f Hf. apply applyTo_fold_untouched, Forall_forall.
    intros op Hop%list_elem_of_In.
    apply in_map_iff in Hop as (q' & <- & Hq').
    apply in_map_iff in Hq' as (q & <- & Hq).
    rewrite buildUpdateOne_identity. intros Hq_id.
    assert (Hq_id' : productIdentity q = productIdentity p).
    { rewrite <- Hq_id. symmetry. apply autoTranslate_keeps. }
    destruct Hf as [[Hf Hlocked]| ->].
    + rewrite (buildUpdateOne_lockable lm (tr q) f Hf), (Hlocks q Hq_id'), Hlocked.
      reflexivity.
    + apply buildUpdateOne_lockedFields. }
  assert (Hwritten : forall f,
            is_Some (op_set (buildUpdateOne lm (tr p)) !! f) ->
            fold_left (applyTo (productIdentity p))
              (map (buildUpdateOne lm) (map tr batch)) d0 !! f
            = op_set (buildUpdateOne lm (tr p)) !! f).
  { intros f Hsome. subst batch. rewrite !map_app. cbn [map].
    apply applyTo_fold_last; [|exact Hsome|].
    - rewrite buildUpdateOne_identity. apply autoTranslate_keeps.
    - apply Forall_forall. intros op Hop%list_elem_of_In.
      apply in_map_iff in Hop as (q' & <- & Hq').
      apply in_map_iff in Hq' as (q & <- & Hq).
      rewrite buildUpdateOne_identity. intros Hq_id.
      assert (Hq_id' : productIdentity q = productIdentity p).
      { rewrite <- Hq_id. symmetry. apply autoTranslate_keeps. }
      injection Hq_id' as _ Hu. rewrite Forall_forall in Hafter.
      exact (Hafter q (proj2 (list_elem_of_In _ _) Hq) Hu). }
  destruct (autoTranslate_keeps (autoTranslateTitleMn cfg)
              (translateTitleToMn cfg) existing p) as (_ & _ & Hval).
  fold tr in Hval.
  split; [|split; [|split]].
  - apply Huntouched. left. split; [simpl; auto|exact Hlock].
  - apply Forall_forall. intros f Hf%list_elem_of_In.
    assert (Hset : op_set (buildUpdateOne lm (tr p)) !! f = incomingValue p f).
    { rewrite (buildUpdateOne_always lm (tr p) f Hf). apply Hval. }
    rewrite Hwritten; [exact Hset|]. rewrite Hset.
    apply incomingValue_is_Some, in_or_app. left. exact Hf.
  - apply Forall_forall. intros f Hf%list_elem_of_In.
    destruct (lockedHas (docLockedFields d0) f) eqn:Hlocked.
    + apply Huntouched. left. split; assumption.
    + assert (Hset : op_set (buildUpdateOne lm (tr p)) !! f = incomingValue p f).
      { rewrite (buildUpdateOne_lockable lm (tr p) f Hf), (Hlocks p eq_refl),
          Hlocked. apply Hval. }
      rewrite Hwritten; [exact Hset|]. rewrite Hset.
      apply incomingValue_is_Some, in_or_app. right. exact Hf.
  - unfold docLockedFields. rewrite Huntouched; [reflexivity|]. right. reflexivity.
Qed.

Lemma merge_respects_price_lock_witness :
  exists d1 : Doc,
    (mergeImport exampleMergeConfig ([] ++ incomingProduct :: []) [lockedDoc]).1
      !! 0 = Some d1
    /\ d1 !! "price"%string = lockedDoc !! "price"%string
    /\ Forall (fun f => d1 !! f = incomingValue incomingProduct f) alwaysSetFields
    /\ Forall (fun f => d1 !! f = if lockedHas (docLockedFields lockedDoc) f
                                  then lockedDoc !! f
                                  else incomingValue incomingProduct f)
              LOCKABLE_PRODUCT_FIELDS
    /\ docLockedFields d1 = docLockedFields lockedDoc.
Proof.
  apply (merge_respects_price_lock exampleMergeConfig [] [] incomingProduct
           [lockedDoc] 0 lockedDoc).
  - apply NoDup_singleton.
  - repeat constructor.
  - constructor.
  - reflexivity.
  - vm_compute. reflexivity.
  - vm_compute. reflexivity.
Defined.

(** The same run, computed: the price stays 1000 while the title and the
    original images are replaced. *)
Example merge_locked_price_run :
  let db' := (mergeImport exampleMergeConfig [incomingProduct] [lockedDoc]).1 in
  (db' !! 0) ≫= (fun d => d !! "price"%string) = Some (VNum 1000)
  /\ (db' !! 0) ≫= (fun d => d !! "title"%string) = Some (VStr (js "new title"))
  /\ (db' !! 0) ≫= (fun d => d !! "imagesOriginal"%string)
     = Some (VList [js "https://shop.example.com/i/1.jpg"])
  /\ length db' = 1.
Proof. vm_compute. auto. Qed.

(** ** The title cleaners *)

Lemma startsWith_prefix (s p : jsstring) :
  startsWith s p = true <-> exists r, s = p ++ r.
Proof.
  revert s. induction p as [|a p IH]; intros s; simpl.
  - split; [intros _; exists s; reflexivity | reflexivity].
  - destruct s as [|b s]; simpl.
    + split; [discriminate | intros [r Hr]; discriminate Hr].
    + rewrite andb_true_iff, Z.eqb_eq, IH. split.
      * intros [-> [r ->]]. exists r. reflexivity.
      * intros [r [= -> ->]]. split; [reflexivity|]. exists r. reflexivity.
Qed.

(** [indexOf] answers [-1] or a position at which the text occurs. *)
Lemma indexOf_from_found (t : jsstring) :
  forall (s : jsstring) (i : Z),
    indexOf_from i s t = (-1)%Z
    \/ exists n : nat,
         indexOf_from i s t = (i + Z.of_nat n)%Z /\ (n <= length s)%nat
         /\ startsWith (drop n s) t = true.
Proof.
  induction s as [|c s IH]; intros i; simpl.
  - destruct (startsWith [] t) eqn:Hs; [|left; reflexivity].
    right. exists 0%nat. rewrite Z.add_0_r. auto.
  - destruct (startsWith (c :: s) t) eqn:Hs.
    + right. exists 0%nat. rewrite Z.add_0_r. split; [reflexivity|].
      split; [lia|exact Hs].
    + destruct (IH (i + 1)%Z) as [Hnone|(n & Hn & Hlen & Hst)]; [left; exact Hnone|].
      right. exists (S n). rewrite Hn. split; [lia|]. split; [lia|exact Hst].
Qed.

(** ... and never answers past an occurrence. *)
Lemma indexOf_from_first (t : jsstring) :
  forall (s : jsstring) (i : Z) (n : nat),
    (0 <= i)%Z -> (n <= length s)%nat -> startsWith (drop n s) t = true ->
    (0 <= indexOf_from i s t <= i + Z.of_nat n)%Z.
Proof.
  induction s as [|c s IH]; intros i n Hi Hn Hst; simpl in *.
  - assert (n = 0)%nat as -> by lia. simpl in Hst. rewrite Hst. lia.
  - destruct (startsWith (c :: s) t) eqn:Hs; [lia|].
    destruct n as [|n]; [simpl in Hst; congruence|]. simpl in Hst.
    specialize (IH (i + 1)%Z n ltac:(lia) ltac:(lia) Hst). lia.
Qed.

Lemma includes_take (s t : jsstring) (n : nat) :
  t <> [] -> includes (take n s) t = true ->
  (0 <= indexOf s t < Z.of_nat n)%Z.
Proof.
  intros Ht Hinc. unfold includes, indexOf in *.
  apply negb_true_iff, Z.eqb_neq in Hinc.
  destruct (indexOf_from_found t (take n s) 0) as [Hnone|(k & _ & Hk & Hst)];
    [contradiction|].
  apply startsWith_prefix in Hst as [r Hr].
  assert (Hlen : (k + length t <= length (take n s))%nat).
  { pose proof (f_equal length Hr) as Hl.
    rewrite length_drop, length_app in Hl. lia. }
  assert (Hpos : (0 < length t)%nat) by (destruct t; [contradiction|simpl; lia]).
  rewrite length_take in Hlen.
  assert (Hocc : startsWith (drop k s) t = true).
  { apply startsWith_prefix. exists (r ++ drop n s).
    rewrite app_assoc, <- Hr, <- (take_drop n s) at 1.
    rewrite drop_app_le by (rewrite length_take; lia). reflexivity. }
  pose proof (indexOf_from_first t s 0 k ltac:(lia) ltac:(lia) Hocc). lia.
Qed.

Lemma earliest_fold (s : jsstring) (tokens : list jsstring) :
  forall init : Z,
    let step := fun earliestIndex token =>
      let index := indexOf s token in
      if (negb (index =? -1) && (index <? earliestIndex))%Z
      then index else earliestIndex in
    (0 <= init)%Z ->
    (0 <= fold_left step tokens init <= init)%Z
    /\ Forall (fun t => indexOf s t <> (-1)%Z ->
                        (fold_left step tokens init <= indexOf s t)%Z) tokens.
Proof.
  induction tokens as [|t tokens IH]; intros init step Hinit; simpl.
  - split; [lia|constructor].
  - assert (Hidx : indexOf s t = (-1)%Z \/ (0 <= indexOf s t)%Z).
    { unfold indexOf. destruct (indexOf_from_found t s 0) as [H|(n & -> & _)];
        [left; exact H|right; lia]. }
    assert (Hstep : (0 <= step init t <= init)%Z
                    /\ (indexOf s t <> (-1)%Z -> step init t <= indexOf s t)%Z).
    { subst step. cbv beta zeta.
      destruct (Z.eqb_spec (indexOf s t) (-1)); simpl; [lia|].
      destruct (Z.ltb_spec (indexOf s t) init); lia. }
    destruct Hstep as [Hrange Hle].
    destruct (IH (step init t) ltac:(lia)) as [Hr Hall]. fold step in Hr, Hall.
    split; [lia|]. constructor; [|exact Hall].
    intros Hne. specialize (Hle Hne). lia.
Qed.

(** Cutting at [earliestPromoIndex] leaves a text in which no promotional
    token occurs. *)
Lemma truncation_removes_tokens (s : jsstring) :
  Forall (fun token => includes (substring0 s (earliestPromoIndex s)) token = false)
         promoTokens.
Proof.
  assert (Hspec : (0 <= earliestPromoIndex s <= Z.of_nat (length s))%Z
                  /\ Forall (fun t => indexOf s t <> (-1)%Z ->
                                (earliestPromoIndex s <= indexOf s t)%Z)
                            promoTokens)
    by exact (earliest_fold s promoTokens (Z.of_nat (length s)) ltac:(lia)).
  destruct Hspec as [Hrange Hall].
  assert (Hne : Forall (fun t : jsstring => t <> []) promoTokens)
    by (repeat constructor; discriminate).
  rewrite Forall_forall in Hall, Hne. apply Forall_forall. intros t Ht.
  destruct (includes (substring0 s (earliestPromoIndex s)) t) eqn:Hinc;
    [|reflexivity].
  exfalso. unfold substring0 in Hinc.
  pose proof (includes_take s t _ (Hne t Ht) Hinc) as Hidx.
  assert (Hfound : indexOf s t <> (-1)%Z) by lia.
  specialize (Hall t Ht Hfound). lia.
Qed.

(** *** Occurrences *)

Lemma includes_iff (s t : jsstring) :
  includes s t = true <-> exists a b, s = a ++ t ++ b.
Proof.
  unfold includes, indexOf. rewrite negb_true_iff, Z.eqb_neq. split.
  - intros Hne.
    destruct (indexOf_from_found t s 0) as [H|(n & _ & Hn & Hst)]; [contradiction|].
    apply startsWith_prefix in Hst as [r Hr]. exists (take n s), r.
    rewrite <- Hr. symmetry. apply take_drop.
  - intros (a & b & ->).
    assert (Hst : startsWith (drop (length a) (a ++ t ++ b)) t = true).
    { rewrite drop_app_length. apply startsWith_prefix. eauto. }
    pose proof (indexOf_from_first t (a ++ t ++ b) 0 (length a) ltac:(lia)
                  ltac:(rewrite length_app; lia) Hst). lia.
Qed.

Lemma includes_substring (a m b t : jsstring) :
  includes m t = true -> includes (a ++ m ++ b) t = true.
Proof.
  rewrite !includes_iff. intros (x & y & ->). exists (a ++ x), (y ++ b).
  rewrite <- !app_assoc. reflexivity.
Qed.

Lemma tokenFree_substring (a m b : jsstring) :
  tokenFree (a ++ m ++ b) -> tokenFree m.
Proof.
  unfold tokenFree. intros H. eapply Forall_impl; [exact H|]. intros t Ht.
  cbv beta in *. destruct (includes m t) eqn:E; [|reflexivity].
  apply (includes_substring a m b) in E. congruence.
Qed.

Lemma tokenFree_prefix (p m : jsstring) : tokenFree (p ++ m) -> tokenFree p.
Proof. intros H. apply (tokenFree_substring [] p m). exact H. Qed.

Lemma tokenFree_suffix (a m : jsstring) : tokenFree (a ++ m) -> tokenFree m.
Proof.
  intros H. apply (tokenFree_substring a m []). rewrite app_nil_r. exact H.
Qed.

Lemma trimStart_suffix (s : jsstring) : exists a, s = a ++ trimStart s.
Proof.
  induction s as [|c s [a Ha]]; simpl; [exists []; reflexivity|].
  destruct (isWhiteSpace c); [|exists []; reflexivity].
  exists (c :: a). simpl. rewrite <- Ha. reflexivity.
Qed.

Lemma trimStart_length (s : jsstring) : (length (trimStart s) <= length s)%nat.
Proof.
  destruct (trimStart_suffix s) as [a Ha]. rewrite Ha at 2.
  rewrite length_app. lia.
Qed.

Lemma trim_substring (s : jsstring) : exists a b, s = a ++ trim s ++ b.
Proof.
  unfold trim, trimEnd. destruct (trimStart_suffix s) as [a Ha].
  destruct (trimStart_suffix (rev (trimStart s))) as [b Hb].
  exists a, (rev b). rewrite <- rev_app_distr, <- Hb, rev_involutive. exact Ha.
Qed.

Lemma tokenFree_trim (s : jsstring) : tokenFree s -> tokenFree (trim s).
Proof.
  destruct (trim_substring s) as (a & b & Hs). intros H. rewrite Hs in H.
  exact (tokenFree_substring a (trim s) b H).
Qed.

Lemma tokenFree_nil : tokenFree [].
Proof. vm_compute. repeat constructor. Qed.

(** *** What a match hands to its continuation *)

Lemma starLoop_result {A}
    (body : jsstring -> Captures -> (jsstring -> Captures -> option A) -> option A)
    (g : bool) (k : jsstring -> Captures -> option A) :
  (forall s cap k' x, body s cap k' = Some x -> exists s' c', k' s' c' = Some x) ->
  forall n s cap x,
    starLoop body g k n s cap = Some x -> exists s' c', k s' c' = Some x.
Proof.
  intros Hbody. induction n as [|n IH]; intros s cap x; simpl; [eauto|].
  destruct g; unfold orElse.
  - destruct (body s cap _) as [y|] eqn:E; [|eauto].
    intros [= <-]. apply Hbody in E as (s1 & c1 & E).
    destruct (length s1 <? length s)%nat; [eauto|discriminate].
  - destruct (k s cap) as [y|] eqn:E; [intros [= <-]; eauto|].
    intros H. apply Hbody in H as (s1 & c1 & H).
    destruct (length s1 <? length s)%nat; [eauto|discriminate].
Qed.

Lemma rmatch_result {A} (r : regex) :
  forall s cap (k : jsstring -> Captures -> option A) x,
    rmatch r s cap k = Some x -> exists s' c', k s' c' = Some x.
Proof.
  induction r as [p| |r1 IH1 r2 IH2|r1 IH1 r2 IH2|g r IH|i r IH|];
    intros s cap k x; simpl.
  - destruct s as [|c s]; [discriminate|]. destruct (p c); [eauto|discriminate].
  - eauto.
  - intros H. apply IH1 in H as (s1 & c1 & H). exact (IH2 _ _ _ _ H).
  - unfold orElse. destruct (rmatch r1 s cap k) as [y|] eqn:E.
    + intros [= <-]. exact (IH1 _ _ _ _ E).
    + apply IH2.
  - apply starLoop_result. exact IH.
  - intros H. apply IH in H as (s1 & c1 & H). eauto.
  - destruct s; [eauto|discriminate].
Qed.

(** A pattern that ends in [$] matches up to the end of the input. *)
Lemma rexec_end_anchored (rs : list regex) :
  forall s cap0 rest cap,
    rmatch (RSeq (rs ++ [REnd])) s cap0 matchEnd = Some (rest, cap) -> rest = [].
Proof.
  induction rs as [|r rs IH]; intros s cap0 rest cap; simpl.
  - destruct s; [|discriminate]. unfold matchEnd. intros [= <- _]. reflexivity.
  - intros H. apply rmatch_result in H as (s1 & c1 & H). exact (IH _ _ _ _ H).
Qed.

Lemma rsearch_prefix (r : regex) :
  forall s acc p rest cap,
    rsearch r acc s = Some (p, rest, cap) ->
    exists at_, rev acc ++ s = p ++ at_ /\ rexec r at_ = Some (rest, cap).
Proof.
  induction s as [|c s IH]; intros acc p rest cap; simpl.
  - destruct (rexec r []) as [[rest' cap']|] eqn:E; [|discriminate].
    intros [= <- <- <-]. eauto.
  - destruct (rexec r (c :: s)) as [[rest' cap']|] eqn:E.
    + intros [= <- <- <-]. eauto.
    + intros H. apply IH in H as (at_ & Hat & Hex). exists at_. split; [|exact Hex].
      rewrite <- Hat. simpl. rewrite <- app_assoc. reflexivity.
Qed.

(** Removing the trailing bracket keeps a prefix of the text. *)
Lemma replaceFirst_bracket_prefix (s : jsstring) :
  exists m, s = replaceFirst_empty bracketPattern s ++ m.
Proof.
  unfold replaceFirst_empty.
  destruct (rsearch bracketPattern [] s) as [[[p rest] cap]|] eqn:E.
  - apply rsearch_prefix in E as (at_ & Hat & Hex). simpl in Hat.
    assert (Hrest : rest = []).
    { apply (rexec_end_anchored
               [ROneOf (js "[("); RGroup 1 (RPlus true (RNot (js "])")));
                ROneOf (js "])"); RStar true RSpace] at_ ∅ rest cap).
      exact Hex. }
    subst rest. rewrite app_nil_r. eauto.
  - exists []. rewrite app_nil_r. reflexivity.
Qed.

(** *** Whitespace normalization *)

Lemma starLoop_whitespace (n : nat) :
  forall s cap, (length s <= n)%nat ->
    starLoop (rmatch RSpace) true matchEnd n s cap = Some (trimStart s, cap).
Proof.
  induction n as [|n IH]; intros s cap Hlen; simpl.
  - destruct s; [reflexivity|simpl in Hlen; lia].
  - destruct s as [|c s]; [reflexivity|]. simpl in *.
    destruct (isWhiteSpace c); [|reflexivity].
    assert (Hlt : (length s <? S (length s))%nat = true) by (apply Nat.ltb_lt; lia).
    rewrite Hlt, IH by lia. reflexivity.
Qed.

Lemma rexec_whitespace (s : jsstring) :
  rexec (RPlus true RSpace) s
  = match s with
    | c :: s' => if isWhiteSpace c then Some (trimStart s', ∅) else None
    | [] => None
    end.
Proof.
  unfold rexec, RPlus. simpl. destruct s as [|c s]; [reflexivity|].
  destruct (isWhiteSpace c); [|reflexivity].
  apply starLoop_whitespace. lia.
Qed.

(** [replace(/\s+/g, " ")] copies the other code units and writes one space
    for each run of whitespace. *)
Lemma replace_whitespace_step (fuel : nat) (s : jsstring) :
  replace_g (S fuel) (RPlus true RSpace) (fun _ => js " ") s
  = match s with
    | [] => []
    | c :: s' =>
        if isWhiteSpace c
        then 32%Z :: replace_g fuel (RPlus true RSpace) (fun _ => js " ")
                       (trimStart s')
        else c :: replace_g fuel (RPlus true RSpace) (fun _ => js " ") s'
    end.
Proof.
  cbn [replace_g]. rewrite rexec_whitespace.
  destruct s as [|c s]; [reflexivity|].
  destruct (isWhiteSpace c); [|reflexivity].
  assert (Hlt : (length (trimStart s) <? length (c :: s))%nat = true).
  { apply Nat.ltb_lt. pose proof (trimStart_length s). simpl. lia. }
  rewrite Hlt. reflexivity.
Qed.

Lemma replace_whitespace_prefix (t : jsstring) :
  wsFree t ->
  forall fuel s, (length s < fuel)%nat ->
    startsWith (replace_g fuel (RPlus true RSpace) (fun _ => js " ") s) t = true ->
    startsWith s t = true.
Proof.
  induction 1 as [|d t Hd Ht IH]; intros fuel s Hfuel; [reflexivity|].
  destruct fuel as [|fuel]; [lia|]. rewrite replace_whitespace_step.
  destruct s as [|c s]; [discriminate|]. simpl in Hfuel.
  destruct (isWhiteSpace c) eqn:Hc; simpl.
  - intros H. apply andb_true_iff in H as [Heq _]. apply Z.eqb_eq in Heq.
    subst d. discriminate Hd.
  - intros H. apply andb_true_iff in H as [Heq Hrest]. rewrite Heq. simpl.
    apply (IH fuel s); [lia|exact Hrest].
Qed.

Lemma includes_cons (x : Z) (l t : jsstring) :
  includes (x :: l) t = true ->
  startsWith (x :: l) t = true \/ includes l t = true.
Proof.
  rewrite !includes_iff. intros (a & b & Hs). destruct a as [|y a].
  - left. apply startsWith_prefix. exists b. exact Hs.
  - right. injection Hs as _ Hl. eauto.
Qed.

Lemma includes_here (s t : jsstring) : startsWith s t = true -> includes s t = true.
Proof.
  intros H. apply startsWith_prefix in H as [r ->]. apply includes_iff.
  exists [], r. reflexivity.
Qed.

Lemma includes_later (x : Z) (l t : jsstring) :
  includes l t = true -> includes (x :: l) t = true.
Proof.
  intros H. apply includes_iff in H as (a & b & ->). apply includes_iff.
  exists (x :: a), b. reflexivity.
Qed.

Lemma includes_suffix (a l t : jsstring) :
  includes l t = true -> includes (a ++ l) t = true.
Proof.
  intros H. pose proof (includes_substring a l [] t H) as H'.
  rewrite app_nil_r in H'. exact H'.
Qed.

(** An occurrence of a text without whitespace in the normalized string is
    an occurrence in the original. *)
Lemma replace_whitespace_includes (t : jsstring) :
  wsFree t -> t <> [] ->
  forall fuel s, (length s < fuel)%nat ->
    includes (replace_g fuel (RPlus true RSpace) (fun _ => js " ") s) t = true ->
    includes s t = true.
Proof.
  intros Hws Hne. induction fuel as [|fuel IH]; intros s Hfuel; [lia|].
  rewrite replace_whitespace_step. destruct s as [|c s]; [auto|].
  simpl in Hfuel. destruct (isWhiteSpace c) eqn:Hc.
  - intros H. apply includes_cons in H as [H|H].
    + destruct t as [|d t]; [contradiction|]. simpl in H.
      apply andb_true_iff in H as [Heq _]. apply Z.eqb_eq in Heq. subst d.
      apply Forall_cons in Hws as [Hd _]. discriminate Hd.
    + pose proof (trimStart_length s).
      apply IH in H; [|lia].
      destruct (trimStart_suffix s) as [a Ha]. rewrite Ha.
      apply includes_later, includes_suffix. exact H.
  - intros H. apply includes_cons in H as [H|H].
    + apply includes_here.
      apply (replace_whitespace_prefix t Hws (S fuel) (c :: s));
        [simpl; lia|].
      rewrite replace_whitespace_step, Hc. exact H.
    + apply includes_later. apply IH; [lia|exact H].
Qed.

Lemma promoTokens_wsFree : Forall (fun t => wsFree t /\ t <> []) promoTokens.
Proof.
  repeat constructor; try discriminate.
Qed.

Lemma tokenFree_normalizeWhitespace (s : jsstring) :
  tokenFree s -> tokenFree (normalizeWhitespace s).
Proof.
  intros H. unfold normalizeWhitespace. destruct s as [|c s]; [exact H|].
  apply tokenFree_trim. unfold tokenFree in *.
  pose proof promoTokens_wsFree as Hw.
  rewrite Forall_forall in H, Hw. apply Forall_forall. intros t Ht.
  destruct (Hw t Ht) as [Hws Hne]. specialize (H t Ht). cbv beta in *.
  destruct (includes (replaceAll _ _ _) t) eqn:E; [|reflexivity].
  unfold replaceAll in E.
  apply (replace_whitespace_includes t Hws Hne) in E; [congruence|lia].
Qed.

(** *** The promotional-token cleanup *)

Lemma tokenFree_cut (s : jsstring) :
  tokenFree (if (earliestPromoIndex s <? Z.of_nat (length s))%Z
             then trim (substring0 s (earliestPromoIndex s)) else s).
Proof.
  pose proof (truncation_removes_tokens s) as Hcut.
  destruct (Z.ltb_spec (earliestPromoIndex s) (Z.of_nat (length s))).
  - apply tokenFree_trim. exact Hcut.
  - assert (Hspec : (0 <= earliestPromoIndex s <= Z.of_nat (length s))%Z)
      by exact (proj1 (earliest_fold s promoTokens (Z.of_nat (length s))
                         ltac:(lia))).
    assert (He : earliestPromoIndex s = Z.of_nat (length s)) by lia.
    rewrite He in Hcut. unfold substring0 in Hcut.
    rewrite Nat2Z.id, firstn_all in Hcut. exact Hcut.
Qed.

(** The text [shortenKoreanProductTitle] returns contains no promotional
    token, whatever the title. *)
Lemma shortenKoreanProductTitle_tokenFree toLowerCase (title : jsstring) :
  tokenFree (shortenKoreanProductTitle toLowerCase title).
Proof.
  unfold shortenKoreanProductTitle.
  destruct title as [|c title]; [exact tokenFree_nil|].
  destruct (trim (c :: title)) as [|c' result0]; [exact tokenFree_nil|].
  cbv zeta.
  set (result := replaceAll volumeTimesRe group1
                   (replaceAll volumePlusRe group1 (c' :: result0))).
  pose proof (tokenFree_cut result) as Hcut.
  set (cut := if (earliestPromoIndex result <? Z.of_nat (length result))%Z
              then trim (substring0 result (earliestPromoIndex result))
              else result) in *.
  apply tokenFree_normalizeWhitespace.
  destruct (rsearch bracketPattern [] cut) as [[[pre rest] cap]|]; [|exact Hcut].
  destruct (existsb _ promoTokens); [|exact Hcut].
  apply tokenFree_trim.
  destruct (replaceFirst_bracket_prefix cut) as [m Hm].
  rewrite Hm in Hcut. exact (tokenFree_prefix _ _ Hcut).
Qed.

(** *** The fallback of the AI title cleaner *)

Lemma buildFallbackQuery_shape toLowerCase title brand :
  buildFallbackQuery toLowerCase title brand
  = match usableBrand brand, normalizeWhitespace title with
    | Some b, (_ :: _) as t =>
        if startsWith (toLowerCase t) (toLowerCase b) then t
        else normalizeWhitespace (b ++ js " " ++ t)
    | _, t => t
    end.
Proof.
  unfold buildFallbackQuery. destruct title as [|c title].
  - destruct (usableBrand brand); reflexivity.
  - destruct (normalizeWhitespace (c :: title)); destruct (usableBrand brand);
      reflexivity.
Qed.

(** Whatever the case mapping, the promotional-token cleanup leaves the
    opening bracket of the example title behind. *)
Lemma shortenKoreanProductTitle_promoTitle toLowerCase :
  shortenKoreanProductTitle toLowerCase promoTitle = js "브랜드 [".
Proof. vm_compute. reflexivity. Qed.

(** The other cases of the repository's test table for
    [shortenKoreanProductTitle], and a trailing bracket that is removed. *)
Example shortenKoreanProductTitle_tests :
  Forall (fun t => shortenKoreanProductTitle asciiLower (js t.1) = js t.2)
    [ ("메디힐 마데카소사이드 흔적 리페어 세럼 40ml+40ml 더블 기획",
       "메디힐 마데카소사이드 흔적 리페어 세럼 40ml");
      ("제품명 40ml+40ml 더블", "제품명 40ml");
      ("제품명 40ml x 2", "제품명 40ml");
      ("제품명 40ml*2", "제품명 40ml");
      ("메디힐 마데카소사이드 세럼 40ml", "메디힐 마데카소사이드 세럼 40ml");
      ("제품명 30ml 세트 구성", "제품명 30ml");
      ("제품명   30ml   더블", "제품명 30ml");
      ("제품명 30ml (MINI)", "제품명 30ml") ]%string.
Proof. repeat constructor. Qed.

(** C9, as the specification states it, fails on its own example: with the
    AI path disabled, or enabled and failing, the fallback returns the
    title as it is, not ["브랜드"]; and the promotional-token cleanup of
    searchQuery.ts returns ["브랜드 ["]. *)
Lemma fallback_cleanup_counterexample :
  cr_query (cleanImageSearchQuery asciiLower (mkCleanerConfig false true 2000)
              [] AiFailed promoTitle None None).1 = promoTitle
  /\ cr_query (cleanImageSearchQuery asciiLower (mkCleanerConfig true true 2000)
                 [] AiFailed promoTitle None None).1 = promoTitle
  /\ promoTitle <> js "브랜드"
  /\ shortenKoreanProductTitle asciiLower promoTitle = js "브랜드 ["
  /\ js "브랜드 [" <> js "브랜드".
Proof. vm_compute. repeat split; try reflexivity; discriminate. Qed.

(** C9, amended.  When AI title cleaning is disabled, has no key, or fails
    (for a non-blank title not yet cached), [cleanImageSearchQuery] answers
    [buildFallbackQuery]: the title with its whitespace normalized, behind
    the trimmed brand when there is one and the title does not already
    start with it (compared in lower case).  No promotional token is cut
    and no bracket removed on this path.  The cut at the earliest
    promotional token is the one [shortenKoreanProductTitle] makes, and the
    text that function returns contains no promotional token. *)
Theorem fallback_cleanup_amended (toLowerCase : jsstring -> jsstring)
    (cfg : CleanerConfig) (cache : QueryCache) (ai : AiOutcome)
    (title : jsstring) (brand store : option jsstring) :
  aiTitleCleaningEnabled cfg = false \/ geminiApiKeySet cfg = false
  \/ (ai = AiFailed /\ trim title <> []
      /\ cache_get cache (getCacheKey title brand store) = None) ->
  let r := (cleanImageSearchQuery toLowerCase cfg cache ai title brand store).1 in
  cr_method r = MethodFallback
  /\ cr_query r = buildFallbackQuery toLowerCase title brand
  /\ cr_query r
     = match usableBrand brand, normalizeWhitespace title with
       | Some b, (_ :: _) as t =>
           if startsWith (toLowerCase t) (toLowerCase b) then t
           else normalizeWhitespace (b ++ js " " ++ t)
       | _, t => t
       end
  /\ tokenFree (shortenKoreanProductTitle toLowerCase title).
Proof.
  intros Hcase r.
  assert (Hr : cr_method r = MethodFallback
               /\ cr_query r = buildFallbackQuery toLowerCase title brand).
  { subst r. unfold cleanImageSearchQuery.
    destruct (aiTitleCleaningEnabled cfg) eqn:He; [|simpl; auto].
    destruct (geminiApiKeySet cfg) eqn:Hk; [|simpl; auto]. cbn [negb orb].
    destruct Hcase as [Hc|[Hc|(-> & Ht & Hcache)]]; try discriminate.
    destruct (trim title); [contradiction|]. rewrite Hcache. simpl. auto. }
  destruct Hr as [Hm Hq]. split; [exact Hm|]. split; [exact Hq|]. split.
  - rewrite Hq. apply buildFallbackQuery_shape.
  - apply shortenKoreanProductTitle_tokenFree.
Qed.

Lemma fallback_cleanup_amended_witness :
  cr_query (cleanImageSearchQuery asciiLower (mkCleanerConfig false true 2000)
              [] AiFailed promoTitle None None).1
  = buildFallbackQuery asciiLower promoTitle None.
Proof.
  destruct (fallback_cleanup_amended asciiLower (mkCleanerConfig false true 2000)
              [] AiFailed promoTitle None None (or_introl eq_refl))
    as (_ & H & _).
  exact H.
Defined.

(* ===================================================================== *)
(** * Part III. Further properties of the program                         *)
(* ===================================================================== *)

(** ** Auxiliary facts on the regular-expression matcher and on strings *)

Lemma orElse_Some_l {A} (o : option A) (f : unit -> option A) (v : A) :
  o = Some v -> orElse o f = Some v.
Proof. intros ->. reflexivity. Qed.

Lemma rmatch_cat {A} (r1 r2 : regex) (s : jsstring) (cap : Captures)
    (k : jsstring -> Captures -> option A) :
  rmatch (RCat r1 r2) s cap k = rmatch r1 s cap (fun s1 c1 => rmatch r2 s1 c1 k).
Proof. reflexivity. Qed.

Lemma rmatch_lit {A} (t s : jsstring) (cap : Captures)
    (k : jsstring -> Captures -> option A) :
  rmatch (RLit t) (t ++ s) cap k = k s cap.
Proof.
  revert s. induction t as [|c t IH]; intros s; simpl; [reflexivity|].
  rewrite Z.eqb_refl. apply IH.
Qed.

Lemma rmatch_alt {A} (r1 r2 : regex) (s : jsstring) (cap : Captures)
    (k : jsstring -> Captures -> option A) :
  rmatch (RAlt r1 r2) s cap k
  = orElse (rmatch r1 s cap k) (fun _ => rmatch r2 s cap k).
Proof. reflexivity. Qed.

Lemma rmatch_empty {A} (s : jsstring) (cap : Captures)
    (k : jsstring -> Captures -> option A) :
  rmatch REmpty s cap k = k s cap.
Proof. reflexivity. Qed.

Lemma rmatch_star {A} (g : bool) (r : regex) (s : jsstring) (cap : Captures)
    (k : jsstring -> Captures -> option A) :
  rmatch (RStar g r) s cap k = starLoop (rmatch r) g k (length s) s cap.
Proof. reflexivity. Qed.

Lemma fold_left_cons {A B} (f : A -> B -> A) (x : B) (l : list B) (a : A) :
  fold_left f (x :: l) a = fold_left f l (f a x).
Proof. reflexivity. Qed.

(** ** More on [withRetry] *)

Section RetryLoopFacts.

Variable Number : jsstring -> option Q.
Variable DateParse : jsstring -> option Z.
Variable now : Z -> Z.
Variable random : Z -> Q.
Context {T : Type}.
Variable fn : Z -> T + Err.
Variable opts : RetryOptions.

(** The attempts left from [attempt] on. *)
Lemma retryLoop_attempts_le fuel : forall attempt lastErr,
  (attempts (retryLoop Number DateParse now random fn opts fuel attempt lastErr)
   <= Z.to_nat (retryMax opts - attempt + 1))%nat.
Proof.
  induction fuel as [|fuel IH]; intros attempt lastErr; simpl; [lia|].
  destruct (Z.leb_spec attempt (retryMax opts)); simpl; [|lia].
  destruct (fn attempt) as [v|err]; simpl; [lia|].
  destruct (isRetryable err); simpl; [|lia].
  destruct (Z.geb_spec attempt (retryMax opts)); simpl; [lia|].
  specialize (IH (attempt + 1)%Z (Some err)). lia.
Qed.

Lemma retryLoop_attempts_pos fuel attempt lastErr :
  (attempt <= retryMax opts)%Z ->
  (1 <= attempts (retryLoop Number DateParse now random fn opts (S fuel) attempt lastErr))%nat.
Proof.
  intros Hle. simpl.
  destruct (Z.leb_spec attempt (retryMax opts)); [|lia].
  destruct (fn attempt) as [v|err]; simpl; [lia|].
  destruct (isRetryable err); simpl; [|lia].
  destruct (attempt >=? retryMax opts)%Z; simpl; lia.
Qed.

Lemma retryLoop_waits_length fuel : forall attempt lastErr,
  (Z.to_nat (retryMax opts - attempt + 1) <= fuel)%nat ->
  length (waits (retryLoop Number DateParse now random fn opts fuel attempt lastErr))
  = pred (attempts (retryLoop Number DateParse now random fn opts fuel attempt lastErr)).
Proof.
  induction fuel as [|fuel IH]; intros attempt lastErr Hfuel; [reflexivity|].
  simpl.
  destruct (Z.leb_spec attempt (retryMax opts)); [|reflexivity].
  destruct (fn attempt) as [v|err]; [reflexivity|].
  destruct (isRetryable err); [|reflexivity]. cbn [negb].
  destruct (Z.geb_spec attempt (retryMax opts)); [reflexivity|].
  cbn [waits attempts length pred].
  rewrite IH by lia.
  destruct fuel as [|fuel']; [lia|].
  pose proof (retryLoop_attempts_pos fuel' (attempt + 1)%Z (Some err)) as Hpos.
  lia.
Qed.

(** Failures at the attempts [attempt], ..., [attempt + k - 1], each
    retryable, then a success: the loop returns it after [k] waits, each
    the wait computed from the failure before it. *)
Lemma retryLoop_success (k : nat) : forall fuel attempt lastErr v,
  (k < fuel)%nat -> (attempt + Z.of_nat k <= retryMax opts)%Z ->
  (forall i, (i < k)%nat ->
     exists err, fn (attempt + Z.of_nat i)%Z = inr err /\ isRetryable err = true) ->
  fn (attempt + Z.of_nat k)%Z = inl v ->
  let r := retryLoop Number DateParse now random fn opts fuel attempt lastErr in
  outcome r = Returned v /\ attempts r = S k
  /\ Forall2 (fun i w => exists err, fn (attempt + Z.of_nat i)%Z = inr err
                                     /\ w = waitAfter Number DateParse now random opts
                                              (attempt + Z.of_nat i)%Z err)
             (seq 0 k) (waits r).
Proof.
  induction k as [|k IH]; intros fuel attempt lastErr v Hfuel Hmax Hfail Hok r;
    subst r; (destruct fuel as [|fuel]; [lia|]); simpl.
  - rewrite Z.add_0_r in Hok, Hmax.
    destruct (Z.leb_spec attempt (retryMax opts)); [|lia].
    rewrite Hok. repeat split. constructor.
  - destruct (Z.leb_spec attempt (retryMax opts)); [|lia].
    destruct (Hfail 0%nat ltac:(lia)) as (err & Hfn & Hre).
    rewrite Z.add_0_r in Hfn. rewrite Hfn, Hre. cbn [negb].
    destruct (Z.geb_spec attempt (retryMax opts)); [lia|].
    cbn [outcome attempts waits].
    destruct (IH fuel (attempt + 1)%Z (Some err) v) as (Ho & Ha & Hw);
      try lia.
    + intros i Hi. destruct (Hfail (S i) ltac:(lia)) as (e & He & Hr).
      exists e. split; [|exact Hr]. rewrite <- He. f_equal. lia.
    + rewrite <- Hok. f_equal. lia.
    + split; [exact Ho|]. split; [rewrite Ha; reflexivity|].
      constructor.
      * exists err. rewrite Z.add_0_r. split; [exact Hfn|reflexivity].
      * rewrite <- seq_shift. apply Forall2_fmap_l.
        eapply Forall2_impl; [exact Hw|]. intros i w (e & He & ->).
        simpl. replace (attempt + Z.of_nat (S i))%Z with (attempt + 1 + Z.of_nat i)%Z by lia.
        exists e. split; [exact He|reflexivity].
Qed.

(** Retryable failures at every attempt from [attempt] to [retryMax]: the
    loop gives up at [retryMax] with that attempt's error. *)
Lemma retryLoop_exhausts (k : nat) : forall fuel attempt lastErr,
  (k < fuel)%nat -> (attempt + Z.of_nat k = retryMax opts)%Z ->
  (forall a, (attempt <= a <= retryMax opts)%Z ->
     exists err, fn a = inr err /\ isRetryable err = true) ->
  let r := retryLoop Number DateParse now random fn opts fuel attempt lastErr in
  exists err, fn (retryMax opts) = inr err
    /\ outcome r = Threw (Some err) /\ attempts r = S k
    /\ length (waits r) = k
    /\ last (logs r) = Some (LogFinalFail (retryMax opts) (getStatus err)).
Proof.
  induction k as [|k IH]; intros fuel attempt lastErr Hfuel Hmax Hfail r;
    subst r; (destruct fuel as [|fuel]; [lia|]); simpl.
  - rewrite Z.add_0_r in Hmax. subst attempt.
    destruct (Z.leb_spec (retryMax opts) (retryMax opts)); [|lia].
    destruct (Hfail (retryMax opts) ltac:(lia)) as (err & Hfn & Hre).
    exists err. rewrite Hfn, Hre. cbn [negb].
    destruct (Z.geb_spec (retryMax opts) (retryMax opts)); [|lia].
    repeat split.
  - destruct (Z.leb_spec attempt (retryMax opts)); [|lia].
    destruct (Hfail attempt ltac:(lia)) as (err & Hfn & Hre).
    rewrite Hfn, Hre. cbn [negb].
    destruct (Z.geb_spec attempt (retryMax opts)); [lia|].
    cbn [outcome attempts waits logs].
    destruct (IH fuel (attempt + 1)%Z (Some err)) as (e & He & Ho & Ha & Hw & Hl);
      try lia.
    + intros a Ha. apply Hfail. lia.
    + exists e. split; [exact He|]. split; [exact Ho|].
      split; [rewrite Ha; reflexivity|]. split; [simpl; rewrite Hw; reflexivity|].
      destruct (logs _) as [|l ls] eqn:Hlogs; [discriminate|].
      rewrite last_cons, Hl. reflexivity.
Qed.


End RetryLoopFacts.

(** X1.  Whatever the operation does, [withRetry] calls it at most
    [retryMax] times, sleeps exactly once between two consecutive calls
    (one wait fewer than calls), and calls it at all exactly when
    [retryMax] is at least 1; with [retryMax <= 0] it throws [undefined]. *)
Theorem withRetry_attempts_bounded
    (Number : jsstring -> option Q) (DateParse : jsstring -> option Z)
    (now : Z -> Z) (random : Z -> Q) (T : Type) (fn : Z -> T + Err)
    (opts : RetryOptions) :
  let r := withRetry Number DateParse now random fn opts in
  (attempts r <= Z.to_nat (retryMax opts))%nat
  /\ length (waits r) = pred (attempts r)
  /\ (attempts r = 0%nat <-> (retryMax opts <= 0)%Z)
  /\ (attempts r = 0%nat -> outcome r = Threw None).
Proof.
  intros r. subst r. unfold withRetry.
  pose proof (retryLoop_attempts_le Number DateParse now random fn opts
                (S (Z.to_nat (retryMax opts))) 1 None) as Hle.
  pose proof (retryLoop_waits_length Number DateParse now random fn opts
                (S (Z.to_nat (retryMax opts))) 1 None ltac:(lia)) as Hw.
  split; [lia|]. split; [exact Hw|].
  assert (Hiff : attempts (retryLoop Number DateParse now random fn opts
                             (S (Z.to_nat (retryMax opts))) 1 None) = 0%nat
                 <-> (retryMax opts <= 0)%Z).
  { split.
    - intros H0. destruct (Z.leb_spec 1 (retryMax opts)) as [H1|]; [|lia].
      pose proof (retryLoop_attempts_pos Number DateParse now random fn opts
                    (Z.to_nat (retryMax opts)) 1 None H1). lia.
    - lia. }
  split; [exact Hiff|].
  intros H0. apply Hiff in H0. simpl.
  destruct (Z.leb_spec 1 (retryMax opts)); [lia|reflexivity].
Qed.

(** X2.  When the first [k] attempts fail with retryable errors and attempt
    [k + 1] (still within [retryMax]) succeeds, [withRetry] returns that
    value after exactly [k + 1] calls and [k] sleeps, the i-th sleep being
    the wait computed from the i-th failure. *)
Theorem withRetry_succeeds_after_failures
    (Number : jsstring -> option Q) (DateParse : jsstring -> option Z)
    (now : Z -> Z) (random : Z -> Q) (T : Type) (fn : Z -> T + Err)
    (opts : RetryOptions) (k : nat) (v : T) :
  (Z.of_nat k < retryMax opts)%Z ->
  (forall i, (i < k)%nat ->
     exists err, fn (1 + Z.of_nat i)%Z = inr err /\ isRetryable err = true) ->
  fn (1 + Z.of_nat k)%Z = inl v ->
  let r := withRetry Number DateParse now random fn opts in
  outcome r = Returned v /\ attempts r = S k
  /\ Forall2 (fun i w =>
                exists err, fn (1 + Z.of_nat i)%Z = inr err
                  /\ w = waitAfter Number DateParse now random opts
                           (1 + Z.of_nat i)%Z err)
             (seq 0 k) (waits r).
Proof.
  intros Hk Hfail Hok.
  apply (retryLoop_success Number DateParse now random fn opts k
           (S (Z.to_nat (retryMax opts))) 1 None v); try assumption; lia.
Qed.

Lemma withRetry_succeeds_after_failures_witness :
  let fn := failsOnce err503 in
  let r := withRetry exampleNumber exampleDateParse (fun _ => 0%Z) (fun _ => 0%Q)
             fn exampleRetryOptions in
  outcome r = Returned 42%Z /\ attempts r = 2%nat
  /\ Forall2 (fun i w =>
                exists err, fn (1 + Z.of_nat i)%Z = inr err
                  /\ w = waitAfter exampleNumber exampleDateParse (fun _ => 0%Z)
                           (fun _ => 0%Q) exampleRetryOptions
                           (1 + Z.of_nat i)%Z err)
             (seq 0 1) (waits r).
Proof.
  apply (withRetry_succeeds_after_failures exampleNumber exampleDateParse
           (fun _ => 0%Z) (fun _ => 0%Q) Z (failsOnce err503)
           exampleRetryOptions 1 42%Z).
  - vm_compute. reflexivity.
  - intros i Hi. assert (i = 0%nat) as -> by lia.
    exists err503. split; reflexivity.
  - reflexivity.
Defined.

(** X3.  When every attempt from 1 to [retryMax] fails with a retryable
    error, [withRetry] calls the operation exactly [retryMax] times, sleeps
    [retryMax - 1] times (not after the last failure), throws the error of
    the last attempt and ends its log with the final-failure line. *)
Theorem withRetry_exhausts
    (Number : jsstring -> option Q) (DateParse : jsstring -> option Z)
    (now : Z -> Z) (random : Z -> Q) (T : Type) (fn : Z -> T + Err)
    (opts : RetryOptions) :
  (1 <= retryMax opts)%Z ->
  (forall a, (1 <= a <= retryMax opts)%Z ->
     exists err, fn a = inr err /\ isRetryable err = true) ->
  let r := withRetry Number DateParse now random fn opts in
  exists err, fn (retryMax opts) = inr err
    /\ outcome r = Threw (Some err)
    /\ attempts r = Z.to_nat (retryMax opts)
    /\ length (waits r) = pred (Z.to_nat (retryMax opts))
    /\ last (logs r) = Some (LogFinalFail (retryMax opts) (getStatus err)).
Proof.
  intros Hmax Hfail r. subst r.
  destruct (retryLoop_exhausts Number DateParse now random fn opts
              (pred (Z.to_nat (retryMax opts)))
              (S (Z.to_nat (retryMax opts))) 1 None)
    as (err & Hfn & Ho & Ha & Hw & Hl); try lia; [exact Hfail|].
  exists err. unfold withRetry. rewrite Ho, Ha, Hw, Hl.
  repeat split; try assumption. lia.
Qed.

Lemma withRetry_exhausts_witness :
  let fn := fun _ : Z => inr err503 : Z + Err in
  let r := withRetry exampleNumber exampleDateParse (fun _ => 0%Z) (fun _ => 0%Q)
             fn exampleRetryOptions in
  exists err, fn (retryMax exampleRetryOptions) = inr err
    /\ outcome r = Threw (Some err)
    /\ attempts r = Z.to_nat (retryMax exampleRetryOptions)
    /\ length (waits r) = pred (Z.to_nat (retryMax exampleRetryOptions))
    /\ last (logs r)
       = Some (LogFinalFail (retryMax exampleRetryOptions) (getStatus err)).
Proof.
  apply (withRetry_exhausts exampleNumber exampleDateParse
           (fun _ => 0%Z) (fun _ => 0%Q) Z (fun _ => inr err503)
           exampleRetryOptions).
  - vm_compute. discriminate.
  - intros a Ha. exists err503. split; reflexivity.
Defined.

Local Open Scope Q_scope.



Local Close Scope Q_scope.

(** ** More on the limiter *)

(** A task waits only while the limiter is full. *)
Lemma next_full cap st :
  (queue st = [] \/ (cap <= active st)%Z \/ exists id, queue st = [id]) ->
  queue (next cap st) = [] \/ (cap <= active (next cap st))%Z.
Proof.
  intros H. unfold next.
  destruct (Z.geb_spec (active st) cap) as [Hge|Hlt]; [right; lia|].
  destruct H as [Hq|[Hfull|[id Hq]]]; rewrite ?Hq; simpl; auto. lia.
Qed.

Lemma next_refills cap st :
  (queue st = [] \/ (cap <= active st + 1)%Z) ->
  queue (next cap st) = [] \/ (cap <= active (next cap st))%Z.
Proof.
  intros H. unfold next.
  destruct (Z.geb_spec (active st) cap) as [Hge|Hlt]; [right; lia|].
  destruct (queue st) as [|run rest] eqn:Hq; [left; exact Hq|].
  destruct H as [H|H]; [discriminate|]. right. simpl. lia.
Qed.

Lemma limiterStep_full cap st ev :
  (queue st = [] \/ (cap <= active st)%Z) ->
  queue (limiterStep cap st ev) = []
  \/ (cap <= active (limiterStep cap st ev))%Z.
Proof.
  intros H. destruct ev as [id|id]; simpl.
  - apply next_full. simpl. destruct H as [Hq|Hfull]; [|auto].
    right. right. exists id. rewrite Hq. reflexivity.
  - destruct (existsb _ _); [|exact H].
    apply next_refills. simpl. destruct H; [auto|right; lia].
Qed.

Lemma limiterRun_full cap evs : forall st,
  (queue st = [] \/ (cap <= active st)%Z) ->
  queue (fold_left (limiterStep cap) evs st) = []
  \/ (cap <= active (fold_left (limiterStep cap) evs st))%Z.
Proof.
  induction evs as [|ev evs IH]; intros st H; simpl; [exact H|].
  apply IH, limiterStep_full, H.
Qed.

Lemma limiterRun_inv cap evs : forall st,
  limiterInv cap st -> limiterInv cap (fold_left (limiterStep cap) evs st).
Proof.
  induction evs as [|ev evs IH]; intros st H; simpl; [exact H|].
  apply IH, limiterStep_inv, H.
Qed.

(** X5.  The limiter of [createLimiter(c)] keeps no task waiting while it
    has room: along every run, whenever the queue is not empty exactly
    [cap = max(1, floor(c || 1))] tasks are running, and when no task is
    running the queue is empty. *)
Theorem limiter_work_conserving (c : Q) (evs : list LimiterEvent) :
  let cap := limiterCap c in
  let st := limiterRun cap evs in
  (queue st <> [] -> Z.of_nat (length (running st)) = cap /\ active st = cap)
  /\ (running st = [] -> queue st = []).
Proof.
  intros cap st.
  assert (Hinv : limiterInv cap st).
  { apply limiterRun_inv. split; [reflexivity|].
    pose proof (limiterCap_ge_1 c). simpl. subst cap. lia. }
  assert (Hfull : queue st = [] \/ (cap <= active st)%Z).
  { apply limiterRun_full. left. reflexivity. }
  destruct Hinv as [Hact Hle].
  split.
  - intros Hq. destruct Hfull as [Hq'|Hfull]; [contradiction|]. lia.
  - intros Hr. destruct Hfull as [Hq'|Hfull]; [exact Hq'|].
    rewrite Hr in Hact. simpl in Hact.
    pose proof (limiterCap_ge_1 c). subst cap. lia.
Qed.

(** ** More on the SSRF screen *)

Lemma isOctetText_cases (d : jsstring) :
  isOctetText d = true ->
  (exists a, d = [a] /\ isDigit a = true)
  \/ (exists a b, d = [a; b] /\ isDigit a = true /\ isDigit b = true)
  \/ (exists a b c, d = [a; b; c] /\ isDigit a = true /\ isDigit b = true
                    /\ isDigit c = true).
Proof.
  unfold isOctetText. intros H.
  apply andb_prop in H as [H H3]. apply andb_prop in H as [Hd H1].
  destruct d as [|a [|b [|c [|e d]]]]; simpl in *; try discriminate.
  - left. exists a. split; [reflexivity|].
    destruct (isDigit a); [reflexivity|discriminate].
  - right. left. exists a, b. destruct (isDigit a), (isDigit b); try discriminate.
    auto.
  - right. right. exists a, b, c.
    destruct (isDigit a), (isDigit b), (isDigit c); try discriminate. auto.
Qed.

(** [(\d{1,3})] in front of a text that does not go on with a digit takes
    the whole run of digits. *)
Lemma rmatch_digits1to3 {A} (i : nat) (d rest : jsstring) (cap : Captures)
    (k : jsstring -> Captures -> option A) (x : A) :
  isOctetText d = true ->
  match rest with [] => True | c :: _ => isDigit c = false end ->
  k rest (<[i := d]> cap) = Some x ->
  rmatch (RGroup i digits1to3) (d ++ rest) cap k = Some x.
Proof.
  intros Hd Hrest Hk.
  assert (Hnone : forall K : jsstring -> Captures -> option A,
             rmatch RDigit rest cap K = None).
  { intros K. destruct rest as [|c rest']; simpl; [reflexivity|].
    rewrite Hrest. reflexivity. }
  destruct (isOctetText_cases d Hd)
    as [(a & -> & Ha)|[(a & b & -> & Ha & Hb)|(a & b & c & -> & Ha & Hb & Hc)]].
  - cbn [rmatch digits1to3 ROpt app]. unfold RDigit at 1. cbn [rmatch].
    rewrite Ha. cbn [rmatch]. fold RDigit. rewrite Hnone. cbn [orElse].
    replace (length (a :: rest) - length rest) with 1 by (simpl; lia).
    change (take 1 (a :: rest)) with [a]. exact Hk.
  - cbn [rmatch digits1to3 ROpt app]. unfold RDigit at 1 2. cbn [rmatch].
    rewrite Ha, Hb. cbn [rmatch]. fold RDigit. rewrite Hnone. cbn [orElse].
    replace (length (a :: b :: rest) - length rest) with 2 by (simpl; lia).
    change (take 2 (a :: b :: rest)) with [a; b]. apply orElse_Some_l. exact Hk.
  - cbn [rmatch digits1to3 ROpt app]. unfold RDigit. cbn [rmatch].
    rewrite Ha, Hb, Hc. cbn [rmatch orElse].
    replace (length (a :: b :: c :: rest) - length rest) with 3 by (simpl; lia).
    change (take 3 (a :: b :: c :: rest)) with [a; b; c].
    repeat apply orElse_Some_l. exact Hk.
Qed.

Lemma split_first_absent (d : Z) (s : jsstring) :
  Forall (fun c => c <> d) s -> split_first d s = s.
Proof.
  induction 1 as [|c s Hc _ IH]; simpl; [reflexivity|].
  destruct (Z.eqb_spec c d); [contradiction|]. rewrite IH. reflexivity.
Qed.

Lemma split_first_app (d : Z) (s t : jsstring) :
  Forall (fun c => c <> d) s -> split_first d (s ++ d :: t) = s.
Proof.
  induction 1 as [|c s Hc _ IH]; simpl.
  - rewrite Z.eqb_refl. reflexivity.
  - destruct (Z.eqb_spec c d); [contradiction|]. rewrite IH. reflexivity.
Qed.

Lemma isOctetText_no_colon (d : jsstring) :
  isOctetText d = true -> Forall (fun c => c <> 58%Z) d.
Proof.
  intros H.
  destruct (isOctetText_cases d H)
    as [(a & -> & Ha)|[(a & b & -> & Ha & Hb)|(a & b & c & -> & Ha & Hb & Hc)]];
    repeat constructor; intros ->; discriminate.
Qed.

Lemma dottedQuad_no_colon d1 d2 d3 d4 :
  isOctetText d1 = true -> isOctetText d2 = true ->
  isOctetText d3 = true -> isOctetText d4 = true ->
  Forall (fun c => c <> 58%Z) (dottedQuad d1 d2 d3 d4).
Proof.
  intros H1 H2 H3 H4. unfold dottedQuad.
  repeat (apply Forall_app; split);
    try (apply isOctetText_no_colon; assumption);
    repeat constructor; discriminate.
Qed.

Lemma rmatch_cat_unit {A} (c : Z) (r : regex) (s : jsstring) (cap : Captures)
    (k : jsstring -> Captures -> option A) :
  rmatch (RCat (RLit [c]) r) (c :: s) cap k = rmatch r s cap k.
Proof. simpl. rewrite Z.eqb_refl. reflexivity. Qed.

Lemma rexec_ipRegex d1 d2 d3 d4 :
  isOctetText d1 = true -> isOctetText d2 = true ->
  isOctetText d3 = true -> isOctetText d4 = true ->
  rexec ipRegex (dottedQuad d1 d2 d3 d4)
  = Some ([], <[4%nat := d4]> (<[3%nat := d3]> (<[2%nat := d2]>
                (<[1%nat := d1]> (∅ : Captures))))).
Proof.
  intros H1 H2 H3 H4. unfold rexec, ipRegex, dottedQuad.
  change (js ".") with [46%Z]. cbn [RSeq fold_right app].
  change (rmatch (RCat ?a ?b) ?s ?c ?k)
    with (rmatch a s c (fun s1 c1 => rmatch b s1 c1 k)).
  apply rmatch_digits1to3; [assumption|reflexivity|].
  rewrite rmatch_cat_unit.
  change (rmatch (RCat ?a ?b) ?s ?c ?k)
    with (rmatch a s c (fun s1 c1 => rmatch b s1 c1 k)).
  apply rmatch_digits1to3; [assumption|reflexivity|].
  rewrite rmatch_cat_unit.
  change (rmatch (RCat ?a ?b) ?s ?c ?k)
    with (rmatch a s c (fun s1 c1 => rmatch b s1 c1 k)).
  apply rmatch_digits1to3; [assumption|reflexivity|].
  rewrite rmatch_cat_unit.
  change (rmatch (RCat ?a ?b) ?s ?c ?k)
    with (rmatch a s c (fun s1 c1 => rmatch b s1 c1 k)).
  rewrite <- (app_nil_r d4) at 1.
  apply rmatch_digits1to3; [assumption|exact I|].
  reflexivity.
Qed.

(** X6.  For a host written as four dot-separated parts of one to three
    decimal digits each, [isPrivateIP] answers [true] exactly when the host
    is one of the literals 127.0.0.1, 0.0.0.0 and 169.254.169.254, or a part
    exceeds 255, or the address lies in 10.0.0.0/8, 172.16.0.0/12,
    192.168.0.0/16 or 169.254.0.0/16.  (Any other address, 127.0.0.2
    included, is let through.) *)
Theorem isPrivateIP_dotted_quad (toLowerCase : jsstring -> jsstring)
    (d1 d2 d3 d4 : jsstring) :
  isOctetText d1 = true -> isOctetText d2 = true ->
  isOctetText d3 = true -> isOctetText d4 = true ->
  toLowerCase (dottedQuad d1 d2 d3 d4) = dottedQuad d1 d2 d3 d4 ->
  isPrivateIP toLowerCase (dottedQuad d1 d2 d3 d4) = true
  <-> (dottedQuad d1 d2 d3 d4 = js "127.0.0.1"
       \/ dottedQuad d1 d2 d3 d4 = js "0.0.0.0"
       \/ dottedQuad d1 d2 d3 d4 = js "169.254.169.254"
       \/ (255 < digitsValue 0 d1)%Z \/ (255 < digitsValue 0 d2)%Z
       \/ (255 < digitsValue 0 d3)%Z \/ (255 < digitsValue 0 d4)%Z
       \/ digitsValue 0 d1 = 10%Z
       \/ (digitsValue 0 d1 = 172%Z /\ (16 <= digitsValue 0 d2 <= 31)%Z)
       \/ (digitsValue 0 d1 = 192%Z /\ digitsValue 0 d2 = 168%Z)
       \/ (digitsValue 0 d1 = 169%Z /\ digitsValue 0 d2 = 254%Z)).
Proof.
  intros H1 H2 H3 H4 Hlow.
  set (host := dottedQuad d1 d2 d3 d4) in *.
  assert (Hhead : exists a t, host = a :: t /\ isDigit a = true).
  { subst host. unfold dottedQuad.
    destruct (isOctetText_cases d1 H1)
      as [(a & -> & Ha)|[(a & b & -> & Ha & Hb)|(a & b & c & -> & Ha & Hb & Hc)]];
      eexists _, _; (split; [reflexivity|exact Ha]). }
  destruct Hhead as (a & t & Hhost & Ha).
  unfold isPrivateIP. rewrite Hhost at 1.
  rewrite (split_first_absent 58 host)
    by (apply dottedQuad_no_colon; assumption).
  rewrite Hlow.
  assert (Hl : jsstring_eqb host (js "localhost") = false).
  { apply bool_decide_eq_false. rewrite Hhost. intros Heq.
    injection Heq as -> _. discriminate. }
  assert (Hv6 : jsstring_eqb host (js "::1") = false).
  { apply bool_decide_eq_false. rewrite Hhost. intros Heq.
    injection Heq as -> _. discriminate. }
  rewrite Hl, Hv6. cbn [orb]. rewrite orb_false_r.
  unfold jsstring_eqb.
  destruct (bool_decide_reflect (host = js "127.0.0.1")) as [E1|N1];
    [cbn [orb]; tauto|].
  destruct (bool_decide_reflect (host = js "0.0.0.0")) as [E2|N2];
    [cbn [orb]; tauto|].
  cbn [orb].
  destruct (bool_decide_reflect (host = js "169.254.169.254")) as [E3|N3];
    [tauto|].
  subst host. rewrite rexec_ipRegex by assumption.
  set (m := <[4%nat := d4]> _).
  assert (G1 : group 1 m = d1) by (subst m; unfold group; by simplify_map_eq).
  assert (G2 : group 2 m = d2) by (subst m; unfold group; by simplify_map_eq).
  assert (G3 : group 3 m = d3) by (subst m; unfold group; by simplify_map_eq).
  assert (G4 : group 4 m = d4) by (subst m; unfold group; by simplify_map_eq).
  cbn [map nth existsb]. rewrite G1, G2, G3, G4. clearbody m.
  set (p1 := digitsValue 0 d1). set (p2 := digitsValue 0 d2).
  set (p3 := digitsValue 0 d3). set (p4 := digitsValue 0 d4).
  destruct (Z.gtb_spec p1 255); [cbn [orb]; split; [intros _|reflexivity]; tauto|].
  destruct (Z.gtb_spec p2 255); [cbn [orb]; split; [intros _|reflexivity]; tauto|].
  destruct (Z.gtb_spec p3 255); [cbn [orb]; split; [intros _|reflexivity]; tauto|].
  destruct (Z.gtb_spec p4 255); [cbn [orb]; split; [intros _|reflexivity]; tauto|].
  cbn [orb].
  destruct (Z.eqb_spec p1 10); [split; [intros _|reflexivity]; tauto|].
  destruct (Z.eqb_spec p1 172), (Z.geb_spec p2 16), (Z.leb_spec p2 31);
    cbn [andb];
    try (split; [intros _|reflexivity]; right; right; right; right; right;
         right; right; right; left; lia);
  (destruct (Z.eqb_spec p1 192), (Z.eqb_spec p2 168); cbn [andb];
    try (split; [intros _|reflexivity]; tauto);
   destruct (Z.eqb_spec p1 169), (Z.eqb_spec p2 254); cbn [andb];
    try (split; [intros _|reflexivity]; tauto);
   (split; [discriminate|]; intros Hcase; exfalso;
    repeat (destruct Hcase as [Hcase|Hcase]; try contradiction; try lia))).
Qed.

Lemma isPrivateIP_dotted_quad_witness :
  isPrivateIP asciiLower (dottedQuad (js "172") (js "20") (js "0") (js "1")) = true
  <-> (dottedQuad (js "172") (js "20") (js "0") (js "1") = js "127.0.0.1"
       \/ dottedQuad (js "172") (js "20") (js "0") (js "1") = js "0.0.0.0"
       \/ dottedQuad (js "172") (js "20") (js "0") (js "1") = js "169.254.169.254"
       \/ (255 < digitsValue 0 (js "172"))%Z \/ (255 < digitsValue 0 (js "20"))%Z
       \/ (255 < digitsValue 0 (js "0"))%Z \/ (255 < digitsValue 0 (js "1"))%Z
       \/ digitsValue 0 (js "172") = 10%Z
       \/ (digitsValue 0 (js "172") = 172%Z
           /\ (16 <= digitsValue 0 (js "20") <= 31)%Z)
       \/ (digitsValue 0 (js "172") = 192%Z /\ digitsValue 0 (js "20") = 168%Z)
       \/ (digitsValue 0 (js "172") = 169%Z /\ digitsValue 0 (js "20") = 254%Z)).
Proof.
  apply (isPrivateIP_dotted_quad asciiLower (js "172") (js "20") (js "0") (js "1"));
    reflexivity.
Defined.

(** X7.  A port does not change the answer of [isPrivateIP]: for a
    non-empty host without a colon, [host:port] is classified as [host]
    is. *)
Theorem isPrivateIP_ignores_port (toLowerCase : jsstring -> jsstring)
    (host port : jsstring) :
  host <> [] -> Forall (fun c => c <> 58%Z) host ->
  isPrivateIP toLowerCase (host ++ js ":" ++ port)
  = isPrivateIP toLowerCase host.
Proof.
  intros Hne Hcolon. unfold isPrivateIP.
  change (js ":" ++ port) with (58%Z :: port).
  rewrite split_first_app, split_first_absent by assumption.
  destruct host as [|c host]; [contradiction|]. reflexivity.
Qed.

Lemma isPrivateIP_ignores_port_witness :
  isPrivateIP asciiLower (js "10.0.0.7" ++ js ":" ++ js "8080")
  = isPrivateIP asciiLower (js "10.0.0.7").
Proof.
  apply (isPrivateIP_ignores_port asciiLower (js "10.0.0.7") (js "8080")).
  - discriminate.
  - repeat constructor; discriminate.
Defined.

(** ** URL normalization *)

Lemma trimStart_app_stop (a b : jsstring) (c : Z) :
  isWhiteSpace c = false ->
  trimStart (a ++ c :: b) = trimStart a ++ c :: b.
Proof.
  intros Hc. induction a as [|x a IH]; simpl; [rewrite Hc; reflexivity|].
  destruct (isWhiteSpace x); [exact IH|reflexivity].
Qed.

Lemma trimStart_head (s : jsstring) :
  match trimStart s with [] => True | c :: _ => isWhiteSpace c = false end.
Proof.
  induction s as [|x s IH]; simpl; [exact I|].
  destruct (isWhiteSpace x) eqn:Hx; [exact IH|exact Hx].
Qed.

Lemma trimStart_fixed (c : Z) (s : jsstring) :
  isWhiteSpace c = false -> trimStart (c :: s) = c :: s.
Proof. intros Hc. simpl. rewrite Hc. reflexivity. Qed.

(** [trimEnd] leaves alone what precedes a unit that is not whitespace. *)
Lemma trimEnd_app_stop (a b : jsstring) (c : Z) :
  isWhiteSpace c = false ->
  trimEnd (a ++ c :: b) = a ++ c :: trimEnd b.
Proof.
  intros Hc. unfold trimEnd.
  rewrite rev_app_distr. simpl. rewrite <- app_assoc. simpl.
  rewrite trimStart_app_stop by exact Hc.
  rewrite rev_app_distr. simpl. rewrite rev_involutive, <- app_assoc.
  reflexivity.
Qed.

Lemma trimEnd_nil : trimEnd [] = [].
Proof. reflexivity. Qed.

(** The result of [trim] is empty or begins and ends with units that are
    not whitespace. *)
Lemma trim_shape (s : jsstring) :
  trim s = []
  \/ exists c m d, isWhiteSpace c = false /\ isWhiteSpace d = false
       /\ (trim s = [c] /\ m = [] /\ d = c \/ trim s = c :: m ++ [d]).
Proof.
  unfold trim. pose proof (trimStart_head s) as Hh.
  destruct (trimStart s) as [|c t]; [left; reflexivity|]. right.
  change (c :: t) with ([] ++ c :: t). rewrite trimEnd_app_stop by exact Hh.
  simpl. unfold trimEnd. pose proof (trimStart_head (rev t)) as Ht.
  destruct (trimStart (rev t)) as [|d u]; simpl.
  - exists c, [], c. split; [exact Hh|]. split; [exact Hh|]. left. auto.
  - exists c, (rev u), d. split; [exact Hh|]. split; [exact Ht|]. right.
    reflexivity.
Qed.

Lemma trim_fixed_ends (c d : Z) (m : jsstring) :
  isWhiteSpace c = false -> isWhiteSpace d = false ->
  trim (c :: m ++ [d]) = c :: m ++ [d].
Proof.
  intros Hc Hd. unfold trim. rewrite trimStart_fixed by exact Hc.
  change (c :: m ++ [d]) with ((c :: m) ++ d :: []).
  rewrite trimEnd_app_stop by exact Hd. reflexivity.
Qed.

Lemma trim_fixed_one (c : Z) : isWhiteSpace c = false -> trim [c] = [c].
Proof.
  intros Hc. unfold trim. rewrite trimStart_fixed by exact Hc.
  change [c] with ([] ++ c :: []). rewrite trimEnd_app_stop by exact Hc.
  reflexivity.
Qed.

Lemma trim_idemp (s : jsstring) : trim (trim s) = trim s.
Proof.
  destruct (trim_shape s) as [->|(c & m & d & Hc & Hd & [(-> & _ & _)| ->])].
  - reflexivity.
  - apply trim_fixed_one, Hc.
  - apply trim_fixed_ends; assumption.
Qed.

(** Trimming keeps a prefix that holds no whitespace. *)
Lemma trim_keeps_prefix (p r : jsstring) :
  p <> [] -> Forall (fun c => isWhiteSpace c = false) p ->
  exists r', trim (p ++ r) = p ++ r'.
Proof.
  intros Hne Hp. unfold trim.
  destruct p as [|c p]; [contradiction|].
  apply Forall_cons in Hp as [Hc Hp].
  simpl. rewrite Hc.
  destruct (exists_last (l := c :: p) ltac:(discriminate)) as (q & d & Hq).
  change (c :: p ++ r) with ((c :: p) ++ r). rewrite Hq.
  assert (Hd : isWhiteSpace d = false).
  { assert (Hin : d ∈ c :: p) by (rewrite Hq; set_solver).
    apply elem_of_cons in Hin as [->|Hin]; [exact Hc|].
    rewrite Forall_forall in Hp. apply Hp. exact Hin. }
  exists (trimEnd r).
  rewrite <- app_assoc. simpl. rewrite trimEnd_app_stop by exact Hd.
  change (c :: p ++ trimEnd r) with ((c :: p) ++ trimEnd r).
  rewrite Hq, <- app_assoc. reflexivity.
Qed.

Lemma startsWith_app (p r : jsstring) : startsWith (p ++ r) p = true.
Proof.
  induction p as [|c p IH]; simpl; [reflexivity|].
  rewrite Z.eqb_refl. exact IH.
Qed.

Lemma startsWith_inv (s p : jsstring) :
  startsWith s p = true -> exists r, s = p ++ r.
Proof.
  revert s. induction p as [|c p IH]; intros s H; simpl in *.
  - exists s. reflexivity.
  - destruct s as [|x s]; [discriminate|].
    apply andb_prop in H as [Hx Hs]. apply Z.eqb_eq in Hx. subst x.
    destruct (IH s Hs) as (r & ->). exists r. reflexivity.
Qed.

Lemma isHttpUrl_trim (s : jsstring) : isHttpUrl s = true -> isHttpUrl (trim s) = true.
Proof.
  unfold isHttpUrl. intros H. apply orb_prop in H as [H|H];
    apply startsWith_inv in H as (r & ->).
  - destruct (trim_keeps_prefix (js "http://") r) as (r' & ->);
      [discriminate|repeat constructor|].
    rewrite startsWith_app. reflexivity.
  - destruct (trim_keeps_prefix (js "https://") r) as (r' & ->);
      [discriminate|repeat constructor|].
    rewrite startsWith_app. apply orb_true_r.
Qed.

Lemma isHttpUrl_head (s : jsstring) :
  isHttpUrl s = true -> exists t, s = 104%Z :: t.
Proof.
  unfold isHttpUrl. intros H. apply orb_prop in H as [H|H];
    apply startsWith_inv in H as (r & ->); eexists; reflexivity.
Qed.

(** The fixed points of [normalizeHttpUrl]: absolute http(s) URLs without
    surrounding whitespace. *)
Lemma normalizeHttpUrl_fixed (u : jsstring) :
  isHttpUrl u = true -> trim u = u -> normalizeHttpUrl u = Some u.
Proof.
  intros Hh Ht. destruct (isHttpUrl_head u Hh) as (t & ->).
  unfold normalizeHttpUrl. rewrite Ht. cbn [startsWith].
  change (47 =? 104)%Z with false. cbn [andb]. rewrite Hh. reflexivity.
Qed.

Lemma trim_https_prefix (s : jsstring) :
  s <> [] -> trim s = s -> trim (js "https:" ++ s) = js "https:" ++ s.
Proof.
  intros Hne Hs.
  destruct (trim_shape s) as [H|(c & m & d & Hc & Hd & [(H & -> & ->)|H])];
    rewrite Hs in H; subst s; [contradiction| |].
  - change (js "https:" ++ [c]) with (104%Z :: (js "ttps:") ++ [c]).
    apply trim_fixed_ends; [reflexivity|exact Hc].
  - change (js "https:" ++ c :: m ++ [d])
      with (104%Z :: (js "ttps:" ++ c :: m) ++ [d]).
    apply trim_fixed_ends; [reflexivity|exact Hd].
Qed.

(** X8.  Whatever [normalizeHttpUrl] returns is an absolute http(s) URL
    without surrounding whitespace, and a fixed point: normalizing it again
    returns it unchanged. *)
Theorem normalizeHttpUrl_sound_idempotent (input u : jsstring) :
  normalizeHttpUrl input = Some u ->
  isHttpUrl u = true /\ trim u = u /\ normalizeHttpUrl u = Some u.
Proof.
  intros H. unfold normalizeHttpUrl in H.
  destruct input as [|x input]; [discriminate|].
  pose proof (trim_idemp (x :: input)) as Hs.
  destruct (trim (x :: input)) as [|c s']; [discriminate|].
  destruct (startsWith (c :: s') (js "//")) eqn:Hslash.
  - injection H as <-.
    assert (Hh : isHttpUrl (js "https:" ++ c :: s') = true).
    { apply startsWith_inv in Hslash as (r & ->). apply orb_true_r. }
    assert (Ht : trim (js "https:" ++ c :: s') = js "https:" ++ c :: s')
      by (apply trim_https_prefix; [discriminate|exact Hs]).
    split; [exact Hh|]. split; [exact Ht|].
    apply normalizeHttpUrl_fixed; assumption.
  - destruct (isHttpUrl (c :: s')) eqn:Hh; [|discriminate].
    injection H as <-. split; [exact Hh|]. split; [exact Hs|].
    apply normalizeHttpUrl_fixed; assumption.
Qed.

Lemma normalizeHttpUrl_sound_idempotent_witness :
  isHttpUrl (js "https://cdn.example.com/a.jpg") = true
  /\ trim (js "https://cdn.example.com/a.jpg") = js "https://cdn.example.com/a.jpg"
  /\ normalizeHttpUrl (js "https://cdn.example.com/a.jpg")
     = Some (js "https://cdn.example.com/a.jpg").
Proof.
  apply (normalizeHttpUrl_sound_idempotent (js "  //cdn.example.com/a.jpg ")).
  vm_compute. reflexivity.
Defined.

(** *** Sets of URLs *)

Lemma existsb_jsstring_eqb (u : jsstring) (l : list jsstring) :
  existsb (jsstring_eqb u) l = true <-> u ∈ l.
Proof.
  rewrite existsb_exists. unfold jsstring_eqb. split.
  - intros (x & Hin & Heq). apply bool_decide_eq_true in Heq. subst x.
    apply list_elem_of_In. exact Hin.
  - intros Hin. exists u. split; [apply list_elem_of_In; exact Hin|].
    apply bool_decide_eq_true. reflexivity.
Qed.

Lemma set_add_all_NoDup (l : list jsstring) : forall seen,
  NoDup seen -> NoDup (set_add_all seen l).
Proof.
  induction l as [|u l IH]; intros seen Hnd; simpl; [exact Hnd|].
  apply IH. destruct (existsb (jsstring_eqb u) seen) eqn:Hex; [exact Hnd|].
  apply NoDup_app. split; [exact Hnd|]. split; [|apply NoDup_singleton].
  intros x Hx Hxu. apply list_elem_of_singleton in Hxu. subst x.
  apply existsb_jsstring_eqb in Hx. congruence.
Qed.

Lemma set_add_all_elem (l : list jsstring) : forall seen u,
  u ∈ set_add_all seen l <-> u ∈ seen \/ u ∈ l.
Proof.
  induction l as [|x l IH]; intros seen u; simpl.
  - rewrite elem_of_nil. tauto.
  - rewrite IH, elem_of_cons.
    destruct (existsb (jsstring_eqb x) seen) eqn:Hex.
    + apply existsb_jsstring_eqb in Hex. split; [tauto|].
      intros [H|[->|H]]; auto.
    + rewrite elem_of_app, list_elem_of_singleton. tauto.
Qed.

Lemma set_add_all_fresh (l : list jsstring) : forall seen,
  NoDup (seen ++ l) -> set_add_all seen l = seen ++ l.
Proof.
  induction l as [|x l IH]; intros seen Hnd; simpl.
  - rewrite app_nil_r. reflexivity.
  - assert (Hx : existsb (jsstring_eqb x) seen = false).
    { destruct (existsb _ _) eqn:Hex; [|reflexivity].
      apply existsb_jsstring_eqb in Hex.
      apply NoDup_app in Hnd as (_ & Hdis & _).
      exfalso. apply (Hdis x Hex). left. }
    rewrite Hx, IH; rewrite <- app_assoc; [reflexivity|exact Hnd].
Qed.

Lemma arrayFromSet_NoDup (l : list jsstring) : NoDup (arrayFromSet l).
Proof. apply set_add_all_NoDup, NoDup_nil_2. Qed.

Lemma arrayFromSet_elem (l : list jsstring) (u : jsstring) :
  u ∈ arrayFromSet l <-> u ∈ l.
Proof.
  unfold arrayFromSet. rewrite set_add_all_elem, elem_of_nil. tauto.
Qed.

Lemma arrayFromSet_fixed (l : list jsstring) : NoDup l -> arrayFromSet l = l.
Proof. intros H. apply (set_add_all_fresh l []). exact H. Qed.

Lemma trim_nil : trim [] = [].
Proof. reflexivity. Qed.

(** X9.  [dedupeUrls] returns each distinct non-blank URL of its input
    once, trimmed: the result has no duplicates, and a string occurs in it
    exactly when it is non-empty and is the trimmed form of an input. *)
Theorem dedupeUrls_spec (urls : list jsstring) :
  NoDup (dedupeUrls urls)
  /\ forall u, u ∈ dedupeUrls urls <-> u <> [] /\ exists x, x ∈ urls /\ trim x = u.
Proof.
  split; [apply arrayFromSet_NoDup|].
  intros u. unfold dedupeUrls. rewrite arrayFromSet_elem, list_elem_of_omap.
  split.
  - intros (x & Hin & Hx). destruct x as [|c x]; [discriminate|].
    destruct (trim (c :: x)) as [|d t] eqn:Ht; [discriminate|].
    injection Hx as <-. split; [discriminate|]. exists (c :: x). auto.
  - intros (Hne & x & Hin & Ht). exists x. split; [exact Hin|].
    destruct x as [|c x]; [rewrite trim_nil in Ht; congruence|].
    rewrite Ht. destruct u; [contradiction|reflexivity].
Qed.

(** *** [extractUrlFromMarkdown] and [normalizeImageUrls] *)

Lemma extractUrlFromMarkdown_http (u : jsstring) :
  isHttpUrl u = true -> trim u = u -> extractUrlFromMarkdown u = u.
Proof.
  intros Hh Ht. destruct (isHttpUrl_head u Hh) as (t & ->).
  unfold extractUrlFromMarkdown. rewrite Ht. reflexivity.
Qed.

Lemma startsWith_slashes_http (u : jsstring) :
  isHttpUrl u = true -> startsWith u (js "//") = false.
Proof. intros Hh. destruct (isHttpUrl_head u Hh) as (t & ->). reflexivity. Qed.

Lemma normalizeHttpUrlWithBase_fixed (u b : jsstring) :
  isHttpUrl u = true -> trim u = u -> normalizeHttpUrlWithBase u b = Some u.
Proof.
  intros Hh Ht. unfold normalizeHttpUrlWithBase.
  rewrite Ht, (startsWith_slashes_http u Hh), Hh.
  destruct (isHttpUrl_head u Hh) as (t & ->). reflexivity.
Qed.

Lemma normalizeOneImageUrl_fixed (baseUrl : option jsstring) (u : jsstring) :
  isHttpUrl u = true -> trim u = u -> normalizeOneImageUrl baseUrl u = Some u.
Proof.
  intros Hh Ht. unfold normalizeOneImageUrl.
  rewrite Ht, (extractUrlFromMarkdown_http u Hh Ht),
    (startsWith_slashes_http u Hh).
  assert (Hn : match baseUrl with
               | Some ((_ :: _) as b) => normalizeHttpUrlWithBase u b
               | _ => normalizeHttpUrl u
               end = Some u).
  { destruct baseUrl as [[|b0 b]|]; try (apply normalizeHttpUrl_fixed; assumption).
    apply normalizeHttpUrlWithBase_fixed; assumption. }
  rewrite Hn, Hh.
  destruct (isHttpUrl_head u Hh) as (t & ->). reflexivity.
Qed.

Lemma normalizeOneImageUrl_http (baseUrl : option jsstring) (x n : jsstring) :
  normalizeOneImageUrl baseUrl x = Some n -> isHttpUrl n = true.
Proof.
  unfold normalizeOneImageUrl. destruct x as [|c x]; [discriminate|].
  destruct (trim (c :: x)); [discriminate|].
  match goal with |- match ?e with _ => _ end = _ -> _ => destruct e as [[|d n']|] end;
    try discriminate.
  destruct (isHttpUrl (d :: n')) eqn:Hh; [|discriminate].
  intros [= <-]. exact Hh.
Qed.

Lemma omap_fixed {A} (f : A -> option A) (l : list A) :
  Forall (fun x => f x = Some x) l -> omap f l = l.
Proof.
  induction 1 as [|x l Hx _ IH]; simpl; [reflexivity|].
  rewrite Hx. f_equal. exact IH.
Qed.

(** X10.  Every URL [normalizeImageUrls] returns is an absolute http(s) URL
    without surrounding whitespace that stems from one of the inputs; the
    result holds no URL twice and at most [maxUrls] URLs. *)
Theorem normalizeImageUrls_sound (urls : list jsstring)
    (baseUrl : option jsstring) (maxUrls : nat) :
  let result := normalizeImageUrls urls baseUrl maxUrls in
  NoDup result /\ (length result <= maxUrls)%nat
  /\ Forall (fun u => isHttpUrl u = true /\ trim u = u
                      /\ exists x n, x ∈ urls
                           /\ normalizeOneImageUrl baseUrl x = Some n
                           /\ u = trim n) result.
Proof.
  intros result. subst result. unfold normalizeImageUrls.
  destruct (dedupeUrls_spec (omap (normalizeOneImageUrl baseUrl) urls))
    as [Hnd Hel].
  split; [exact (sublist_NoDup _ _ Hnd (sublist_take _ _))|].
  split; [rewrite length_take; lia|].
  apply Forall_take, Forall_forall. intros u Hu.
  apply Hel in Hu as (Hne & n & Hn & Ht).
  apply list_elem_of_omap in Hn as (x & Hx & Hn).
  pose proof (normalizeOneImageUrl_http _ _ _ Hn) as Hh.
  subst u. split; [apply isHttpUrl_trim, Hh|]. split; [apply trim_idemp|].
  exists x, n. auto.
Qed.

(** X11.  [normalizeImageUrls] is idempotent: normalizing its own result
    again, with the same base and limit, changes nothing. *)
Theorem normalizeImageUrls_idempotent (urls : list jsstring)
    (baseUrl : option jsstring) (maxUrls : nat) :
  normalizeImageUrls (normalizeImageUrls urls baseUrl maxUrls) baseUrl maxUrls
  = normalizeImageUrls urls baseUrl maxUrls.
Proof.
  destruct (normalizeImageUrls_sound urls baseUrl maxUrls) as (Hnd & Hlen & Hall).
  set (r := normalizeImageUrls urls baseUrl maxUrls) in *.
  unfold normalizeImageUrls at 1.
  assert (H1 : omap (normalizeOneImageUrl baseUrl) r = r).
  { apply omap_fixed. eapply Forall_impl; [exact Hall|].
    intros u (Hh & Ht & _). apply normalizeOneImageUrl_fixed; assumption. }
  rewrite H1. unfold dedupeUrls.
  assert (H2 : omap (fun u => match u with
                              | [] => None
                              | _ => match trim u with [] => None | t => Some t end
                              end) r = r).
  { apply omap_fixed. eapply Forall_impl; [exact Hall|].
    intros u (Hh & Ht & _). destruct (isHttpUrl_head u Hh) as (t & Hu).
    rewrite Ht. rewrite Hu. reflexivity. }
  rewrite H2, (arrayFromSet_fixed r Hnd). apply take_ge. exact Hlen.
Qed.

(** ** Markdown links *)

(** A lazy [x*?] in front of a text over which what follows cannot start:
    the loop walks the text to its end. *)
Lemma starLoop_lazy_skip {A} (p : Z -> bool) (text : jsstring) :
  forall (n : nat) (tail : jsstring) (cap : Captures)
         (k : jsstring -> Captures -> option A) (x : A),
  (length text <= n)%nat ->
  Forall (fun c => p c = true) text ->
  (forall c t, c ∈ text -> k (c :: t) cap = None) ->
  k tail cap = Some x ->
  starLoop (rmatch (RSet p)) false k n (text ++ tail) cap = Some x.
Proof.
  induction text as [|c text IH]; intros n tail cap k x Hn Hp Hk Hx.
  - simpl. destruct n as [|n]; simpl; [exact Hx|]. rewrite Hx. reflexivity.
  - destruct n as [|n]; [simpl in Hn; lia|].
    apply Forall_cons in Hp as [Hc Hp].
    cbn [starLoop app]. rewrite (Hk c (text ++ tail)) by left.
    cbn [orElse rmatch]. rewrite Hc.
    assert (Hlt : (length (text ++ tail) <? length (c :: text ++ tail))%nat = true)
      by (apply Nat.ltb_lt; simpl; lia).
    rewrite Hlt. apply IH; try assumption.
    + simpl in Hn. lia.
    + intros c' t Hin. apply Hk. right. exact Hin.
Qed.

(** A greedy [x*] in front of a run of [x] that ends where [x] no longer
    matches takes the whole run. *)
Lemma starLoop_greedy_all {A} (p : Z -> bool) (body : jsstring) :
  forall (n : nat) (tail : jsstring) (cap : Captures)
         (k : jsstring -> Captures -> option A) (x : A),
  (length body <= n)%nat ->
  Forall (fun c => p c = true) body ->
  match tail with [] => True | c :: _ => p c = false end ->
  k tail cap = Some x ->
  starLoop (rmatch (RSet p)) true k n (body ++ tail) cap = Some x.
Proof.
  induction body as [|c body IH]; intros n tail cap k x Hn Hp Ht Hx.
  - simpl. destruct n as [|n]; simpl; [exact Hx|].
    destruct tail as [|t0 tail]; simpl; [exact Hx|]. rewrite Ht. exact Hx.
  - destruct n as [|n]; [simpl in Hn; lia|].
    apply Forall_cons in Hp as [Hc Hp].
    cbn [starLoop app rmatch]. rewrite Hc.
    assert (Hlt : (length (body ++ tail) <? length (c :: body ++ tail))%nat = true)
      by (apply Nat.ltb_lt; simpl; lia).
    rewrite Hlt. apply orElse_Some_l. apply IH; try assumption.
    simpl in Hn. lia.
Qed.

Lemma rmatch_group_take {A} (i : nat) (r : regex) (u t : jsstring)
    (cap : Captures) (k : jsstring -> Captures -> option A) (x : A) :
  (forall k' : jsstring -> Captures -> option A,
      k' t cap = Some x -> rmatch r (u ++ t) cap k' = Some x) ->
  k t (<[i := u]> cap) = Some x ->
  rmatch (RGroup i r) (u ++ t) cap k = Some x.
Proof.
  intros Hr Hk. cbn [rmatch]. apply Hr.
  replace (length (u ++ t) - length t) with (length u)
    by (rewrite length_app; lia).
  rewrite take_app_length. exact Hk.
Qed.

Lemma not_paren (c : Z) :
  c <> 41%Z -> negb (existsb (Z.eqb c) (js ")")) = true.
Proof.
  intros Hc. change (js ")") with [41%Z]. simpl.
  destruct (Z.eqb_spec c 41); [contradiction|reflexivity].
Qed.

(** [https?:\/\/[^)]+] takes an http(s) URL without [)] up to a [)]. *)
Lemma rmatch_httpUrlRe {A} (scheme rest tail : jsstring) (cap : Captures)
    (k : jsstring -> Captures -> option A) (x : A) :
  scheme = js "http://" \/ scheme = js "https://" ->
  rest <> [] -> Forall (fun c => c <> 41%Z) rest ->
  match tail with [] => True | c :: _ => c = 41%Z end ->
  k tail cap = Some x ->
  rmatch httpUrlRe ((scheme ++ rest) ++ tail) cap k = Some x.
Proof.
  intros Hs Hne Hrest Htail Hk.
  destruct rest as [|c rest]; [contradiction|].
  apply Forall_cons in Hrest as [Hc Hrest].
  assert (Hplus : rmatch (RPlus true (RNot (js ")"))) ((c :: rest) ++ tail) cap k
                  = Some x).
  { unfold RPlus, RNot. cbn [rmatch app]. rewrite (not_paren c Hc).
    apply starLoop_greedy_all; try assumption.
    - rewrite length_app. lia.
    - eapply Forall_impl; [exact Hrest|]. intros d Hd. apply not_paren, Hd.
    - destruct tail as [|t0 tail]; [exact I|]. subst t0. reflexivity. }
  unfold httpUrlRe. cbn [RSeq fold_right].
  destruct Hs as [-> | ->].
  - change ((js "http://" ++ c :: rest) ++ tail)
      with (js "http" ++ (js "://" ++ (c :: rest) ++ tail)).
    rewrite rmatch_cat, rmatch_lit. cbv beta. rewrite rmatch_cat.
    unfold ROpt. rewrite rmatch_alt.
    change (rmatch (RLit (js "s")) (js "://" ++ (c :: rest) ++ tail) cap _)
      with (@None A). cbn [orElse]. rewrite rmatch_empty.
    rewrite rmatch_cat, rmatch_lit. cbv beta. rewrite rmatch_cat.
    change (fun s1 c1 => rmatch REmpty s1 c1 k) with k. exact Hplus.
  - change ((js "https://" ++ c :: rest) ++ tail)
      with (js "http" ++ (js "s" ++ (js "://" ++ (c :: rest) ++ tail))).
    rewrite rmatch_cat, rmatch_lit. cbv beta. rewrite rmatch_cat.
    unfold ROpt. rewrite rmatch_alt.
    apply orElse_Some_l. rewrite rmatch_lit.
    rewrite rmatch_cat, rmatch_lit. cbv beta. rewrite rmatch_cat.
    change (fun s1 c1 => rmatch REmpty s1 c1 k) with k. exact Hplus.
Qed.

(** X12.  A Markdown link round-trips: for a link text without [\]] and
    line breaks and an http(s) URL without [)],
    [extractUrlFromMarkdown("[text](url)")] is [url]. *)
Theorem extractUrlFromMarkdown_link (text scheme rest : jsstring) :
  Forall (fun c => c <> 93%Z /\ isLineTerminator c = false) text ->
  scheme = js "http://" \/ scheme = js "https://" ->
  rest <> [] -> Forall (fun c => c <> 41%Z) rest ->
  extractUrlFromMarkdown
    (js "[" ++ text ++ js "](" ++ (scheme ++ rest) ++ js ")")
  = scheme ++ rest.
Proof.
  intros Htext Hs Hne Hrest.
  set (url := scheme ++ rest).
  assert (Htrim : trim (js "[" ++ text ++ js "](" ++ url ++ js ")")
                  = js "[" ++ text ++ js "](" ++ url ++ js ")").
  { change (js "[" ++ text ++ js "](" ++ url ++ js ")")
      with (91%Z :: text ++ 93%Z :: 40%Z :: url ++ [41%Z]).
    replace (text ++ 93%Z :: 40%Z :: url ++ [41%Z])
      with ((text ++ 93%Z :: 40%Z :: url) ++ [41%Z])
      by (rewrite <- app_assoc; reflexivity).
    apply trim_fixed_ends; reflexivity. }
  unfold extractUrlFromMarkdown.
  change (js "[" ++ text ++ js "](" ++ url ++ js ")")
    with (91%Z :: text ++ js "](" ++ url ++ js ")") at 1.
  cbv iota. rewrite Htrim.
  assert (Hm : rexec standardMarkdownRe
                 (js "[" ++ text ++ js "](" ++ url ++ js ")")
               = Some ([], <[1%nat := url]> ∅)).
  { unfold rexec, standardMarkdownRe. cbn [RSeq fold_right].
    rewrite rmatch_cat, rmatch_lit. cbv beta. rewrite rmatch_cat.
    rewrite rmatch_star. unfold RDot.
    apply starLoop_lazy_skip.
    - rewrite length_app. lia.
    - eapply Forall_impl; [exact Htext|]. intros c [_ Hc]. rewrite Hc.
      reflexivity.
    - intros c t Hin. rewrite Forall_forall in Htext.
      destruct (Htext c Hin) as [Hc _].
      cbv beta. rewrite rmatch_cat. change (js "](") with [93%Z; 40%Z].
      cbn [RLit rmatch]. destruct (Z.eqb_spec 93 c); [congruence|reflexivity].
    - cbv beta. rewrite rmatch_cat, rmatch_lit. cbv beta. rewrite rmatch_cat.
      apply rmatch_group_take.
      + intros k' Hk'. subst url.
        apply rmatch_httpUrlRe; try assumption. reflexivity.
      + reflexivity. }
  rewrite Hm. reflexivity.
Qed.

Lemma extractUrlFromMarkdown_link_witness :
  extractUrlFromMarkdown
    (js "[" ++ js "photo 1" ++ js "](" ++ (js "https://" ++ js "cdn.example.com/a.jpg")
     ++ js ")")
  = js "https://" ++ js "cdn.example.com/a.jpg".
Proof.
  apply (extractUrlFromMarkdown_link (js "photo 1") (js "https://")
           (js "cdn.example.com/a.jpg")).
  - apply (bool_decide_unpack _). vm_compute. exact I.
  - right. reflexivity.
  - discriminate.
  - apply (bool_decide_unpack _). vm_compute. exact I.
Defined.

(** ** More on the downloader and on [enrichProductImages] *)

(** The five ways a call of [downloadImage] can go. *)
Lemma downloadImage_cases cfg net imageUrl productId index :
  let d := downloadImage cfg net imageUrl productId index in
  (isHttpUrl imageUrl = false /\ d = mkDownload (inl InvalidImageUrl) [])
  \/ (isHttpUrl imageUrl = true
      /\ dl_requests d = [ReqHead imageUrl]
      /\ (exists e, dl_result d = inl e)
      /\ match net_head net imageUrl with
         | HeadOk ct len =>
             startsWith ct (js "image/") = false
             \/ exists n, len = Some n /\ (n > imageMaxBytes cfg)%Z
         | HeadFailed st => st <> Some 405%Z
         end)
  \/ (isHttpUrl imageUrl = true
      /\ dl_requests d = [ReqHead imageUrl; ReqGet imageUrl]
      /\ match net_head net imageUrl with
         | HeadOk ct len =>
             startsWith ct (js "image/") = true
             /\ forall n, len = Some n -> (n <= imageMaxBytes cfg)%Z
         | HeadFailed st => st = Some 405%Z
         end
      /\ match net_get net imageUrl with
         | GetOk ct true =>
             if startsWith ct (js "image/")
             then dl_result d = inr (storedImageUrl cfg productId index)
             else dl_result d = inl NotAnImage
         | GetOk ct false =>
             if startsWith ct (js "image/")
             then dl_result d = inl PipelineFailed
             else dl_result d = inl NotAnImage
         | GetFailed => dl_result d = inl RequestFailed
         end).
Proof.
  intros d. subst d. unfold downloadImage.
  destruct (isHttpUrl imageUrl) eqn:Hhttp; cbn [negb]; [|left; auto].
  right.
  assert (Hget : forall reqs,
    reqs = [ReqHead imageUrl] ->
    let d := match net_get net imageUrl with
      | GetOk contentType finishes =>
          if negb (startsWith contentType (js "image/"))
          then mkDownload (inl NotAnImage) (reqs ++ [ReqGet imageUrl])
          else if negb finishes
          then mkDownload (inl PipelineFailed) (reqs ++ [ReqGet imageUrl])
          else mkDownload
                 (inr (publicImageBaseUrl cfg ++ js "/" ++ productId ++ js "/"
                       ++ decimal index ++ js ".jpg"))
                 (reqs ++ [ReqGet imageUrl])
      | GetFailed => mkDownload (inl RequestFailed) (reqs ++ [ReqGet imageUrl])
      end in
    dl_requests d = [ReqHead imageUrl; ReqGet imageUrl]
    /\ match net_get net imageUrl with
       | GetOk ct true =>
           if startsWith ct (js "image/")
           then dl_result d = inr (storedImageUrl cfg productId index)
           else dl_result d = inl NotAnImage
       | GetOk ct false =>
           if startsWith ct (js "image/")
           then dl_result d = inl PipelineFailed
           else dl_result d = inl NotAnImage
       | GetFailed => dl_result d = inl RequestFailed
       end).
  { intros reqs ->. cbv zeta.
    destruct (net_get net imageUrl) as [ct fin|]; [|auto].
    destruct (startsWith ct (js "image/")), fin; cbn [negb]; auto. }
  destruct (net_head net imageUrl) as [ct len|st].
  - destruct (startsWith ct (js "image/")) eqn:Hct; cbn [negb].
    + destruct len as [n|].
      * destruct (Z.gtb_spec n (imageMaxBytes cfg)).
        -- left. repeat split; eauto. right. exists n. split; [reflexivity|lia].
        -- right. destruct (Hget _ eq_refl) as [Hr Hg].
           repeat split; try assumption. intros m [= <-]. lia.
      * right. destruct (Hget _ eq_refl) as [Hr Hg].
        repeat split; try assumption. discriminate.
    + left. repeat split; eauto.
  - destruct (decide (st = Some 405%Z)) as [->|Hne].
    + right. destruct (Hget _ eq_refl) as [Hr Hg]. repeat split; assumption.
    + left. destruct st as [[|q|q]|]; try (repeat split; eauto; fail).
      repeat (destruct q as [q|q|]; try (repeat split; eauto; fail)).
      contradiction.
Qed.

(** X13.  When [downloadImage] succeeds, the URL it was given is http(s),
    exactly one [HEAD] and then one [GET] were sent to that URL, the [GET]
    answered an [image/*] body that the resize-and-write pipeline finished,
    and the result is [<publicImageBaseUrl>/<productId>/<index>.jpg]. *)
Theorem downloadImage_success cfg net imageUrl productId index localUrl :
  dl_result (downloadImage cfg net imageUrl productId index) = inr localUrl ->
  isHttpUrl imageUrl = true
  /\ localUrl = storedImageUrl cfg productId index
  /\ dl_requests (downloadImage cfg net imageUrl productId index)
     = [ReqHead imageUrl; ReqGet imageUrl]
  /\ exists ct, net_get net imageUrl = GetOk ct true
                /\ startsWith ct (js "image/") = true.
Proof.
  intros Hres.
  destruct (downloadImage_cases cfg net imageUrl productId index)
    as [[_ Hd]|[(_ & _ & (e & He) & _)|(Hh & Hr & _ & Hg)]].
  - rewrite Hd in Hres. discriminate.
  - rewrite He in Hres. discriminate.
  - split; [exact Hh|].
    destruct (net_get net imageUrl) as [ct [|]|];
      try (rewrite Hg in Hres; discriminate);
      destruct (startsWith ct (js "image/")) eqn:Hct;
      try (rewrite Hg in Hres; discriminate).
    rewrite Hg in Hres. injection Hres as <-.
    split; [reflexivity|]. split; [exact Hr|]. exists ct. auto.
Qed.

Lemma downloadImage_success_witness :
  isHttpUrl (js "https://cdn.example.com/a.jpg") = true
  /\ js "/uploads/products/p1/3.jpg"
     = storedImageUrl exampleDownloaderConfig (js "p1") 3
  /\ dl_requests (downloadImage exampleDownloaderConfig (exampleNetwork [])
                    (js "https://cdn.example.com/a.jpg") (js "p1") 3)
     = [ReqHead (js "https://cdn.example.com/a.jpg");
        ReqGet (js "https://cdn.example.com/a.jpg")]
  /\ exists ct, net_get (exampleNetwork []) (js "https://cdn.example.com/a.jpg")
                = GetOk ct true
                /\ startsWith ct (js "image/") = true.
Proof.
  apply (downloadImage_success exampleDownloaderConfig (exampleNetwork [])
           (js "https://cdn.example.com/a.jpg") (js "p1") 3
           (js "/uploads/products/p1/3.jpg")).
  vm_compute. reflexivity.
Defined.


Section DownloadLoopMore.

Variables (cfg : DownloaderConfig) (net : Network) (productId : jsstring).
Variables (S0 : nat) (needed : Z).


(** The local URLs collected are those of the files written. *)
Lemma downloadCandidates_urls newUrls : forall st,
  downloadedUrls st = map (storedImageUrl cfg productId) (storedIndices st) ->
  downloadedUrls (downloadCandidates cfg net productId S0 needed newUrls st)
  = map (storedImageUrl cfg productId) (storedIndices (downloadCandidates cfg net productId S0 needed newUrls st)).
Proof.
  induction newUrls as [|url rest IH]; intros st Hst; simpl; [exact Hst|].
  destruct (Z.of_nat (length (downloadedUrls st)) >=? needed)%Z; [exact Hst|].
  apply IH.
  destruct (dl_result _) as [e|localUrl] eqn:Hres; simpl; [exact Hst|].
  apply downloadImage_success in Hres as (_ & -> & _).
  rewrite map_app, Hst. reflexivity.
Qed.



End DownloadLoopMore.

(** The run of [enrichProductImages] on the path that downloads. *)
Lemma enrich_download_path env productId desiredCount force product :
  env_product env = Some product ->
  let existing := length (normalizeImageUrls
                    (p_imagesProcessed product ++ p_imagesOriginal product)
                    None 10) in
  let needed := Z.max 0 (desiredCount - Z.of_nat existing) in
  let run := enrichProductImages env productId desiredCount force in
  (run_saved run = None /\ run_loop run = emptyLoop
   /\ er_downloaded (run_result run) = 0%nat)
  \/ (needed <> 0%Z
      /\ run_loop run
         = downloadCandidates (env_cfg env) (env_net env) productId
             (length (p_imagesProcessed product)) needed
             (newCandidateUrls env product) emptyLoop
      /\ er_downloaded (run_result run) = length (downloadedUrls (run_loop run))
      /\ exists notes,
           run_saved run
           = Some (mkProduct (p_title product) (p_imagesOriginal product)
                     (p_imagesProcessed product ++ downloadedUrls (run_loop run))
                     notes)
           /\ (downloadedUrls (run_loop run) = [] -> notes = p_notes product)).
Proof.
  intros Hp existing needed run. subst run. unfold enrichProductImages.
  rewrite Hp. cbv zeta. fold existing. fold needed.
  destruct (negb force && _); [left; auto|].
  destruct (env_query env); [left; auto|].
  destruct (Z.eqb_spec needed 0); [left; auto|].
  right. split; [assumption|]. split; [reflexivity|]. split; [reflexivity|].
  eexists. split; [reflexivity|]. simpl. intros ->. reflexivity.
Qed.



(** X16.  What [enrichProductImages] writes back: the title and the
    original images are untouched, the processed images are the old ones
    followed by one local URL [<base>/<productId>/<i>.jpg] per download,
    for [i] counting up from the old number of processed images; and when
    nothing was downloaded the record saved is the record loaded. *)
Theorem enrich_saved_record env productId desiredCount force :
  let run := enrichProductImages env productId desiredCount force in
  match run_saved run, env_product env with
  | Some saved, Some product =>
      p_title saved = p_title product
      /\ p_imagesOriginal saved = p_imagesOriginal product
      /\ p_imagesProcessed saved
         = p_imagesProcessed product
           ++ map (fun i => storedImageUrl (env_cfg env) productId (Z.of_nat i))
                  (seq (length (p_imagesProcessed product))
                       (er_downloaded (run_result run)))
      /\ (er_downloaded (run_result run) = 0%nat -> saved = product)
  | Some _, None => False
  | None, _ => er_downloaded (run_result run) = 0%nat
  end.
Proof.
  intros run. subst run.
  destruct (env_product env) as [product|] eqn:Hp;
    [|unfold enrichProductImages; rewrite Hp; reflexivity].
  destruct (enrich_download_path env productId desiredCount force product Hp)
    as [(Hs & _ & Hd)|(_ & Hl & Hd & notes & Hs & Hn)]; rewrite Hs; [exact Hd|].
  cbn [p_title p_imagesOriginal p_imagesProcessed].
  split; [reflexivity|]. split; [reflexivity|].
  assert (Hurls : downloadedUrls (run_loop (enrichProductImages env productId
                                              desiredCount force))
                  = map (fun i => storedImageUrl (env_cfg env) productId (Z.of_nat i))
                        (seq (length (p_imagesProcessed product))
                             (er_downloaded (run_result
                                (enrichProductImages env productId desiredCount
                                   force))))).
  { rewrite Hd, Hl.
    set (L := downloadCandidates _ _ _ _ _ _ _).
    pose proof (downloadCandidates_urls (env_cfg env) (env_net env) productId
                  (length (p_imagesProcessed product))
                  (Z.max 0 (desiredCount - Z.of_nat (length (normalizeImageUrls
                     (p_imagesProcessed product ++ p_imagesOriginal product)
                     None 10))))
                  (newCandidateUrls env product) emptyLoop eq_refl) as Hu.
    pose proof (downloadCandidates_contiguous (env_cfg env) (env_net env)
                  productId (length (p_imagesProcessed product))
                  (Z.max 0 (desiredCount - Z.of_nat (length (normalizeImageUrls
                     (p_imagesProcessed product ++ p_imagesOriginal product)
                     None 10))))
                  (newCandidateUrls env product) emptyLoop
                  (contiguousFrom_empty _)) as Hc.
    unfold contiguousFrom in Hc. fold L in Hu, Hc.
    etransitivity; [exact Hu|]. rewrite Hc. apply map_map. }
  split; [rewrite Hurls; reflexivity|].
  intros H0. rewrite H0 in Hurls. simpl in Hurls.
  rewrite Hurls, app_nil_r, (Hn Hurls). destruct product; reflexivity.
Qed.



(** X18.  The number of existing images [enrichProductImages] works with
    is capped at 10 (the default limit of [normalizeImageUrls]); so a run
    that asks for more than 10 images is never skipped, however many
    images the product has. *)
Theorem enrich_never_skipped_above_ten env productId desiredCount force :
  (10 < desiredCount)%Z ->
  er_skipped (run_result (enrichProductImages env productId desiredCount force))
  = false.
Proof.
  intros Hd. unfold enrichProductImages.
  destruct (env_product env) as [product|]; [|reflexivity].
  cbv zeta.
  destruct (normalizeImageUrls_sound
              (p_imagesProcessed product ++ p_imagesOriginal product) None 10)
    as (_ & Hlen & _).
  set (n := length _) in *.
  destruct (Z.geb_spec (Z.of_nat n) desiredCount); [lia|].
  rewrite andb_false_r.
  destruct (env_query env); [reflexivity|].
  destruct (_ =? 0)%Z; reflexivity.
Qed.

Lemma enrich_never_skipped_above_ten_witness :
  er_skipped (run_result (enrichProductImages (exampleEnv twoProcessed)
                            (js "p1") 12 false))
  = false.
Proof.
  apply (enrich_never_skipped_above_ten (exampleEnv twoProcessed) (js "p1") 12 false).
  reflexivity.
Defined.





(** ** The query cache of [cleanImageSearchQuery] *)

Lemma cache_get_app_miss (cache : QueryCache) key v :
  cache_get cache key = None -> cache_get (cache ++ [(key, v)]) key = Some v.
Proof.
  induction cache as [|[k v0] cache IH]; simpl.
  - intros _. unfold jsstring_eqb. rewrite bool_decide_eq_true_2; reflexivity.
  - destruct (jsstring_eqb k key); [discriminate|exact IH].
Qed.

Lemma cache_update_miss (cache : QueryCache) key v :
  cache_get cache key = None -> cache_update cache key v = None.
Proof.
  induction cache as [|[k v0] cache IH]; simpl; [reflexivity|].
  destruct (jsstring_eqb k key); [discriminate|].
  intros H. rewrite (IH H). reflexivity.
Qed.

Lemma cache_evict_miss max (cache : QueryCache) key :
  cache_get cache key = None -> cache_get (cache_evict max cache) key = None.
Proof.
  unfold cache_evict. destruct (_ >=? _)%Z; [|auto].
  destruct cache as [|[k v0] cache]; [auto|].
  destruct k as [|c k]; [auto|]. simpl.
  destruct (jsstring_eqb (c :: k) key); [discriminate|auto].
Qed.

(** Storing a result under a key that was not cached: the entry goes to
    the end, after the eviction, and is found again. *)
Lemma cache_store_miss max (cache : QueryCache) key v :
  cache_get cache key = None ->
  cache_set (cache_evict max cache) key v = cache_evict max cache ++ [(key, v)]
  /\ cache_get (cache_set (cache_evict max cache) key v) key = Some v.
Proof.
  intros Hmiss. pose proof (cache_evict_miss max cache key Hmiss) as He.
  unfold cache_set. rewrite (cache_update_miss _ _ _ He).
  split; [reflexivity|]. apply cache_get_app_miss, He.
Qed.

(** X20.  [cleanImageSearchQuery] memoizes: asking again for the same
    title, brand and store returns the first answer and leaves the cache as
    it is, whatever the AI would answer the second time. *)
Theorem cleanImageSearchQuery_memoizes (toLowerCase : jsstring -> jsstring)
    (cfg : CleanerConfig) (cache : QueryCache) (ai1 ai2 : AiOutcome)
    (title : jsstring) (brand store : option jsstring) :
  let first := cleanImageSearchQuery toLowerCase cfg cache ai1 title brand store in
  cleanImageSearchQuery toLowerCase cfg (snd first) ai2 title brand store = first.
Proof.
  intros first. subst first. unfold cleanImageSearchQuery.
  destruct (negb (aiTitleCleaningEnabled cfg) || negb (geminiApiKeySet cfg));
    [reflexivity|].
  destruct (trim title) as [|c t]; [reflexivity|].
  destruct (cache_get cache (getCacheKey title brand store)) as [cached|] eqn:Hget.
  - cbn [snd]. rewrite Hget. reflexivity.
  - assert (Hstore : forall v,
      cache_get (cache_set (cache_evict (aiTitleCleaningCacheMax cfg) cache)
                   (getCacheKey title brand store) v)
                (getCacheKey title brand store) = Some v)
      by (intros v; apply cache_store_miss, Hget).
    destruct ai1 as [q|]; [destruct (normalizeWhitespace q) as [|d u]|];
      cbn [snd]; rewrite Hstore; reflexivity.
Qed.

Lemma getCacheKey_nonempty title brand store : getCacheKey title brand store <> [].
Proof.
  unfold getCacheKey. destruct (default [] store); discriminate.
Qed.

Lemma cache_evict_within max (cache : QueryCache) :
  (1 <= max)%Z -> cacheWithin max cache ->
  (Z.of_nat (length (cache_evict max cache)) < max)%Z
  /\ Forall (fun e => fst e <> []) (cache_evict max cache).
Proof.
  intros Hmax [Hlen Hkeys]. unfold cache_evict.
  destruct (Z.geb_spec (Z.of_nat (length cache)) max) as [Hge|Hlt];
    [|split; [lia|exact Hkeys]].
  destruct cache as [|[k v] cache]; [simpl in *; lia|].
  apply Forall_cons in Hkeys as [Hk Hkeys]. simpl in Hk.
  destruct k as [|c k]; [contradiction|].
  split; [simpl in *; lia|exact Hkeys].
Qed.

(** X21.  The query cache stays within its bound: when it holds at most
    [aiTitleCleaningCacheMax >= 1] entries, none under an empty key, it
    still does after any call of [cleanImageSearchQuery], and a call adds
    at most one entry. *)
Theorem cleanImageSearchQuery_cache_bounded (toLowerCase : jsstring -> jsstring)
    (cfg : CleanerConfig) (cache : QueryCache) (ai : AiOutcome)
    (title : jsstring) (brand store : option jsstring) :
  (1 <= aiTitleCleaningCacheMax cfg)%Z ->
  cacheWithin (aiTitleCleaningCacheMax cfg) cache ->
  let cache' :=
    snd (cleanImageSearchQuery toLowerCase cfg cache ai title brand store) in
  cacheWithin (aiTitleCleaningCacheMax cfg) cache'
  /\ (length cache' <= S (length cache))%nat.
Proof.
  intros Hmax Hin cache'. subst cache'. unfold cleanImageSearchQuery.
  destruct (negb (aiTitleCleaningEnabled cfg) || negb (geminiApiKeySet cfg));
    [split; [exact Hin|simpl; lia]|].
  destruct (trim title) as [|c t]; [split; [exact Hin|simpl; lia]|].
  destruct (cache_get cache (getCacheKey title brand store)) as [cached|] eqn:Hget;
    [split; [exact Hin|simpl; lia]|].
  assert (Hstore : forall v,
    let c' := cache_set (cache_evict (aiTitleCleaningCacheMax cfg) cache)
                (getCacheKey title brand store) v in
    cacheWithin (aiTitleCleaningCacheMax cfg) c'
    /\ (length c' <= S (length cache))%nat).
  { intros v c'. subst c'.
    destruct (cache_store_miss (aiTitleCleaningCacheMax cfg) cache
                (getCacheKey title brand store) v Hget) as [-> _].
    destruct (cache_evict_within _ cache Hmax Hin) as [Hlt Hkeys].
    assert (Hle : (length (cache_evict (aiTitleCleaningCacheMax cfg) cache)
                   <= length cache)%nat).
    { unfold cache_evict. destruct (_ >=? _)%Z; [|lia].
      destruct cache as [|[[|c0 k] v0] cache]; simpl; lia. }
    split; [split|].
    - rewrite length_app. simpl. lia.
    - apply Forall_app. split; [exact Hkeys|].
      constructor; [apply getCacheKey_nonempty|constructor].
    - rewrite length_app. simpl. lia. }
  destruct ai as [q|]; [destruct (normalizeWhitespace q) as [|d u]|];
    cbn [snd]; apply Hstore.
Qed.

Lemma cleanImageSearchQuery_cache_bounded_witness :
  let cfg := mkCleanerConfig true true 1 in
  let cache' :=
    snd (cleanImageSearchQuery asciiLower cfg [] (AiAnswered (js "brand  item"))
           (js "brand item 30ml") None (Some (js "oliveyoung"))) in
  cacheWithin (aiTitleCleaningCacheMax cfg) cache'
  /\ (length cache' <= S (length ([] : QueryCache)))%nat.
Proof.
  apply (cleanImageSearchQuery_cache_bounded asciiLower
           (mkCleanerConfig true true 1) [] (AiAnswered (js "brand  item"))
           (js "brand item 30ml") None (Some (js "oliveyoung"))).
  - vm_compute. discriminate.
  - split; [vm_compute; discriminate|constructor].
Defined.

Lemma cleanImageSearchQuery_stores (toLowerCase : jsstring -> jsstring)
    (cfg : CleanerConfig) (cache : QueryCache) (ai : AiOutcome)
    (title : jsstring) (brand store : option jsstring) :
  aiTitleCleaningEnabled cfg = true -> geminiApiKeySet cfg = true ->
  trim title <> [] ->
  let first := cleanImageSearchQuery toLowerCase cfg cache ai title brand store in
  cache_get (snd first) (getCacheKey title brand store) = Some (fst first).
Proof.
  intros Hen Hkey Ht first. subst first. unfold cleanImageSearchQuery.
  rewrite Hen, Hkey. cbn [negb orb].
  destruct (trim title) as [|c t]; [contradiction|].
  destruct (cache_get cache (getCacheKey title brand store)) as [cached|] eqn:Hget;
    [exact Hget|].
  destruct ai as [q|]; [destruct (normalizeWhitespace q) as [|d u]|];
    cbn [snd fst]; apply cache_store_miss, Hget.
Qed.

Lemma cleanImageSearchQuery_hit (toLowerCase : jsstring -> jsstring)
    (cfg : CleanerConfig) (cache : QueryCache) (ai : AiOutcome)
    (title : jsstring) (brand store : option jsstring) (v : CleanResult) :
  aiTitleCleaningEnabled cfg = true -> geminiApiKeySet cfg = true ->
  trim title <> [] ->
  cache_get cache (getCacheKey title brand store) = Some v ->
  cleanImageSearchQuery toLowerCase cfg cache ai title brand store = (v, cache).
Proof.
  intros Hen Hkey Ht Hget. unfold cleanImageSearchQuery.
  rewrite Hen, Hkey. cbn [negb orb].
  destruct (trim title) as [|c t]; [contradiction|].
  rewrite Hget. reflexivity.
Qed.

(** X22.  The cache key is not injective: the part of a title before a
    [::] can move to the end of the brand without changing the key.  So,
    with AI cleaning on, a request for title [x::t] and brand [b] leaves an
    answer that the later request for title [t] and brand [b::x] receives
    unchanged, raw title included. *)
Theorem cleanImageSearchQuery_key_collision (toLowerCase : jsstring -> jsstring)
    (cfg : CleanerConfig) (cache : QueryCache) (ai1 ai2 : AiOutcome)
    (x t b : jsstring) (store : option jsstring) :
  aiTitleCleaningEnabled cfg = true -> geminiApiKeySet cfg = true ->
  trim (x ++ js "::" ++ t) <> [] -> trim t <> [] ->
  let first :=
    cleanImageSearchQuery toLowerCase cfg cache ai1 (x ++ js "::" ++ t)
      (Some b) store in
  getCacheKey (x ++ js "::" ++ t) (Some b) store
  = getCacheKey t (Some (b ++ js "::" ++ x)) store
  /\ cleanImageSearchQuery toLowerCase cfg (snd first) ai2 t
       (Some (b ++ js "::" ++ x)) store
     = first.
Proof.
  intros Hen Hkey Hxt Ht first.
  assert (Hk : getCacheKey (x ++ js "::" ++ t) (Some b) store
               = getCacheKey t (Some (b ++ js "::" ++ x)) store).
  { unfold getCacheKey.
    change (default [] (Some b)) with b.
    change (default [] (Some (b ++ js "::" ++ x))) with (b ++ js "::" ++ x).
    rewrite <- !(app_assoc b). rewrite <- !(app_assoc (js "::") x).
    reflexivity. }
  split; [exact Hk|].
  pose proof (cleanImageSearchQuery_stores toLowerCase cfg cache ai1
                (x ++ js "::" ++ t) (Some b) store Hen Hkey Hxt) as Hst.
  fold first in Hst. cbv zeta in Hst. rewrite Hk in Hst.
  rewrite (cleanImageSearchQuery_hit toLowerCase cfg (snd first) ai2 t
             (Some (b ++ js "::" ++ x)) store (fst first) Hen Hkey Ht Hst).
  destruct first; reflexivity.
Qed.

Lemma cleanImageSearchQuery_key_collision_witness :
  let cfg := mkCleanerConfig true true 100 in
  let first :=
    cleanImageSearchQuery asciiLower cfg [] (AiAnswered (js "serum 30ml"))
      (js "set" ++ js "::" ++ js "cream 50ml") (Some (js "acme")) None in
  getCacheKey (js "set" ++ js "::" ++ js "cream 50ml") (Some (js "acme")) None
  = getCacheKey (js "cream 50ml") (Some (js "acme" ++ js "::" ++ js "set")) None
  /\ cleanImageSearchQuery asciiLower cfg (snd first) AiFailed (js "cream 50ml")
       (Some (js "acme" ++ js "::" ++ js "set")) None
     = first.
Proof.
  apply (cleanImageSearchQuery_key_collision asciiLower
           (mkCleanerConfig true true 100) [] (AiAnswered (js "serum 30ml"))
           AiFailed (js "set") (js "cream 50ml") (js "acme") None).
  - reflexivity.
  - reflexivity.
  - vm_compute. discriminate.
  - vm_compute. discriminate.
Defined.

(** ** More on the merge step *)

Lemma updateFirst_length store sourceUrl toSet (db : Collection) :
  forall db' m, updateFirst store sourceUrl toSet db = Some (db', m) ->
    length db' = length db.
Proof.
  induction db as [|d rest IH]; intros db' m; simpl; [discriminate|].
  destruct (matchesFilter store sourceUrl d).
  - intros [= <- _]. reflexivity.
  - destruct (updateFirst store sourceUrl toSet rest) as [[rest' m']|];
      [|discriminate].
    intros [= <- _]. simpl. rewrite (IH rest' m' eq_refl). reflexivity.
Qed.

(** The counters of a bulk write add up, and the upserted ids are the
    positions appended. *)
Lemma bulkWrite_counts ops : forall (db : Collection) r,
  let '(db', r') := fold_left applyUpdateOne ops (db, r) in
  matchedCount r' + upsertedCount r'
  = matchedCount r + upsertedCount r + length ops
  /\ length db' = length db + (upsertedCount r' - upsertedCount r)
  /\ (upsertedCount r <= upsertedCount r')%nat
  /\ upsertedIds r'
     = upsertedIds r ++ seq (length db) (upsertedCount r' - upsertedCount r)
  /\ (matchedCount r <= matchedCount r')%nat
  /\ (modifiedCount r' - modifiedCount r <= matchedCount r' - matchedCount r)%nat.
Proof.
  induction ops as [|op ops IH]; intros db r; cbn [fold_left].
  - rewrite Nat.sub_diag, app_nil_r. simpl. repeat split; lia.
  - unfold applyUpdateOne at 2.
    destruct (updateFirst _ _ _ db) as [[db1 m]|] eqn:Hup.
    + pose proof (updateFirst_length _ _ _ _ _ _ Hup) as Hlen.
      match goal with
      | |- context [fold_left applyUpdateOne ops (db1, ?r1)] =>
          specialize (IH db1 r1); destruct (fold_left applyUpdateOne ops (db1, r1))
            as [db' r']
      end.
      cbn [matchedCount upsertedCount modifiedCount upsertedIds] in IH.
      destruct IH as (H1 & H2 & H3 & H4 & H5 & H6).
      rewrite Hlen in H2, H4. simpl. repeat split; try lia; try assumption.
      destruct m; lia.
    + match goal with
      | |- context [fold_left applyUpdateOne ops (?db1, ?r1)] =>
          specialize (IH db1 r1); destruct (fold_left applyUpdateOne ops (db1, r1))
            as [db' r']
      end.
      cbn [matchedCount upsertedCount modifiedCount upsertedIds] in IH.
      destruct IH as (H1 & H2 & H3 & H4 & H5 & H6).
      rewrite length_app in H2, H4. simpl in H2, H4.
      simpl. repeat split; try lia.
      rewrite H4, <- app_assoc. f_equal.
      replace (upsertedCount r' - upsertedCount r)
        with (S (upsertedCount r' - S (upsertedCount r))) by lia.
      simpl. rewrite Nat.add_1_r. reflexivity.
Qed.

(** X23.  The statistics of a merge add up: every incoming record is
    either matched or inserted, the collection grows by exactly the number
    inserted and never shrinks, the upserted ids are the positions
    appended, and no more records are counted as updated than matched. *)
Theorem mergeImport_counts (cfg : MergeConfig)
    (batch : list ProcessedProduct) (db : Collection) :
  let '(db', stats) := mergeImport cfg batch db in
  matched stats + inserted stats = length batch
  /\ length db' = length db + inserted stats
  /\ stats_upsertedIds stats = seq (length db) (inserted stats)
  /\ (updated stats <= matched stats)%nat.
Proof.
  unfold mergeImport, bulkWrite.
  pose proof (bulkWrite_counts (mergeOps cfg batch db) db (mkBulkResult 0 0 0 []))
    as H.
  destruct (fold_left applyUpdateOne (mergeOps cfg batch db) _) as [db' r'].
  cbn [matchedCount upsertedCount modifiedCount upsertedIds] in H.
  destruct H as (H1 & H2 & H3 & H4 & H5 & H6).
  cbn [matched inserted updated stats_upsertedIds].
  rewrite Nat.sub_0_r in H2, H4, H6. simpl in H4.
  repeat split; try assumption; try lia.
  rewrite H1. unfold mergeOps. rewrite !length_map. reflexivity.
Qed.

(** An update leaves alone every document of another identity. *)
Lemma updateFirst_frame store sourceUrl toSet (db : Collection) :
  forall db' m i d0,
    updateFirst store sourceUrl toSet db = Some (db', m) ->
    db !! i = Some d0 ->
    docIdentity d0 <> (Some (VStr store), Some (VStr sourceUrl)) ->
    db' !! i = Some d0.
Proof.
  induction db as [|d rest IH]; intros db' m i d0; simpl; [discriminate|].
  destruct (matchesFilter store sourceUrl d) eqn:Hm.
  - apply matchesFilter_true in Hm. intros [= <- <-].
    destruct i as [|i]; simpl; [|auto].
    intros [= ->] Hne. contradiction.
  - destruct (updateFirst store sourceUrl toSet rest) as [[rest' m']|] eqn:Hu;
      [|discriminate].
    intros [= <- <-]. destruct i as [|i]; simpl; [auto|].
    intros Hi Hne. exact (IH rest' m' i d0 eq_refl Hi Hne).
Qed.

Lemma bulkWrite_frame ops : forall (db : Collection) r i d0,
  db !! i = Some d0 ->
  Forall (fun op => opIdentity op <> docIdentity d0) ops ->
  (fold_left applyUpdateOne ops (db, r)).1 !! i = Some d0.
Proof.
  induction ops as [|op ops IH]; intros db r i d0 Hi Hall; cbn [fold_left];
    [exact Hi|].
  apply Forall_cons in Hall as [Hop Hall].
  unfold applyUpdateOne at 2.
  destruct (updateFirst _ _ _ db) as [[db1 m]|] eqn:Hup.
  - apply IH; [|exact Hall].
    apply (updateFirst_frame _ _ _ _ _ _ _ _ Hup Hi).
    intros Heq. apply Hop. symmetry. exact Heq.
  - apply IH; [|exact Hall].
    rewrite lookup_app_l by (apply lookup_lt_Some in Hi; exact Hi). exact Hi.
Qed.

(** X24.  A merge leaves untouched, at its position, every stored record
    whose identity (store, sourceUrl) is not the identity of an incoming
    record. *)
Theorem mergeImport_frame (cfg : MergeConfig) (batch : list ProcessedProduct)
    (db : Collection) (i : nat) (d0 : Doc) :
  db !! i = Some d0 ->
  Forall (fun p => productIdentity p <> docIdentity d0) batch ->
  (mergeImport cfg batch db).1 !! i = Some d0.
Proof.
  intros Hi Hall. unfold mergeImport, bulkWrite.
  pose proof (bulkWrite_frame (mergeOps cfg batch db) db (mkBulkResult 0 0 0 [])
                i d0 Hi) as H.
  destruct (fold_left applyUpdateOne (mergeOps cfg batch db) _) as [db' r'].
  cbn [fst] in *. apply H.
  apply Forall_forall. intros op Hop Heq.
  assert (Hid : In (opIdentity op) (map productIdentity batch)).
  { rewrite <- (mergeOps_identities cfg batch db). apply in_map.
    apply list_elem_of_In. exact Hop. }
  apply in_map_iff in Hid as (p & Hp & Hin).
  rewrite Forall_forall in Hall.
  apply (Hall p (proj2 (list_elem_of_In _ _) Hin)). rewrite Hp. exact Heq.
Qed.

Lemma mergeImport_frame_witness :
  (mergeImport exampleMergeConfig [otherProduct] [lockedDoc]).1 !! 0%nat
  = Some lockedDoc.
Proof.
  apply (mergeImport_frame exampleMergeConfig [otherProduct] [lockedDoc] 0
           lockedDoc).
  - reflexivity.
  - constructor; [|constructor]. vm_compute. discriminate.
Defined.

(** A document inserted by this merge carries an empty LockSet. *)
Lemma updateFirst_field store sourceUrl toSet (db : Collection) (f : string) :
  toSet !! f = None ->
  forall db' m i d',
    updateFirst store sourceUrl toSet db = Some (db', m) ->
    db' !! i = Some d' ->
    exists d, db !! i = Some d /\ d' !! f = d !! f.
Proof.
  intros Hf. induction db as [|d rest IH]; intros db' m i d'; simpl;
    [discriminate|].
  destruct (matchesFilter store sourceUrl d) eqn:Hm.
  - intros [= <- <-]. destruct i as [|i]; simpl.
    + intros [= <-]. exists d. split; [reflexivity|].
      rewrite lookup_union_r by exact Hf. reflexivity.
    + intros Hi. exists d'. auto.
  - destruct (updateFirst store sourceUrl toSet rest) as [[rest' m']|] eqn:Hu;
      [|discriminate].
    intros [= <- <-]. destruct i as [|i]; simpl.
    + intros [= <-]. exists d. auto.
    + intros Hi. exact (IH rest' m' i d' eq_refl Hi).
Qed.

Lemma insertedDoc_lockedFields lm p :
  insertedDoc (buildUpdateOne lm p) !! "lockedFields"%string = Some (VList []).
Proof.
  unfold insertedDoc.
  rewrite <- (assoc_L (∪)).
  rewrite lookup_union_r by apply buildUpdateOne_lockedFields.
  apply lookup_union_Some_l. reflexivity.
Qed.

Lemma bulkWrite_inserted_unlocked (n : nat) ops : forall (db : Collection) r,
  Forall (fun op => exists lm p, op = buildUpdateOne lm p) ops ->
  (n <= length db)%nat ->
  (forall i d, (n <= i)%nat -> db !! i = Some d ->
               d !! "lockedFields"%string = Some (VList [])) ->
  forall i d, (n <= i)%nat ->
    (fold_left applyUpdateOne ops (db, r)).1 !! i = Some d ->
    d !! "lockedFields"%string = Some (VList []).
Proof.
  induction ops as [|op ops IH]; intros db r Hops Hn Hinv i d Hi;
    cbn [fold_left]; [apply Hinv; exact Hi|].
  apply Forall_cons in Hops as [(lm & p & ->) Hops].
  unfold applyUpdateOne at 2.
  destruct (updateFirst _ _ _ db) as [[db1 m]|] eqn:Hup.
  - apply IH; try assumption.
    + rewrite (updateFirst_length _ _ _ _ _ _ Hup). exact Hn.
    + intros j d' Hj Hd'.
      destruct (updateFirst_field _ _ _ db "lockedFields"
                  (buildUpdateOne_lockedFields lm p) _ _ _ _ Hup Hd')
        as (d0 & Hd0 & ->).
      exact (Hinv j d0 Hj Hd0).
  - apply IH; try assumption.
    + rewrite length_app. lia.
    + intros j d' Hj Hd'.
      apply lookup_app_Some in Hd' as [Hd'|[Hlen Hd']];
        [exact (Hinv j d' Hj Hd')|].
      destruct (j - length db) as [|k]; [|destruct k; discriminate].
      injection Hd' as <-. apply insertedDoc_lockedFields.
Qed.

(** X25.  A record that an import inserts starts unlocked: every document
    the merge appends to the collection carries the empty LockSet. *)
Theorem mergeImport_inserts_unlocked (cfg : MergeConfig)
    (batch : list ProcessedProduct) (db : Collection) (i : nat) (d : Doc) :
  (length db <= i)%nat ->
  (mergeImport cfg batch db).1 !! i = Some d ->
  d !! "lockedFields"%string = Some (VList []) /\ docLockedFields d = [].
Proof.
  intros Hi Hd. unfold mergeImport, bulkWrite in Hd.
  assert (Hl : d !! "lockedFields"%string = Some (VList [])).
  { apply (bulkWrite_inserted_unlocked (length db) (mergeOps cfg batch db) db
             (mkBulkResult 0 0 0 [])) with (i := i); try assumption; try lia.
    - unfold mergeOps. apply Forall_forall. intros op Hop.
      apply list_elem_of_In, in_map_iff in Hop as (p & <- & _). eauto.
    - intros j d' Hj Hd'. apply lookup_lt_Some in Hd'. lia.
    - destruct (fold_left applyUpdateOne (mergeOps cfg batch db) _) as [db' r'].
      exact Hd. }
  split; [exact Hl|]. unfold docLockedFields. rewrite Hl. reflexivity.
Qed.

Lemma mergeImport_inserts_unlocked_witness :
  insertedDoc (buildUpdateOne ∅ otherProduct) !! "lockedFields"%string
  = Some (VList [])
  /\ docLockedFields (insertedDoc (buildUpdateOne ∅ otherProduct)) = [].
Proof.
  apply (mergeImport_inserts_unlocked exampleMergeConfig [otherProduct]
           [lockedDoc] 1 (insertedDoc (buildUpdateOne ∅ otherProduct))).
  - simpl. lia.
  - vm_compute. reflexivity.
Defined.

(** ** The lock handling of [PATCH /api/products/:id] *)

Lemma set_delete_elem (x f : jsstring) (s : list jsstring) :
  f ∈ set_delete x s <-> f ∈ s /\ f <> x.
Proof. unfold set_delete. rewrite list_elem_of_filter. tauto. Qed.

Lemma fold_set_delete_elem (u : list jsstring) : forall (s : list jsstring) f,
  f ∈ fold_left (fun s field => set_delete field s) u s <-> f ∈ s /\ f ∉ u.
Proof.
  induction u as [|x u IH]; intros s f; simpl.
  - rewrite elem_of_nil. tauto.
  - rewrite IH, set_delete_elem, elem_of_cons. tauto.
Qed.

Lemma fold_set_delete_NoDup (u : list jsstring) : forall s : list jsstring,
  NoDup s -> NoDup (fold_left (fun s field => set_delete field s) u s).
Proof.
  induction u as [|x u IH]; intros s Hs; simpl; [exact Hs|].
  apply IH. unfold set_delete. apply NoDup_filter, Hs.
Qed.

(** X26.  The LockSet after a PATCH: it holds no field twice, and a field
    is locked exactly when (a) it was locked and the request does not
    unlock it, or (b) the request asks to lock it and it is a lockable
    field, or (c) the request edits it and does not unlock it.  So an edit
    locks the field it edits, an explicit unlock wins over that auto-lock,
    and an explicit lock wins over an unlock in the same request. *)
Theorem patchLockedFields_spec (lockedFields : list jsstring) (body : PatchBody)
    (f : jsstring) :
  let unlocked :=
    match patch_unlockFields body with Some u => f ∈ u | None => False end in
  NoDup (patchLockedFields lockedFields body)
  /\ (f ∈ patchLockedFields lockedFields body
      <-> (f ∈ lockedFields /\ ~ unlocked)
          \/ (exists l, patch_lockFields body = Some l /\ f ∈ l
                        /\ f ∈ map js LOCKABLE_PRODUCT_FIELDS)
          \/ (f ∈ editedFields body /\ ~ unlocked)).
Proof.
  intros unlocked. unfold patchLockedFields.
  set (current := match patch_unlockFields body with
                  | Some u => fold_left (fun s field => set_delete field s) u
                                        (arrayFromSet lockedFields)
                  | None => arrayFromSet lockedFields
                  end).
  assert (Hcur : NoDup current
                 /\ (f ∈ current <-> f ∈ lockedFields /\ ~ unlocked)).
  { subst current unlocked. destruct (patch_unlockFields body) as [u|].
    - split; [apply fold_set_delete_NoDup, arrayFromSet_NoDup|].
      rewrite fold_set_delete_elem, arrayFromSet_elem. tauto.
    - split; [apply arrayFromSet_NoDup|]. rewrite arrayFromSet_elem. tauto. }
  destruct Hcur as [Hnd Hin].
  split; [apply set_add_all_NoDup, Hnd|].
  rewrite !set_add_all_elem, Hin, list_elem_of_filter.
  assert (Hlock :
    f ∈ match patch_lockFields body with
        | Some lockFields =>
            set_add_all []
              (filter (fun field =>
                         Is_true (existsb (jsstring_eqb field)
                                          (map js LOCKABLE_PRODUCT_FIELDS)))
                      lockFields)
        | None => []
        end
    <-> exists l, patch_lockFields body = Some l /\ f ∈ l
                  /\ f ∈ map js LOCKABLE_PRODUCT_FIELDS).
  { destruct (patch_lockFields body) as [l|].
    - rewrite set_add_all_elem, elem_of_nil, list_elem_of_filter, Is_true_true,
        existsb_jsstring_eqb.
      split.
      + intros [[]|[Hl Hf]]. exists l. auto.
      + intros (l' & [= <-] & Hf & Hl). right. auto.
    - rewrite elem_of_nil. split; [tauto|]. intros (l & Hl & _). discriminate. }
  assert (Hun : Is_true match patch_unlockFields body with
                        | Some unlockFields =>
                            negb (existsb (jsstring_eqb f) unlockFields)
                        | None => true
                        end <-> ~ unlocked).
  { subst unlocked. destruct (patch_unlockFields body) as [u|]; [|simpl; tauto].
    rewrite Is_true_true, negb_true_iff, <- not_true_iff_false,
      existsb_jsstring_eqb. tauto. }
  rewrite Hlock, Hun. tauto.
Qed.

(** The three consequences on an example: the price is edited, [notes] is
    edited and unlocked, [title] is unlocked and locked. *)
Example patchLockedFields_example :
  patchLockedFields [js "title"; js "status"; js "title"]
    (mkPatchBody false true false false false true
       (Some [js "title"; js "titleMn"]) (Some [js "notes"; js "title"]))
  = [js "status"; js "title"; js "price"].
Proof. vm_compute. reflexivity. Qed.

(** ** [simpleHash] *)

Lemma toInt32_shift (x k : Z) : toInt32 (x + k * 2 ^ 32) = toInt32 x.
Proof.
  unfold toInt32. replace (x + k * 2 ^ 32 + 2 ^ 31)%Z
    with (x + 2 ^ 31 + k * 2 ^ 32)%Z by lia.
  rewrite Z_mod_plus_full. reflexivity.
Qed.

Lemma toInt32_offset (x : Z) : exists k, toInt32 x = (x + k * 2 ^ 32)%Z.
Proof.
  exists (- ((x + 2 ^ 31) / 2 ^ 32))%Z. unfold toInt32.
  rewrite Zmod_eq_full by discriminate. lia.
Qed.

Lemma toInt32_range (x : Z) : (- 2 ^ 31 <= toInt32 x < 2 ^ 31)%Z.
Proof.
  unfold toInt32.
  pose proof (Z.mod_pos_bound (x + 2 ^ 31) (2 ^ 32) ltac:(reflexivity)). lia.
Qed.

Lemma toInt32_small (x : Z) : (- 2 ^ 31 <= x < 2 ^ 31)%Z -> toInt32 x = x.
Proof. intros Hx. unfold toInt32. rewrite Z.mod_small; lia. Qed.

Lemma toInt32_idemp (x : Z) : toInt32 (toInt32 x) = toInt32 x.
Proof. apply toInt32_small, toInt32_range. Qed.

Lemma hashStep_unfold (h c : Z) :
  hashStep h c = toInt32 (toInt32 (toInt32 h * 2 ^ 5) + h + c).
Proof.
  unfold hashStep, jsBitAnd, jsShiftLeft. cbv zeta.
  rewrite Z.land_diag. rewrite Z.shiftl_mul_pow2 by discriminate.
  reflexivity.
Qed.

Lemma toInt32_congr (a b k : Z) :
  a = (b + k * 2 ^ 32)%Z -> toInt32 a = toInt32 b.
Proof. intros ->. apply toInt32_shift. Qed.

(** Wrapping at every step is wrapping once at the end. *)
Lemma hashStep_djb2 (H c : Z) :
  hashStep (toInt32 H) c = toInt32 (H * 33 + c).
Proof.
  rewrite hashStep_unfold, toInt32_idemp.
  destruct (toInt32_offset H) as (k1 & Hk1).
  destruct (toInt32_offset (toInt32 H * 2 ^ 5)) as (k2 & Hk2).
  apply (toInt32_congr _ _ (33 * k1 + k2)).
  rewrite Hk2, Hk1. lia.
Qed.

Lemma hashLoop_from (str : jsstring) : forall H,
  fold_left hashStep str (toInt32 H)
  = toInt32 (fold_left (fun h c => (h * 33 + c)%Z) str H).
Proof.
  induction str as [|c str IH]; intros H; [reflexivity|].
  rewrite !fold_left_cons, hashStep_djb2. apply IH.
Qed.

Lemma hexDigit_value (d : Z) :
  (0 <= d < 16)%Z ->
  hexDigitValue (hexDigit d) = d /\ isHexDigit (hexDigit d) = true.
Proof.
  intros Hd.
  assert (Hcases : In d [0; 1; 2; 3; 4; 5; 6; 7; 8; 9; 10; 11; 12; 13; 14; 15]%Z).
  { simpl. lia. }
  simpl in Hcases.
  repeat (destruct Hcases as [<-|Hcases]; [split; reflexivity|]).
  contradiction.
Qed.

Lemma toHexFrom_value (fuel : nat) : forall n acc,
  (0 <= n < 2 ^ Z.of_nat fuel)%Z ->
  hexValue (toHexFrom fuel n acc)
  = fold_left (fun v c => (v * 16 + hexDigitValue c)%Z) acc n.
Proof.
  unfold hexValue.
  induction fuel as [|fuel IH]; intros n acc Hn.
  - simpl in *. assert (n = 0%Z) as -> by lia. reflexivity.
  - cbn [toHexFrom].
    pose proof (Z.mod_pos_bound n 16 ltac:(reflexivity)) as Hmod.
    pose proof (Z.div_mod n 16 ltac:(discriminate)) as Hdiv.
    destruct (hexDigit_value (n mod 16) Hmod) as [Hv _].
    destruct (Z.eqb_spec (n / 16) 0) as [H0|H0].
    + simpl. rewrite Hv. f_equal. lia.
    + rewrite IH.
      * simpl. rewrite Hv. f_equal. lia.
      * split; [apply Z.div_pos; lia|].
        apply Z.div_lt_upper_bound; [lia|].
        rewrite Nat2Z.inj_succ, Z.pow_succ_r in Hn by lia. lia.
Qed.

Lemma toHexFrom_digits (fuel : nat) : forall n acc,
  (0 <= n)%Z -> Forall (fun c => isHexDigit c = true) acc ->
  Forall (fun c => isHexDigit c = true) (toHexFrom fuel n acc).
Proof.
  induction fuel as [|fuel IH]; intros n acc Hn Hacc; [exact Hacc|].
  cbn [toHexFrom].
  pose proof (Z.mod_pos_bound n 16 ltac:(reflexivity)) as Hmod.
  destruct (hexDigit_value (n mod 16) Hmod) as [_ Hd].
  destruct (n / 16 =? 0)%Z.
  - constructor; assumption.
  - apply IH; [apply Z.div_pos; lia|constructor; assumption].
Qed.

Lemma toHexFrom_length (fuel : nat) : forall n acc (k : nat),
  (0 <= n < 16 ^ Z.of_nat (S k))%Z ->
  (length acc < length (toHexFrom (S fuel) n acc) <= S k + length acc)%nat.
Proof.
  induction fuel as [|fuel IH]; intros n acc k Hn.
  - simpl. destruct (n / 16 =? 0)%Z; simpl; lia.
  - cbn [toHexFrom] in *.
    destruct (Z.eqb_spec (n / 16) 0) as [H0|H0]; [simpl; lia|].
    destruct k as [|k].
    + exfalso. apply H0. apply Z.div_small. simpl in Hn. lia.
    + specialize (IH (n / 16)%Z (hexDigit (n mod 16) :: acc) k).
      cbn [toHexFrom] in IH. cbn [length] in IH.
      assert (Hq : (0 <= n / 16 < 16 ^ Z.of_nat (S k))%Z).
      { split; [apply Z.div_pos; lia|].
        apply Z.div_lt_upper_bound; [lia|].
        rewrite (Nat2Z.inj_succ (S k)), Z.pow_succ_r in Hn by lia. lia. }
      specialize (IH Hq). lia.
Qed.

(** X27.  [simpleHash] is the 32-bit djb2 hash: the number its loop ends
    with is [h * 33 + c] folded from 5381 over the code units and wrapped
    once to 32 bits, and the string returned is the absolute value of that
    number written with one to eight lower-case hexadecimal digits. *)
Theorem simpleHash_djb2 (str : jsstring) :
  hashLoop str = toInt32 (djb2 str)
  /\ hexValue (simpleHash str) = Z.abs (toInt32 (djb2 str))
  /\ Forall (fun c => isHexDigit c = true) (simpleHash str)
  /\ (1 <= length (simpleHash str) <= 8)%nat.
Proof.
  assert (Hloop : hashLoop str = toInt32 (djb2 str)).
  { unfold hashLoop, djb2. change 5381%Z with (toInt32 5381) at 1.
    apply hashLoop_from. }
  split; [exact Hloop|].
  unfold simpleHash. rewrite Hloop.
  pose proof (toInt32_range (djb2 str)) as Hr.
  set (n := Z.abs (toInt32 (djb2 str))).
  assert (Hn : (0 <= n <= 2 ^ 31)%Z) by (subst n; lia).
  unfold toString16. split; [|split].
  - rewrite toHexFrom_value; [reflexivity|].
    split; [lia|]. rewrite Nat2Z.inj_succ, Z2Nat.id by apply Z.log2_nonneg.
    destruct (Z.eq_dec n 0%Z) as [Hz|Hne]; [rewrite Hz; reflexivity|].
    apply Z.log2_spec. lia.
  - apply toHexFrom_digits; [lia|constructor].
  - pose proof (toHexFrom_length (Z.to_nat (Z.log2 n)) n [] 7) as Hlen.
    simpl length in Hlen. apply Hlen. split; [lia|].
    change (16 ^ Z.of_nat 8)%Z with (2 ^ 32)%Z. 
    assert (2 ^ 31 < 2 ^ 32)%Z by reflexivity. lia.
Qed.

Example simpleHash_examples :
  simpleHash [] = js "1505" /\ simpleHash (js "a") = js "2b606"
  /\ simpleHash (js "hello world, this is a long string") = js "61a2ed77".
Proof. vm_compute. auto. Qed.

(** ** The [/apply] route *)





Section ApplyLoop.

Variables (cfg : DownloaderConfig) (net : Network) (productId : jsstring).
Variable S0 : nat.


(** The loop tries every URL once: one download or one error each; the
    files are numbered from [S0] without a gap and stored under the URLs
    returned. *)
Lemma applyDownloads_shape newUrls : forall st,
  contiguousFrom S0 st ->
  downloadedUrls st = map (storedImageUrl cfg productId) (storedIndices st) ->
  let st' := applyDownloads cfg net productId S0 newUrls st in
  contiguousFrom S0 st'
  /\ downloadedUrls st' = map (storedImageUrl cfg productId) (storedIndices st')
  /\ length (downloadedUrls st') + length (errors st')
     = length (downloadedUrls st) + length (errors st) + length newUrls.
Proof.
  induction newUrls as [|url rest IH]; intros st Hc Hu; simpl; [auto|].
  match goal with
  | |- context [applyDownloads cfg net productId S0 rest ?s] =>
      destruct (IH s) as (H1 & H2 & H3)
  end.
  - unfold contiguousFrom in *.
    destruct (dl_result _) as [e|localUrl]; simpl; [exact Hc|].
    rewrite length_app, Hc. simpl.
    rewrite Nat.add_1_r, seq_S, map_app. reflexivity.
  - destruct (dl_result _) as [e|localUrl] eqn:Hres; simpl; [exact Hu|].
    apply downloadImage_success in Hres as (_ & -> & _).
    rewrite map_app, Hu. reflexivity.
  - split; [exact H1|]. split; [exact H2|]. rewrite H3.
    destruct (dl_result _); simpl; rewrite ?length_app; simpl; lia.
Qed.

End ApplyLoop.


(** X29.  When the [/apply] route downloads, it tries every new URL once,
    at most 10 of them (the limit of [normalizeImageUrls], although up to
    30 URLs are accepted); the files are numbered on from the number of
    processed images the product had, without a gap; and the record saved
    is the old one with the local URLs of the downloads appended to its
    processed images. *)
Theorem applyImages_done (isUrlSafe : jsstring -> bool)
    (cfg : DownloaderConfig) (net : Network) (findById : option Product)
    (productId : jsstring) (rawUrls : option (list (option jsstring)))
    (downloaded failed : nat) (errs : list DownloadError) (saved : Product) :
  let run := applyImages isUrlSafe cfg net findById productId rawUrls in
  apply_response run = ApplyDone downloaded failed errs saved ->
  exists product,
    findById = Some product
    /\ apply_saved run = Some saved
    /\ downloaded + failed
       = length (applyNewUrls isUrlSafe product (applyUrls rawUrls))
    /\ (1 <= downloaded + failed <= 10)%nat
    /\ failed = length errs
    /\ storedIndices (apply_loop run)
       = map Z.of_nat (seq (length (p_imagesProcessed product)) downloaded)
    /\ p_imagesProcessed saved
       = p_imagesProcessed product
         ++ map (fun i => storedImageUrl cfg productId (Z.of_nat i))
                (seq (length (p_imagesProcessed product)) downloaded)
    /\ p_imagesOriginal saved = p_imagesOriginal product
    /\ p_title saved = p_title product /\ p_notes saved = p_notes product.
Proof.
  intros run. subst run. unfold applyImages.
  destruct productId as [|c0 pid]; [discriminate|].
  destruct (length (applyUrls rawUrls) =? 0)%nat; [discriminate|].
  destruct (30 <? length (applyUrls rawUrls))%nat; [discriminate|].
  destruct findById as [product|]; [|discriminate].
  cbv zeta.
  destruct (length (applyRouteSafeUrls _ _) =? 0)%nat; [discriminate|].
  destruct (Nat.eqb_spec (length (applyNewUrls isUrlSafe product
                                    (applyUrls rawUrls))) 0) as [|Hnew];
    [discriminate|].
  cbn [apply_response apply_saved apply_loop].
  set (newUrls := applyNewUrls isUrlSafe product (applyUrls rawUrls)) in *.
  destruct (applyDownloads_shape cfg net (c0 :: pid)
              (length (p_imagesProcessed product)) newUrls emptyLoop
              (contiguousFrom_empty _) eq_refl) as (Hc & Hu & Hcount).
  set (st := applyDownloads cfg net (c0 :: pid)
               (length (p_imagesProcessed product)) newUrls emptyLoop) in *.
  intros [= <- <- <- <-]. exists product.
  simpl in Hcount. unfold contiguousFrom in Hc.
  assert (Hlen : (length newUrls <= 10)%nat).
  { subst newUrls. unfold applyNewUrls.
    etransitivity; [apply length_filter|].
    rewrite arrayFromSet_fixed
      by (apply (normalizeImageUrls_sound _ None 10)).
    apply (normalizeImageUrls_sound _ None 10). }
  repeat split; try reflexivity; try assumption; try lia.
  cbn [p_imagesProcessed]. f_equal.
  etransitivity; [exact Hu|]. rewrite Hc. apply map_map.
Qed.



Lemma applyImages_done_witness :
  let run := applyImages (isUrlSafe asciiLower exampleParseURL)
               exampleDownloaderConfig (exampleNetwork []) (Some twoOriginals)
               (js "p1") exampleApplyBody in
  exists product,
    Some twoOriginals = Some product
    /\ apply_saved run = Some exampleApplySaved
    /\ (1 + 0)%nat
       = length (applyNewUrls (isUrlSafe asciiLower exampleParseURL) product
                   (applyUrls exampleApplyBody))
    /\ (1 <= 1 + 0 <= 10)%nat
    /\ 0%nat = length ([] : list DownloadError)
    /\ storedIndices (apply_loop run)
       = map Z.of_nat (seq (length (p_imagesProcessed product)) 1)
    /\ p_imagesProcessed exampleApplySaved
       = p_imagesProcessed product
         ++ map (fun i => storedImageUrl exampleDownloaderConfig (js "p1")
                            (Z.of_nat i))
                (seq (length (p_imagesProcessed product)) 1)
    /\ p_imagesOriginal exampleApplySaved = p_imagesOriginal product
    /\ p_title exampleApplySaved = p_title product
    /\ p_notes exampleApplySaved = p_notes product.
Proof.
  apply (applyImages_done (isUrlSafe asciiLower exampleParseURL)
           exampleDownloaderConfig (exampleNetwork []) (Some twoOriginals)
           (js "p1") exampleApplyBody 1 0 [] exampleApplySaved).
  vm_compute. reflexivity.
Defined.

(** ** Whitespace normalization *)

Lemma spacesCollapsed_tail (c : Z) (s : jsstring) :
  spacesCollapsed (c :: s) = true -> spacesCollapsed s = true.
Proof. simpl. intros H. apply andb_prop in H as [_ H]. exact H. Qed.

Lemma spacesCollapsed_suffix (a m : jsstring) :
  spacesCollapsed (a ++ m) = true -> spacesCollapsed m = true.
Proof.
  induction a as [|c a IH]; simpl; [auto|].
  intros H. apply andb_prop in H as [_ H]. exact (IH H).
Qed.

Lemma spacesCollapsed_prefix (m b : jsstring) :
  spacesCollapsed (m ++ b) = true -> spacesCollapsed m = true.
Proof.
  induction m as [|c m IH]; simpl; [auto|].
  intros H. apply andb_prop in H as [Hc H]. rewrite (IH H), andb_true_r.
  destruct (isWhiteSpace c); [|reflexivity].
  apply andb_prop in Hc as [H32 Hnext]. rewrite H32. simpl.
  destruct m as [|d m]; [reflexivity|exact Hnext].
Qed.

Lemma replace_whitespace_collapsed (fuel : nat) : forall s,
  (length s < fuel)%nat ->
  let r := replace_g fuel (RPlus true RSpace) (fun _ => js " ") s in
  spacesCollapsed r = true
  /\ match s with
     | c :: _ => isWhiteSpace c = false -> exists r', r = c :: r'
     | [] => r = []
     end.
Proof.
  induction fuel as [|fuel IH]; intros s Hlen; [lia|].
  cbv zeta. rewrite replace_whitespace_step.
  destruct s as [|c s]; [auto|]. simpl in Hlen.
  destruct (isWhiteSpace c) eqn:Hc.
  - split; [|discriminate].
    pose proof (trimStart_length s) as Hts.
    destruct (IH (trimStart s) ltac:(lia)) as [Hcol Hhead].
    cbn [spacesCollapsed]. rewrite Hcol, andb_true_r.
    change (isWhiteSpace 32) with true. cbv iota. simpl.
    pose proof (trimStart_head s) as Hh.
    destruct (trimStart s) as [|d t]; [rewrite Hhead; reflexivity|].
    destruct (Hhead Hh) as (r' & ->). rewrite Hh. reflexivity.
  - destruct (IH s ltac:(lia)) as [Hcol _].
    split; [|intros _; eexists; reflexivity].
    cbn [spacesCollapsed]. rewrite Hc, Hcol. reflexivity.
Qed.

Lemma replace_whitespace_fixed (fuel : nat) : forall s,
  (length s < fuel)%nat -> spacesCollapsed s = true ->
  replace_g fuel (RPlus true RSpace) (fun _ => js " ") s = s.
Proof.
  induction fuel as [|fuel IH]; intros s Hlen Hs; [lia|].
  rewrite replace_whitespace_step.
  destruct s as [|c s]; [reflexivity|]. simpl in Hlen.
  pose proof (spacesCollapsed_tail c s Hs) as Htail.
  simpl in Hs. apply andb_prop in Hs as [Hc _].
  destruct (isWhiteSpace c).
  - apply andb_prop in Hc as [H32 Hnext]. apply Z.eqb_eq in H32. subst c.
    f_equal. destruct s as [|d s]; [destruct fuel; reflexivity|].
    apply negb_true_iff in Hnext. simpl. rewrite Hnext.
    apply IH; [simpl in *; lia|exact Htail].
  - f_equal. apply IH; [lia|exact Htail].
Qed.

Lemma normalizeWhitespace_normal (s : jsstring) :
  whitespaceNormal (normalizeWhitespace s).
Proof.
  unfold normalizeWhitespace. destruct s as [|c s]; [split; reflexivity|].
  split; [|apply trim_idemp].
  destruct (replace_whitespace_collapsed (S (length (c :: s))) (c :: s)
              ltac:(lia)) as [Hcol _].
  fold (replaceAll (RPlus true RSpace) (fun _ => js " ") (c :: s)) in Hcol.
  destruct (trim_substring (replaceAll (RPlus true RSpace) (fun _ => js " ")
                              (c :: s))) as (a & b & Hab).
  rewrite Hab in Hcol.
  apply spacesCollapsed_suffix, spacesCollapsed_prefix in Hcol. exact Hcol.
Qed.

Lemma normalizeWhitespace_fixed (r : jsstring) :
  whitespaceNormal r -> normalizeWhitespace r = r.
Proof.
  intros [Hcol Htrim]. unfold normalizeWhitespace.
  destruct r as [|c r]; [reflexivity|]. unfold replaceAll.
  rewrite replace_whitespace_fixed by (simpl; auto; lia). exact Htrim.
Qed.

(** X30.  [normalizeWhitespace] returns a text whose only whitespace is a
    single space between other units, with none at either end, and is
    idempotent; [shortenKoreanProductTitle], [buildImageSearchQuery] and
    [buildFallbackQuery] return such texts too. *)
Theorem queries_whitespace_normal (toLowerCase : jsstring -> jsstring)
    (s title : jsstring) (brand : option jsstring) :
  whitespaceNormal (normalizeWhitespace s)
  /\ normalizeWhitespace (normalizeWhitespace s) = normalizeWhitespace s
  /\ whitespaceNormal (shortenKoreanProductTitle toLowerCase title)
  /\ whitespaceNormal (buildImageSearchQuery toLowerCase title brand)
  /\ whitespaceNormal (buildFallbackQuery toLowerCase title brand).
Proof.
  assert (Hnil : whitespaceNormal []) by (split; reflexivity).
  assert (Hshort : whitespaceNormal (shortenKoreanProductTitle toLowerCase title)).
  { unfold shortenKoreanProductTitle. destruct title as [|c t]; [exact Hnil|].
    destruct (trim (c :: t)); [exact Hnil|]. apply normalizeWhitespace_normal. }
  split; [apply normalizeWhitespace_normal|].
  split; [apply normalizeWhitespace_fixed, normalizeWhitespace_normal|].
  split; [exact Hshort|]. split.
  - unfold buildImageSearchQuery. destruct title as [|c t]; [exact Hnil|].
    destruct (shortenKoreanProductTitle toLowerCase (c :: t)) as [|d u] eqn:E;
      [exact Hnil|].
    destruct (usableBrand brand) as [b|]; [|exact Hshort].
    destruct (startsWith _ _); apply normalizeWhitespace_normal.
  - rewrite buildFallbackQuery_shape.
    destruct (usableBrand brand) as [b|]; [|apply normalizeWhitespace_normal].
    destruct (normalizeWhitespace title) as [|d u] eqn:E; [exact Hnil|].
    cbv zeta.
    destruct (startsWith (toLowerCase (d :: u)) (toLowerCase b));
      [|apply normalizeWhitespace_normal].
    rewrite <- E. apply normalizeWhitespace_normal.
Qed.

Example normalizeWhitespace_example :
  normalizeWhitespace (js "  a   b c  ") = js "a b c".
Proof. vm_compute. reflexivity. Qed.
